(** * CPU and disk scheduling simulator: a shallow embedding

    The scheduling engine of [static/js/app.js] ([simulateScheduling],
    [fcfsScheduling], [sjfScheduling], [roundRobinScheduling],
    [priorityScheduling], [calculateStatistics]) is translated function by
    function.  Process fields are integer-valued JavaScript numbers and are
    modelled in [Z]; JavaScript numbers are doubles, and the sums and
    differences that the code takes are rounded as the sums and differences
    of doubles are ([js_add], [js_sub]); sums of magnitude 2^1024 or more,
    which overflow, are out of the range of the model.  The non-finite
    numbers that the statistics can hold ([Infinity], [NaN]) are kept where
    the code can produce them.  Objects
    that the code compares by identity ([completed.includes(p)],
    [queue.includes(p)]) are represented by their position in
    [processesCopy], and the array itself is the store that the in-place
    field updates go to; the elements of an input array are taken to be
    distinct objects, as [simulateScheduling] builds them.  A [while] loop
    is an iteration function with a bound on the number of iterations;
    every statement about a returned value comes with the fact that some
    bound suffices.  The disk engine runs on the server and is not part of
    the sources; of the disk page only the script that talks to it is
    translated. *)

From Stdlib Require Import ZArith Lia String.
From stdpp Require Import base decidable list sorting strings pretty.

Local Open Scope Z_scope.

(** ** JavaScript numbers and values used by the engine *)

(** The double nearest to the integer [z], the one with the even
    significand when [z] lies half way between two doubles.  Every integer
    of magnitude below 2^53 is a double; from there on the doubles are the
    multiples of [ulp], the power of two that leaves 53 bits. *)
Definition round_double (z : Z) : Z :=
  let a := Z.abs z in
  if a <? 2 ^ 53 then z
  else
    let ulp := 2 ^ (Z.log2 a - 52) in
    let q := a / ulp in
    let r := a mod ulp in
    let q' := if 2 * r <? ulp then q
              else if ulp <? 2 * r then q + 1
              else if Z.even q then q else q + 1 in
    Z.sgn z * (q' * ulp).

(** The integers that are JavaScript numbers. *)
Definition is_double (z : Z) : Prop := round_double z = z.

(** [a + b] and [a - b] on integer-valued JavaScript numbers: the double
    nearest to the exact result.  An integer that is not a double is not a
    value of the program; on such operands the result is left exact, so
    that the operations are defined on all of [Z]. *)
Definition js_add (a b : Z) : Z :=
  if decide (is_double a /\ is_double b) then round_double (a + b) else a + b.

Definition js_sub (a b : Z) : Z :=
  if decide (is_double a /\ is_double b) then round_double (a - b) else a - b.

(** The numbers that appear in the statistics: a finite number, written as
    a quotient [n/d] of integers, or one of the three non-finite values. *)
Inductive number : Type :=
| Num (n : Z) (d : positive)
| PosInfinity
| NegInfinity
| NaN.

Definition of_Z (z : Z) : number := Num z 1.

(** An integer, or [NaN] for a sum that met an [undefined] field. *)
Definition of_sum (s : option Z) : number :=
  match s with
  | Some z => of_Z z
  | None => NaN
  end.

Definition number_opp (x : number) : number :=
  match x with
  | Num n d => Num (- n) d
  | PosInfinity => NegInfinity
  | NegInfinity => PosInfinity
  | NaN => NaN
  end.

(** The sign of a finite number [n/d] decides which infinity a division by
    zero gives; [0 / 0] is [NaN]. *)
Definition over_zero (n : Z) : number :=
  if 0 <? n then PosInfinity else if n <? 0 then NegInfinity else NaN.

(** The integer nearest to [n/d], for [0 <= n] and [0 < d]; the even one
    when two are equally near. *)
Definition nearest_even (n d : Z) : Z :=
  let q := n / d in
  let r := n mod d in
  if 2 * r <? d then q
  else if d <? 2 * r then q + 1
  else if Z.even q then q else q + 1.

(** The double nearest to the quotient [n/d] of two positive integers.
    [lg] is the binary logarithm of the quotient, rounded down, and [e] the
    weight of the last of the 53 bits of the significand, which is no less
    than -1074 (where the subnormal numbers end).  A result of 2^1024 or
    more is [Infinity]. *)
Definition double_quotient (n d : Z) : number :=
  let k := Z.log2 n - Z.log2 d in
  let lg := if (if 0 <=? k then d * 2 ^ k <=? n else d <=? n * 2 ^ (- k))
            then k else k - 1 in
  let e := Z.max (lg - 52) (-1074) in
  if 0 <=? e then
    let v := nearest_even n (d * 2 ^ e) * 2 ^ e in
    if 2 ^ 1024 <=? v then PosInfinity else Num v 1
  else Num (nearest_even (n * 2 ^ (- e)) d) (Z.to_pos (2 ^ (- e))).

(** [x / y], rounded to the nearest double.  (The sign of a zero is not
    kept.) *)
Definition number_div (x y : number) : number :=
  match x, y with
  | NaN, _ | _, NaN => NaN
  | Num n1 d1, Num n2 d2 =>
      if n2 =? 0 then over_zero n1
      else if n1 =? 0 then Num 0 1
      else
        let q := double_quotient (Z.abs n1 * Z.pos d2) (Z.pos d1 * Z.abs n2) in
        if xorb (n1 <? 0) (n2 <? 0) then number_opp q else q
  | Num _ _, (PosInfinity | NegInfinity) => Num 0 1
  | PosInfinity, Num n2 _ => if n2 <? 0 then NegInfinity else PosInfinity
  | NegInfinity, Num n2 _ => if n2 <? 0 then PosInfinity else NegInfinity
  | (PosInfinity | NegInfinity), (PosInfinity | NegInfinity) => NaN
  end.

(** The result of [x.toFixed(2)]: a string.  A number of magnitude 10^21
    or more is rendered by [ToString], in exponent notation; that string is
    not spelled out here but stands as [Exponential x]. *)
Inductive fixed : Type :=
| Text (s : string)
| Exponential (x : number).

(** A non-finite number is rendered by its name.  Of a finite one the
    integer [h] nearest to 100 times its magnitude is taken, the larger one
    when two are equally near, and written with its last two digits behind
    the point; a negative number gets a minus sign, also when [h] is 0. *)
Definition toFixed2 (x : number) : fixed :=
  match x with
  | Num n d =>
      let a := Z.abs n in
      if 10 ^ 21 * Z.pos d <=? a then Exponential x
      else
        let h := (200 * a + Z.pos d) / (2 * Z.pos d) in
        Text ((if n <? 0 then "-" else "") +:+ pretty (h / 100) +:+ "."
              +:+ pretty (h mod 100 / 10) +:+ pretty (h mod 10))
  | PosInfinity => Text "Infinity"
  | NegInfinity => Text "-Infinity"
  | NaN => Text "NaN"
  end.

(** [Math.min(...xs)] on integers; [None] stands for [Infinity], the value on
    an empty argument list. *)
Definition Math_min (xs : list Z) : option Z :=
  match xs with
  | [] => None
  | x :: rest => Some (foldl Z.min x rest)
  end.

(** [Math.max(...xs)] where an element is an integer or [undefined]
    ([None]), which makes the result [NaN]; the empty list gives
    [-Infinity]. *)
Fixpoint max_defined (xs : list (option Z)) : option (list Z) :=
  match xs with
  | [] => Some []
  | Some x :: rest => cons x <$> max_defined rest
  | None :: _ => None
  end.

Definition Math_max (xs : list (option Z)) : number :=
  match max_defined xs with
  | None => NaN
  | Some [] => NegInfinity
  | Some (x :: rest) => of_Z (foldl Z.max x rest)
  end.

(** [xs.reduce((sum, x) => sum + x, 0)] where an element may be
    [undefined]; [None] is [NaN]. *)
Definition sum_field (xs : list (option Z)) : option Z :=
  foldl (fun sum x => match sum, x with
                      | Some s, Some v => Some (js_add s v)
                      | _, _ => None
                      end) (Some 0) xs.

(** [xs.reduce(f)] without an initial value: the first element starts the
    accumulation; [None] on the empty array, where JavaScript throws. *)
Definition Array_reduce {A : Type} (f : A -> A -> A) (xs : list A) : option A :=
  match xs with
  | [] => None
  | x :: rest => Some (foldl f x rest)
  end.

(** [xs.sort(cmp)].  For a consistent comparator the language fixes the
    result: the stable rearrangement in which [a] precedes [b] whenever
    [cmp a b < 0].  It is computed here by stable insertion: an element is
    moved behind a later one only if the comparator is positive. *)
Fixpoint sort_insert {A : Type} (cmp : A -> A -> Z) (x : A) (l : list A) : list A :=
  match l with
  | [] => [x]
  | y :: l' => if 0 <? cmp x y then y :: sort_insert cmp x l' else x :: l
  end.

Fixpoint Array_sort {A : Type} (cmp : A -> A -> Z) (l : list A) : list A :=
  match l with
  | [] => []
  | x :: l' => sort_insert cmp x (Array_sort cmp l')
  end.

(** A [while (cond) body] loop, run for at most [fuel] iterations.  [None]
    means the loop is still running after [fuel] iterations. *)
Fixpoint while {S : Type} (cond : S -> bool) (body : S -> S) (fuel : nat) (s : S) : option S :=
  if cond s then
    match fuel with
    | O => None
    | Datatypes.S n => while cond body n (body s)
    end
  else Some s.

(** ** Data model *)

(** A process object as the scheduling functions see it.  The three result
    fields are [undefined] ([None]) until the process completes. *)
Record Process : Type := mkProcess {
  pid : Z;
  arrival_time : Z;
  burst_time : Z;
  priority : Z;
  remaining_time : Z;
  completion_time : option Z;
  turnaround_time : option Z;
  waiting_time : option Z
}.

#[global] Instance Process_inhabited : Inhabited Process :=
  populate (mkProcess 0 0 0 0 0 None None None).

(** A record as the caller supplies it to [simulateScheduling]. *)
Record ProcessInput : Type := mkInput {
  in_pid : Z;
  in_arrival_time : Z;
  in_burst_time : Z;
  in_priority : Z
}.

(** One entry of the timeline: [{pid, start, end, duration}]. *)
Record Segment : Type := mkSegment {
  seg_pid : Z;
  seg_start : Z;
  seg_end : Z;
  seg_duration : Z
}.

Record Statistics : Type := mkStatistics {
  avg_turnaround_time : fixed;
  avg_waiting_time : fixed;
  avg_response_time : fixed;
  total_time : number;
  throughput : fixed
}.

(** What a scheduling function leaves behind: the timeline, the process
    objects it handed to [calculateStatistics] (with their result fields),
    and the statistics ([None] is the empty object [{}]). *)
Record Schedule : Type := mkSchedule {
  timeline : list Segment;
  processes : list Process;
  statistics : option Statistics
}.

(** The three assignments made when a process finishes at [now]. *)
Definition set_completion (p : Process) (now : Z) : Process :=
  mkProcess (pid p) (arrival_time p) (burst_time p) (priority p) (remaining_time p)
    (Some now)
    (Some (js_sub now (arrival_time p)))
    (Some (js_sub (js_sub now (arrival_time p)) (burst_time p))).

Definition set_remaining (p : Process) (r : Z) : Process :=
  mkProcess (pid p) (arrival_time p) (burst_time p) (priority p) r
    (completion_time p) (turnaround_time p) (waiting_time p).

(** ** calculateStatistics *)

Definition calculateStatistics (ps : list Process) : option Statistics :=
  if (length ps =? 0)%nat then None
  else
    let n := of_Z (Z.of_nat (length ps)) in
    let totalTurnaround := of_sum (sum_field (turnaround_time <$> ps)) in
    let totalWaiting := of_sum (sum_field (waiting_time <$> ps)) in
    let totalTime := Math_max (completion_time <$> ps) in
    Some {| avg_turnaround_time := toFixed2 (number_div totalTurnaround n);
            avg_waiting_time := toFixed2 (number_div totalWaiting n);
            avg_response_time := toFixed2 (number_div totalWaiting n);
            total_time := totalTime;
            throughput := toFixed2 (number_div n totalTime) |}.

(** ** fcfsScheduling *)

(** [a.arrival_time - b.arrival_time || a.pid - b.pid].  Only the sign of
    the result matters to [sort], and the sign of a difference of doubles
    is that of the exact difference. *)
Definition fcfs_compare (a b : Process) : Z :=
  let d := arrival_time a - arrival_time b in
  if d =? 0 then pid a - pid b else d.

Record fcfs_state : Type := mkFcfs {
  f_currentTime : Z;
  f_timeline : list Segment;
  f_done : list Process
}.

(** One pass of the [for ... of sortedProcesses] loop. *)
Definition fcfs_iter (st : fcfs_state) (process : Process) : fcfs_state :=
  let currentTime :=
    if f_currentTime st <? arrival_time process then arrival_time process
    else f_currentTime st in
  let segment := mkSegment (pid process) currentTime
                   (js_add currentTime (burst_time process)) (burst_time process) in
  let currentTime' := js_add currentTime (burst_time process) in
  mkFcfs currentTime' (f_timeline st ++ [segment])
    (f_done st ++ [set_completion process currentTime']).

Definition fcfs_loop (sortedProcesses : list Process) : fcfs_state :=
  foldl fcfs_iter (mkFcfs 0 [] []) sortedProcesses.

Definition fcfsScheduling (ps : list Process) : Schedule :=
  let sortedProcesses := Array_sort fcfs_compare ps in
  let st := fcfs_loop sortedProcesses in
  mkSchedule (f_timeline st) (f_done st) (calculateStatistics (f_done st)).

(** ** sjfScheduling and priorityScheduling

    The two functions have the same text except for the field compared in
    the [reduce] callback ([burst_time], respectively [priority]); the
    common text is translated once, with that field as [key]. *)

Record np_state : Type := mkNp {
  np_store : list Process;        (* processesCopy *)
  np_completed : list nat;        (* completed, as positions in processesCopy *)
  np_timeline : list Segment;
  np_currentTime : Z
}.

Section NonPreemptive.
Variable key : Process -> Z.

(** [completed.length < processesCopy.length] *)
Definition np_cond (st : np_state) : bool :=
  (length (np_completed st) <? length (np_store st))%nat.

(** [processesCopy.filter(p => p.arrival_time <= currentTime &&
    !completed.includes(p))] *)
Definition np_available (st : np_state) : list nat :=
  filter (fun i => arrival_time (np_store st !!! i) <= np_currentTime st
                   /\ i ∉ np_completed st)
    (seq 0 (length (np_store st))).

(** [processesCopy.filter(p => !completed.includes(p))] *)
Definition np_pending (st : np_state) : list nat :=
  filter (fun i => i ∉ np_completed st) (seq 0 (length (np_store st))).

(** The [reduce] callback: [current.key < best.key ? current : best]. *)
Definition np_pick (store : list Process) (best current : nat) : nat :=
  if key (store !!! current) <? key (store !!! best) then current else best.

(** The branch that runs [selected] to completion. *)
Definition np_run (st : np_state) (selected : nat) : np_state :=
  let p := np_store st !!! selected in
  let now := np_currentTime st in
  let segment := mkSegment (pid p) now (js_add now (burst_time p)) (burst_time p) in
  let now' := js_add now (burst_time p) in
  mkNp (<[selected := set_completion p now']> (np_store st))
       (np_completed st ++ [selected])
       (np_timeline st ++ [segment])
       now'.

(** The branch that jumps to the next arrival.  On an empty argument list
    [Math.min] is [Infinity]; the loop is then stuck for good (nothing is
    pending, so nothing ever becomes available), which leaving the state
    as it is reproduces. *)
Definition np_jump (st : np_state) : np_state :=
  match Math_min ((fun i => arrival_time (np_store st !!! i)) <$> np_pending st) with
  | Some nextArrival =>
      mkNp (np_store st) (np_completed st) (np_timeline st) nextArrival
  | None => st
  end.

(** The body of the [while] loop. *)
Definition np_body (st : np_state) : np_state :=
  match Array_reduce (np_pick (np_store st)) (np_available st) with
  | Some selected => np_run st selected
  | None => np_jump st
  end.

Definition np_init (ps : list Process) : np_state := mkNp ps [] [] 0.

Definition np_finish (st : np_state) : Schedule :=
  let completed := (fun i => np_store st !!! i) <$> np_completed st in
  mkSchedule (np_timeline st) completed (calculateStatistics completed).

Definition np_scheduling (fuel : nat) (ps : list Process) : option Schedule :=
  np_finish <$> while np_cond np_body fuel (np_init ps).

End NonPreemptive.

Definition sjfScheduling : nat -> list Process -> option Schedule :=
  np_scheduling burst_time.

Definition priorityScheduling : nat -> list Process -> option Schedule :=
  np_scheduling priority.

(** ** roundRobinScheduling *)

Record rr_state : Type := mkRr {
  rr_store : list Process;        (* processesCopy *)
  rr_queue : list nat;            (* queue, as positions in processesCopy *)
  rr_timeline : list Segment;
  rr_currentTime : Z
}.

(** [queue.length > 0 || processesCopy.some(p => p.remaining_time > 0)] *)
Definition rr_cond (st : rr_state) : bool :=
  bool_decide (rr_queue st <> [] \/ Exists (fun p => 0 < remaining_time p) (rr_store st)).

(** [forEach(p => { if (!queue.includes(p)) queue.push(p); })] *)
Definition rr_enqueue (queue : list nat) (arrivals : list nat) : list nat :=
  foldl (fun q i => if decide (i ∈ q) then q else q ++ [i]) queue arrivals.

(** The processes picked up at the top of an iteration. *)
Definition rr_arrivals (st : rr_state) : list nat :=
  filter (fun i => arrival_time (rr_store st !!! i) <= rr_currentTime st
                   /\ 0 < remaining_time (rr_store st !!! i)
                   /\ i ∉ rr_queue st)
    (seq 0 (length (rr_store st))).

(** The dispatch branch, for the process [current] shifted off the queue
    whose remainder is [rest]. *)
Definition rr_dispatch (quantum : Z) (st : rr_state) (current : nat) (rest : list nat) : rr_state :=
  let p := rr_store st !!! current in
  let now := rr_currentTime st in
  let executeTime := Z.min quantum (remaining_time p) in
  let segment := mkSegment (pid p) now (js_add now executeTime) executeTime in
  let now' := js_add now executeTime in
  let p' := set_remaining p (js_sub (remaining_time p) executeTime) in
  if remaining_time p' =? 0 then
    mkRr (<[current := set_completion p' now']> (rr_store st)) rest
         (rr_timeline st ++ [segment]) now'
  else
    mkRr (<[current := p']> (rr_store st)) (rest ++ [current])
         (rr_timeline st ++ [segment]) now'.

(** The idle branch, with the queue [queue] as the arrivals step left it
    (empty): [nextArrival !== Infinity] guards the assignment. *)
Definition rr_jump (st : rr_state) (queue : list nat) : rr_state :=
  let later := filter (fun i => rr_currentTime st < arrival_time (rr_store st !!! i)
                                /\ 0 < remaining_time (rr_store st !!! i))
                 (seq 0 (length (rr_store st))) in
  match Math_min ((fun i => arrival_time (rr_store st !!! i)) <$> later) with
  | Some nextArrival => mkRr (rr_store st) queue (rr_timeline st) nextArrival
  | None => mkRr (rr_store st) queue (rr_timeline st) (rr_currentTime st)
  end.

Definition rr_body (quantum : Z) (st : rr_state) : rr_state :=
  match rr_enqueue (rr_queue st) (rr_arrivals st) with
  | current :: rest => rr_dispatch quantum st current rest
  | [] => rr_jump st []
  end.

(** [processes.map(p => ({ ...p, remaining_time: p.burst_time }))], and the
    queue of the processes with [arrival_time === 0]. *)
Definition rr_init (ps : list Process) : rr_state :=
  let processesCopy := (fun p => set_remaining p (burst_time p)) <$> ps in
  mkRr processesCopy
       (filter (fun i => arrival_time (processesCopy !!! i) = 0)
          (seq 0 (length processesCopy)))
       [] 0.

Definition rr_finish (st : rr_state) : Schedule :=
  mkSchedule (rr_timeline st) (rr_store st) (calculateStatistics (rr_store st)).

Definition roundRobinScheduling (fuel : nat) (ps : list Process) (quantum : Z) : option Schedule :=
  rr_finish <$> while rr_cond (rr_body quantum) fuel (rr_init ps).

(** ** simulateScheduling *)

(** How a call ends: with a value or with a thrown [Error(msg)]. *)
Inductive completion (A : Type) : Type :=
| Returns (a : A)
| Throws (msg : string).
Arguments Returns {A} a.
Arguments Throws {A} msg.

(** The object [{ timeline, statistics }] handed back to the caller. *)
Record Result : Type := mkResult {
  r_timeline : list Segment;
  r_statistics : option Statistics
}.

Definition to_result (s : Schedule) : completion Result :=
  Returns (mkResult (timeline s) (statistics s)).

(** [processes.map(p => ({pid, arrival_time, burst_time, priority,
    remaining_time: p.burst_time}))] *)
Definition processObject (p : ProcessInput) : Process :=
  mkProcess (in_pid p) (in_arrival_time p) (in_burst_time p) (in_priority p)
    (in_burst_time p) None None None.

(** [quantum] is [None] when the caller omits it (default parameter 3). *)
Definition simulateScheduling (fuel : nat) (ps : list ProcessInput)
    (algorithm : string) (quantum : option Z) : option (completion Result) :=
  let quantum := default 3 quantum in
  let processObjects := processObject <$> ps in
  if decide (algorithm = "fcfs") then
    Some (to_result (fcfsScheduling processObjects))
  else if decide (algorithm = "sjf") then
    to_result <$> sjfScheduling fuel processObjects
  else if decide (algorithm = "rr") then
    to_result <$> roundRobinScheduling fuel processObjects quantum
  else if decide (algorithm = "priority") then
    to_result <$> priorityScheduling fuel processObjects
  else Some (Throws "Unknown algorithm").

(** ** Runs of a loop *)

Section Passes.
Context {S : Type} (cond : S -> bool) (body : S -> S).

(** The states a loop started in [s0] passes through at the top of an
    iteration. *)
Inductive passes (s0 : S) : S -> Prop :=
| passes_start : passes s0 s0
| passes_next s : passes s0 s -> cond s = true -> passes s0 (body s).

End Passes.

(** ** Vocabulary of the properties *)

(** The order FCFS sorts by: earlier arrival first, lower pid on a tie. *)
Definition fcfs_before (a b : Process) : Prop :=
  arrival_time a < arrival_time b
  \/ (arrival_time a = arrival_time b /\ pid a <= pid b).

(** Running a list of processes one after the other from time [now]: the
    clock is advanced to the arrival of a process that is not there yet,
    and the process then runs for its whole burst. *)
Fixpoint run_in_order (now : Z) (l : list Process) : list Segment :=
  match l with
  | [] => []
  | p :: l' =>
      let start := Z.max now (arrival_time p) in
      mkSegment (pid p) start (js_add start (burst_time p)) (burst_time p)
        :: run_in_order (js_add start (burst_time p)) l'
  end.

Definition sumZ (l : list Z) : Z := foldr Z.add 0 l.

(** The fields of a process that no scheduling function assigns to. *)
Definition identity_of (p : Process) : Z * Z * Z * Z :=
  (pid p, arrival_time p, burst_time p, priority p).

(** A completed process whose result fields obey the data-model
    invariant. *)
Definition completed_ok (p : Process) : Prop :=
  exists c t w,
    completion_time p = Some c /\ turnaround_time p = Some t /\ waiting_time p = Some w
    /\ arrival_time p + burst_time p <= c
    /\ t = c - arrival_time p
    /\ w = t - burst_time p
    /\ 0 <= w.

(** The latest arrival time of a process list, 0 when none is positive. *)
Definition latest_arrival (ps : list Process) : Z :=
  foldr Z.max 0 (arrival_time <$> ps).

(** The times of the process list stay in the range in which the sums of
    JavaScript numbers are exact: however the processes are scheduled, no
    clock gets past the latest arrival plus all burst times, and that is at
    most 2^53. *)
Definition exact_range (ps : list Process) : Prop :=
  latest_arrival ps + sumZ (burst_time <$> ps) <= 2 ^ 53.

(** A segment that ends [duration] after it starts. *)
Definition seg_consistent (s : Segment) : Prop :=
  seg_end s = seg_start s + seg_duration s.

(** A scheduling function returns [r] when its loop comes to an end within
    some number of iterations. *)
Definition returns {A : Type} (run : nat -> option A) (r : A) : Prop :=
  exists fuel, run fuel = Some r.

(** Upper bound on the iterations left in the SJF and priority loops: two
    per pending process, one more when the next iteration is an idle jump. *)
Definition np_mu (st : np_state) : nat :=
  2 * (length (np_store st) - length (np_completed st))
  + match np_available st with [] => 1 | _ => 0 end.

(** Outstanding work of the SJF and priority loops: the processes that
    have not moved to [completed]. *)
Definition np_work (st : np_state) : nat :=
  length (np_store st) - length (np_completed st).

(** What holds of the state of the SJF and priority loops on input [ps]:
    [completed] lists distinct processes; a process outside it is as in the
    input; a process in it is the input process with its result fields
    set; the timeline has one segment per completed process, as long as
    its burst. *)
Definition np_inv (ps : list Process) (st : np_state) : Prop :=
  length (np_store st) = length ps
  /\ NoDup (np_completed st)
  /\ (forall i, i ∈ np_completed st -> (i < length ps)%nat)
  /\ (forall i, (i < length ps)%nat -> i ∉ np_completed st ->
        np_store st !!! i = ps !!! i)
  /\ (forall i, i ∈ np_completed st ->
        exists c, np_store st !!! i = set_completion (ps !!! i) c)
  /\ seg_duration <$> np_timeline st
     = (fun i => burst_time (ps !!! i)) <$> np_completed st.

(** What holds in addition when no burst time is negative and the times
    stay in the exact range: the clock is no later than the latest arrival
    plus the bursts that have run; every segment ends its duration after
    its start; a completed process that did not arrive before time 0
    obeys the data-model invariant. *)
Definition np_exact (ps : list Process) (st : np_state) : Prop :=
  0 <= np_currentTime st
       <= latest_arrival ps
          + sumZ ((fun i => burst_time (ps !!! i)) <$> np_completed st)
  /\ Forall seg_consistent (np_timeline st)
  /\ (forall i, i ∈ np_completed st -> 0 <= arrival_time (ps !!! i) ->
        completed_ok (np_store st !!! i)).

(** Process [i] of the input [ps] has arrived by the current time of [st]
    and is not yet completed. *)
Definition np_available_in (ps : list Process) (st : np_state) (i : nat) : Prop :=
  (i < length ps)%nat
  /\ arrival_time (ps !!! i) <= np_currentTime st
  /\ i ∉ np_completed st.

(** Process [i] of the input [ps] is not yet completed. *)
Definition np_pending_in (ps : list Process) (st : np_state) (i : nat) : Prop :=
  (i < length ps)%nat /\ i ∉ np_completed st.

(** [st'] is [st] after process [sel] of [ps] ran from the current time for
    its whole burst: the timeline has one more segment, which starts now,
    carries the pid of [sel] and lasts for its burst time; [sel] is the
    latest of the completed processes and its completion time is the end of
    that segment, to which the clock has moved; no other process has
    changed. *)
Definition runs_to_completion (ps : list Process) (st : np_state) (sel : nat)
    (st' : np_state) : Prop :=
  let p := ps !!! sel in
  let now := np_currentTime st in
  let finish := js_add now (burst_time p) in
  np_timeline st' = np_timeline st ++ [mkSegment (pid p) now finish (burst_time p)]
  /\ np_completed st' = np_completed st ++ [sel]
  /\ np_currentTime st' = finish
  /\ completion_time (np_store st' !!! sel) = Some finish
  /\ identity_of (np_store st' !!! sel) = identity_of p
  /\ length (np_store st') = length (np_store st)
  /\ (forall j, j <> sel -> np_store st' !!! j = np_store st !!! j).

(** [st'] is [st] with the clock moved to [a], and nothing else changed. *)
Definition idle_jump (st : np_state) (a : Z) (st' : np_state) : Prop :=
  np_currentTime st' = a
  /\ np_store st' = np_store st
  /\ np_completed st' = np_completed st
  /\ np_timeline st' = np_timeline st.

(** The process that the [reduce] of the loop body selects, if any. *)
Definition np_selected (key : Process -> Z) (st : np_state) : option nat :=
  Array_reduce (np_pick key (np_store st)) (np_available st).

(** Three processes, the last two tied on burst time and on priority, the
    later one in the list with the lower pid and the earlier arrival. *)
Definition tie_example : list Process :=
  [ mkProcess 3 0 5 1 5 None None None;
    mkProcess 2 2 3 4 3 None None None;
    mkProcess 1 1 3 4 3 None None None ].

(** The queue of round robin after the arrivals have been picked up, at
    the top of an iteration. *)
Definition rr_ready (st : rr_state) : list nat :=
  rr_enqueue (rr_queue st) (rr_arrivals st).

(** Outstanding work of the round-robin loop: the time units that
    processes still have to run, and the queued processes that have none
    left to run (each of these leaves the queue at its next dispatch). *)
Definition rr_work (st : rr_state) : nat :=
  Z.to_nat (sumZ ((fun p => Z.max 0 (remaining_time p)) <$> rr_store st))
  + length (filter (fun i => remaining_time (rr_store st !!! i) <= 0) (rr_queue st)).

(** A slice takes something off the remaining time of [p]: the
    difference that the code stores is smaller than what was there. *)
Definition slice_reduces (quantum : Z) (p : Process) : Prop :=
  0 < remaining_time p ->
  js_sub (remaining_time p) (Z.min quantum (remaining_time p)) < remaining_time p.

(** Upper bound on the iterations left in the round-robin loop. *)
Definition rr_mu (st : rr_state) : nat :=
  2 * rr_work st + match rr_ready st with [] => 1 | _ => 0 end.

(** What holds of every state of the round-robin loop on input [ps]: the
    queue lists distinct processes of the array, and the array holds the
    input processes. *)
Definition rr_inv (ps : list Process) (st : rr_state) : Prop :=
  length (rr_store st) = length ps
  /\ NoDup (rr_queue st)
  /\ (forall i, i ∈ rr_queue st -> (i < length ps)%nat)
  /\ (forall i, (i < length ps)%nat ->
        identity_of (rr_store st !!! i) = identity_of (ps !!! i)).

(** What holds in addition when every burst time and the quantum are
    positive, whatever the magnitude of the times: a remaining time lies
    between 0 and the burst time; a queued process has arrived and has time
    left to run; the clock is not negative. *)
Definition rr_order (ps : list Process) (st : rr_state) : Prop :=
  0 <= rr_currentTime st
  /\ forall i, (i < length ps)%nat ->
       let p := rr_store st !!! i in
       0 <= remaining_time p <= burst_time p
       /\ (i ∈ rr_queue st ->
           arrival_time p <= rr_currentTime st /\ 0 < remaining_time p).

(** What holds in addition when every burst time is positive, the quantum
    is positive and the times stay in the exact range: a process has run
    for its burst less its remaining time, all of it after its arrival; it
    carries its result fields once nothing remains (if it did not arrive
    before time 0); the segments add up to the time run; the clock is no
    later than the latest arrival plus the time run. *)
Definition rr_accounting (ps : list Process) (st : rr_state) : Prop :=
  (forall i, (i < length ps)%nat ->
     let p := rr_store st !!! i in
     0 <= remaining_time p <= burst_time p
     /\ (i ∈ rr_queue st \/ remaining_time p < burst_time p ->
         arrival_time p + (burst_time p - remaining_time p) <= rr_currentTime st)
     /\ (remaining_time p = 0 -> 0 <= arrival_time p -> completed_ok p))
  /\ sumZ (seg_duration <$> rr_timeline st) + sumZ (remaining_time <$> rr_store st)
     = sumZ (burst_time <$> ps)
  /\ Forall seg_consistent (rr_timeline st)
  /\ 0 <= rr_currentTime st
          <= latest_arrival ps + sumZ (seg_duration <$> rr_timeline st)
  /\ 0 <= sumZ (seg_duration <$> rr_timeline st).

(** Sample inputs. *)

(** One process that arrives at time 0 and needs one time unit. *)
Definition one_unit : list Process := [mkProcess 1 0 1 1 1 None None None].

(** One process that arrives at time 0 and needs 2^54 time units. *)
Definition large_burst : list Process :=
  [mkProcess 1 0 (2 ^ 54) 1 (2 ^ 54) None None None].

(** One process that arrives at time 2^53 and needs one time unit. *)
Definition late_start : list Process :=
  [mkProcess 1 (2 ^ 53) 1 1 1 None None None].


(** One process that arrives at time 5. *)
Definition late_arrival : list Process := [mkProcess 1 5 1 1 1 None None None].

(** A process that has completed at time 0. *)
Definition done_at_zero : list Process :=
  [mkProcess 1 0 0 1 0 (Some 0) (Some 0) (Some 0)].

(** * Further vocabulary *)

(** Segment [s] is the one run of the completed process [p]: it carries
    its pid, starts no earlier than its arrival, lasts for its burst, and
    ends, at the double nearest to start plus burst, at its completion
    time. *)
Definition segment_of (p : Process) (s : Segment) : Prop :=
  seg_pid s = pid p
  /\ arrival_time p <= seg_start s
  /\ seg_duration s = burst_time p
  /\ seg_end s = js_add (seg_start s) (burst_time p)
  /\ completion_time p = Some (seg_end s).

(** A timeline in which, from time [t] on, every segment starts no earlier
    than the one before it ends, and ends no earlier than it starts. *)
Fixpoint chained (t : Z) (l : list Segment) : Prop :=
  match l with
  | [] => True
  | s :: l' => t <= seg_start s /\ seg_start s <= seg_end s /\ chained (seg_end s) l'
  end.

(** The end of the last segment of a timeline, [t] for the empty one. *)
Definition last_end (t : Z) (l : list Segment) : Z :=
  foldl (fun _ s => seg_end s) t l.

(** * The page around the engine

    What [runSimulation], [getAlgorithmName], [getProcessColor],
    [updateGanttChart], [updateStatistics] and [editProcess] of
    [static/js/app.js] compute, and [editDiskRequest] and
    [runDiskSimulation] of the disk page.  A number read from a form field
    or a prompt is the result of [parseInt]: an integer, or [NaN]
    ([None]). *)

(** The members that every object inherits from [Object.prototype]. *)
Definition object_prototype_members : list string :=
  ["constructor"; "toString"; "toLocaleString"; "valueOf"; "hasOwnProperty";
   "isPrototypeOf"; "propertyIsEnumerable"; "__proto__"; "__defineGetter__";
   "__defineSetter__"; "__lookupGetter__"; "__lookupSetter__"].

(** [names[algorithm] || algorithm] on the object literal [names] of the
    CPU page.  A name that is an inherited member finds that member, which
    is not a string ([None]). *)
Definition getAlgorithmName (algorithm : string) : option string :=
  if decide (algorithm = "fcfs") then Some "First Come First Serve"
  else if decide (algorithm = "sjf") then Some "Shortest Job First"
  else if decide (algorithm = "rr") then Some "Round Robin"
  else if decide (algorithm = "priority") then Some "Priority Scheduling"
  else if decide (algorithm ∈ object_prototype_members) then None
  else Some algorithm.

(** ** getProcessColor *)

Definition colors : list string :=
  ["#FF6384"; "#36A2EB"; "#FFCE56"; "#4BC0C0";
   "#9966FF"; "#FF9F40"; "#FF6384"; "#C9CBCF"].

(** [colors[pid % colors.length]]: the remainder has the sign of [pid], and
    a negative index finds nothing ([undefined], [None]). *)
Definition getProcessColor (pid : Z) : option string :=
  let k := Z.rem pid (Z.of_nat (length colors)) in
  if k <? 0 then None else colors !! Z.to_nat k.

(** ** updateGanttChart *)

(** The template [`P${pid}`]. *)
Definition process_label (pid : Z) : string := "P" +:+ pretty pid.

(** [[...new Set(xs)]]: the distinct elements in the order of their first
    occurrence. *)
Definition distinct {A : Type} `{EqDecision A} (xs : list A) : list A :=
  foldl (fun seen x => if decide (x ∈ seen) then seen else seen ++ [x]) [] xs.

Record Dataset : Type := mkDataset {
  ds_label : string;
  ds_x : Z * Z;
  ds_y : string;
  ds_backgroundColor : option string;
  ds_borderColor : option string;
  ds_borderWidth : Z
}.

(** The data of the chart and the display style of the "no simulation"
    note. *)
Record GanttView : Type := mkGantt {
  g_datasets : list Dataset;
  g_labels : list string;
  g_noSimulation : string
}.

Definition segment_dataset (segment : Segment) : Dataset :=
  mkDataset (process_label (seg_pid segment))
    (seg_start segment, seg_end segment)
    (process_label (seg_pid segment))
    (getProcessColor (seg_pid segment))
    (getProcessColor (seg_pid segment))
    1.

Definition updateGanttChart (timeline : list Segment) (view : GanttView) : GanttView :=
  if (length timeline =? 0)%nat then view
  else mkGantt (segment_dataset <$> timeline)
         (distinct (process_label <$> (seg_pid <$> timeline)))
         "none".

(** ** updateStatistics *)

(** The text put into a field of the panel: [value || '-']. *)
Inductive shown : Type :=
| Dash
| Value (f : fixed).

Definition or_dash (value : option fixed) : shown :=
  match value with
  | None => Dash
  | Some (Text "") => Dash
  | Some f => Value f
  end.

Record StatisticsPanel : Type := mkPanel {
  avgTurnaround : shown;
  avgWaiting : shown;
  avgResponse : shown;
  throughputText : shown
}.

Definition updateStatistics (statistics : option Statistics) : StatisticsPanel :=
  mkPanel (or_dash (avg_turnaround_time <$> statistics))
    (or_dash (avg_waiting_time <$> statistics))
    (or_dash (avg_response_time <$> statistics))
    (or_dash (throughput <$> statistics)).

(** ** runSimulation *)

(** An alert: its text ([None] when the text is built from a value that is
    not a string) and its type. *)
Record Alert : Type := mkAlert {
  alert_message : option string;
  alert_type : string
}.

Record Page : Type := mkPage {
  page_chart : GanttView;
  page_statistics : StatisticsPanel;
  page_alert : option Alert
}.

(** [parseInt(field) || 3] *)
Definition quantum_or_default (field : option Z) : Z :=
  match field with
  | Some q => if q =? 0 then 3 else q
  | None => 3
  end.

(** [runSimulation], on the process list of the page, the selected
    algorithm and the parsed quantum field.  The exception of
    [simulateScheduling] is caught. *)
Definition runSimulation (fuel : nat) (ps : list ProcessInput) (algorithm : string)
    (quantumField : option Z) (page : Page) : option Page :=
  if (length ps =? 0)%nat then
    Some (mkPage (page_chart page) (page_statistics page)
            (Some (mkAlert (Some "Please add some processes before running simulation")
                     "warning")))
  else
    let quantum := quantum_or_default quantumField in
    match simulateScheduling fuel ps algorithm (Some quantum) with
    | None => None
    | Some (Returns result) =>
        Some (mkPage (updateGanttChart (r_timeline result) (page_chart page))
                (updateStatistics (r_statistics result))
                (Some (mkAlert
                         ((fun name => name +:+ " simulation completed!")
                            <$> getAlgorithmName algorithm)
                         "success")))
    | Some (Throws _) =>
        Some (mkPage (page_chart page) (page_statistics page)
                (Some (mkAlert (Some "Simulation failed. Please try again.") "danger")))
    end.

(** ** editProcess *)

(** The answer to a prompt: cancelled ([null]), or a text, of which only
    the [parseInt] matters. *)
Inductive answer : Type :=
| Cancelled
| Entered (parsed : option Z).

(** What an edit dialog ends in: nothing, an alert, or the request to the
    server. *)
Inductive edit_result (A : Type) : Type :=
| Abandoned
| Refused (message : string)
| Submitted (request : A).
Arguments Abandoned {A}.
Arguments Refused {A} message.
Arguments Submitted {A} request.

(** The arguments of [updateProcess]. *)
Record ProcessUpdate : Type := mkProcessUpdate {
  pu_processId : Z;
  pu_arrivalTime : Z;
  pu_burstTime : Z;
  pu_priority : Z
}.

(** A parsed number that passes a check of the form
    [isNaN(x) || x < bound]: [None] when the check fires. *)
Definition checked (x : option Z) (bad : Z -> bool) : option Z :=
  match x with
  | None => None
  | Some z => if bad z then None else Some z
  end.

Definition editProcess (processId : Z) (newArrivalTime newBurstTime newPriority : answer)
    : edit_result ProcessUpdate :=
  match newArrivalTime with
  | Cancelled => Abandoned
  | Entered arrivalTime =>
  match newBurstTime with
  | Cancelled => Abandoned
  | Entered burstTime =>
  match newPriority with
  | Cancelled => Abandoned
  | Entered priority =>
      match checked arrivalTime (fun z => z <? 0) with
      | None => Refused "Invalid arrival time. Must be non-negative."
      | Some arrivalTime =>
      match checked burstTime (fun z => z <? 1) with
      | None => Refused "Invalid burst time. Must be positive."
      | Some burstTime =>
      match checked priority (fun z => (z <? 1) || (10 <? z)) with
      | None => Refused "Invalid priority. Must be between 1 and 10."
      | Some priority =>
          Submitted (mkProcessUpdate processId arrivalTime burstTime priority)
      end end end
  end end end.

(** ** The disk page: editDiskRequest and runDiskSimulation *)

Record DiskUpdate : Type := mkDiskUpdate {
  du_requestId : Z;
  du_trackNumber : Z;
  du_arrivalTime : Z
}.

Definition editDiskRequest (requestId : Z) (newTrackNumber newArrivalTime : answer)
    : edit_result DiskUpdate :=
  match newTrackNumber with
  | Cancelled => Abandoned
  | Entered trackNumber =>
  match newArrivalTime with
  | Cancelled => Abandoned
  | Entered arrivalTime =>
      match checked trackNumber (fun z => (z <? 0) || (199 <? z)) with
      | None => Refused "Invalid track number. Must be between 0 and 199."
      | Some trackNumber =>
      match checked arrivalTime (fun z => z <? 0) with
      | None => Refused "Invalid arrival time. Must be non-negative."
      | Some arrivalTime =>
          Submitted (mkDiskUpdate requestId trackNumber arrivalTime)
      end end
  end end.

(** The body of the POST to [/simulate]. *)
Record SimulateRequest : Type := mkSimulateRequest {
  sr_algorithm : string;
  sr_initial_head_position : Z;
  sr_direction : string;
  sr_disk_size : Z
}.

(** [runDiskSimulation] up to the request it sends, on the number of disk
    requests on the page and the values of the form. *)
Definition runDiskSimulation (diskRequests : nat) (algorithm : string)
    (initialHead : option Z) (direction : string) : edit_result SimulateRequest :=
  if (diskRequests =? 0)%nat then
    Refused "Please add some disk requests before running simulation"
  else
    match checked initialHead (fun z => (z <? 0) || (199 <? z)) with
    | None => Refused "Initial head position must be between 0 and 199"
    | Some initialHead => Submitted (mkSimulateRequest algorithm initialHead direction 200)
    end.

(** * Properties *)

(** ** Arithmetic of JavaScript numbers *)

Lemma round_double_exact (z : Z) : Z.abs z <= 2 ^ 53 -> round_double z = z.
Proof.
  intros Hz. unfold round_double.
  destruct (Z.ltb_spec (Z.abs z) (2 ^ 53)) as [|Hge]; [done|].
  assert (Ha : Z.abs z = 2 ^ 53) by lia.
  destruct (Z.abs_eq_or_opp z) as [Hs|Hs]; rewrite Hs in Ha.
  - subst z. reflexivity.
  - assert (z = - 2 ^ 53) as -> by lia. reflexivity.
Qed.

Lemma round_double_opp (z : Z) : round_double (- z) = - round_double z.
Proof.
  unfold round_double. rewrite Z.abs_opp, Z.sgn_opp.
  destruct (Z.abs z <? 2 ^ 53); lia.
Qed.

(** The binade of an integer from 2^53 on: [q] is its significand cut
    off and [ulp] the distance between neighbouring doubles. *)
Lemma binade (a : Z) :
  2 ^ 53 <= a ->
  let ulp := 2 ^ (Z.log2 a - 52) in
  let q := a / ulp in
  2 <= ulp
  /\ 2 ^ Z.log2 a = 2 ^ 52 * ulp
  /\ a = q * ulp + a mod ulp
  /\ 0 <= a mod ulp < ulp
  /\ 2 ^ 52 <= q < 2 ^ 53.
Proof.
  intros Ha ulp q.
  assert (Hpos : 0 < a) by lia.
  assert (Hlog : 53 <= Z.log2 a).
  { rewrite <- (Z.log2_pow2 53) by lia. by apply Z.log2_le_mono. }
  destruct (Z.log2_spec a Hpos) as [Hlo Hhi].
  assert (Hulp : 2 ^ 1 <= ulp).
  { unfold ulp. apply Z.pow_le_mono_r; lia. }
  change (2 ^ 1) with 2 in Hulp.
  assert (Hsplit : 2 ^ Z.log2 a = 2 ^ 52 * ulp).
  { unfold ulp. rewrite <- Z.pow_add_r by lia. f_equal. lia. }
  assert (Hhi' : a < 2 ^ 53 * ulp).
  { replace (Z.succ (Z.log2 a)) with (53 + (Z.log2 a - 52)) in Hhi by lia.
    rewrite Z.pow_add_r in Hhi by lia. exact Hhi. }
  pose proof (Z.div_mod a ulp ltac:(lia)) as Hdm.
  pose proof (Z.mod_pos_bound a ulp ltac:(lia)) as Hmod.
  fold q in Hdm.
  split; [done|]. split; [done|]. split; [lia|]. split; [done|].
  split.
  - unfold q. apply Z.div_le_lower_bound; lia.
  - unfold q. apply Z.div_lt_upper_bound; lia.
Qed.

(** From 2^53 on, [round_double] picks one of the two neighbouring
    multiples of [ulp], and the integer itself when it is one. *)
Lemma round_double_large (a : Z) :
  2 ^ 53 <= a ->
  let ulp := 2 ^ (Z.log2 a - 52) in
  let q := a / ulp in
  (round_double a = q * ulp \/ round_double a = (q + 1) * ulp)
  /\ (a mod ulp = 0 -> round_double a = a)
  /\ (round_double a = a -> a mod ulp = 0).
Proof.
  intros Ha ulp q.
  destruct (binade a Ha) as (Hulp & _ & Hdm & Hmod & Hq).
  fold ulp in Hulp, Hdm, Hmod. fold q in Hdm, Hq.
  unfold round_double. rewrite Z.abs_eq by lia.
  destruct (Z.ltb_spec a (2 ^ 53)) as [|_]; [lia|].
  fold ulp. fold q. rewrite Z.sgn_pos by lia.
  destruct (Z.ltb_spec (2 * (a mod ulp)) ulp) as [Hlt|Hge].
  { split; [left; lia|]. split; [lia|]. intros Heq. nia. }
  destruct (Z.ltb_spec ulp (2 * (a mod ulp))) as [Hgt|Hle].
  { split; [right; lia|]. split; [lia|]. intros Heq. nia. }
  destruct (Z.even q).
  - split; [left; lia|]. split; [lia|]. intros Heq. nia.
  - split; [right; lia|]. split; [lia|]. intros Heq. nia.
Qed.

Lemma round_double_nonneg (z : Z) : 0 <= z -> 0 <= round_double z.
Proof.
  intros Hz. destruct (Z.lt_ge_cases z (2 ^ 53)) as [Hlt|Hge].
  - rewrite round_double_exact; lia.
  - destruct (binade z Hge) as (Hulp & _ & _ & _ & Hq).
    destruct (round_double_large z Hge) as ([->| ->] & _); nia.
Qed.

Lemma round_double_pos (z : Z) : 0 < z -> 0 < round_double z.
Proof.
  intros Hz. destruct (Z.lt_ge_cases z (2 ^ 53)) as [Hlt|Hge].
  - rewrite round_double_exact; lia.
  - destruct (binade z Hge) as (Hulp & _ & _ & _ & Hq).
    destruct (round_double_large z Hge) as ([->| ->] & _); nia.
Qed.

(** A double below [z] is no greater than the double nearest to [z]. *)
Lemma round_double_above (d z : Z) :
  is_double d -> 0 <= d <= z -> d <= round_double z.
Proof.
  intros Hd Hdz. destruct (Z.lt_ge_cases z (2 ^ 53)) as [Hlt|Hge].
  { rewrite round_double_exact; lia. }
  destruct (binade z Hge) as (Hulp & Hsplit & Hdm & Hmod & Hq).
  destruct (round_double_large z Hge) as (Hround & _).
  set (ulp := 2 ^ (Z.log2 z - 52)) in *. set (q := z / ulp) in *.
  assert (Hfloor : d <= q * ulp); [|destruct Hround as [->| ->]; lia].
  destruct (Z.lt_ge_cases d (2 ^ 53)) as [Hdlt|Hdge]; [nia|].
  destruct (round_double_large d Hdge) as (_ & _ & Hdmod). specialize (Hdmod Hd).
  assert (Hll : Z.log2 d <= Z.log2 z) by (apply Z.log2_le_mono; lia).
  destruct (Z.eq_dec (Z.log2 d) (Z.log2 z)) as [Heq|Hne].
  - rewrite Heq in Hdmod. fold ulp in Hdmod.
    apply Z.mod_divide in Hdmod as [k Hk]; [|lia]. subst d.
    assert (k <= q); [|nia].
    destruct (Z.le_gt_cases k q); [done|nia].
  - assert (Hlt' : Z.succ (Z.log2 d) <= Z.log2 z) by lia.
    destruct (Z.log2_spec d ltac:(lia)) as [_ Hdhi].
    assert (2 ^ Z.succ (Z.log2 d) <= 2 ^ Z.log2 z)
      by (apply Z.pow_le_mono_r; lia).
    nia.
Qed.

(** A double above [z] is no smaller than the double nearest to [z]. *)
Lemma round_double_below (d z : Z) :
  is_double d -> 0 <= z <= d -> round_double z <= d.
Proof.
  intros Hd Hzd. destruct (Z.lt_ge_cases z (2 ^ 53)) as [Hlt|Hge].
  { rewrite round_double_exact; lia. }
  destruct (binade z Hge) as (Hulp & Hsplit & Hdm & Hmod & Hq).
  destruct (round_double_large z Hge) as (Hround & Hexact & _).
  set (ulp := 2 ^ (Z.log2 z - 52)) in *. set (q := z / ulp) in *.
  destruct (Z.eq_dec (z mod ulp) 0) as [Hz0|Hz0].
  { rewrite Hexact by done. lia. }
  assert (Hceil : (q + 1) * ulp <= d); [|destruct Hround as [->| ->]; lia].
  assert (Hdge : 2 ^ 53 <= d) by lia.
  destruct (round_double_large d Hdge) as (_ & _ & Hdmod). specialize (Hdmod Hd).
  assert (Hll : Z.log2 z <= Z.log2 d) by (apply Z.log2_le_mono; lia).
  destruct (Z.eq_dec (Z.log2 d) (Z.log2 z)) as [Heq|Hne].
  - rewrite Heq in Hdmod. fold ulp in Hdmod.
    apply Z.mod_divide in Hdmod as [k Hk]; [|lia]. subst d.
    assert (q + 1 <= k); [|nia].
    destruct (Z.le_gt_cases (q + 1) k); [done|nia].
  - assert (Hlt' : Z.succ (Z.log2 z) <= Z.log2 d) by lia.
    destruct (Z.log2_spec d ltac:(lia)) as [Hdlo _].
    assert (Hp : 2 ^ Z.succ (Z.log2 z) <= 2 ^ Z.log2 d)
      by (apply Z.pow_le_mono_r; lia).
    rewrite Z.pow_succ_r in Hp by (apply Z.log2_nonneg).
    nia.
Qed.

Lemma is_double_opp (d : Z) : is_double d -> is_double (- d).
Proof. unfold is_double. intros Hd. by rewrite round_double_opp, Hd. Qed.

(** Rounding never crosses a double. *)
Lemma round_double_ge (d z : Z) : is_double d -> d <= z -> d <= round_double z.
Proof.
  intros Hd Hdz. destruct (Z.le_gt_cases 0 z) as [Hz|Hz].
  - destruct (Z.le_gt_cases 0 d).
    + by apply round_double_above.
    + pose proof (round_double_nonneg z Hz). lia.
  - pose proof (round_double_below (- d) (- z) (is_double_opp d Hd) ltac:(lia)) as H.
    rewrite round_double_opp in H. lia.
Qed.

Lemma round_double_le (d z : Z) : is_double d -> z <= d -> round_double z <= d.
Proof.
  intros Hd Hzd.
  pose proof (round_double_ge (- d) (- z) (is_double_opp d Hd) ltac:(lia)) as H.
  rewrite round_double_opp in H. lia.
Qed.

Lemma round_double_zero (z : Z) : round_double z = 0 <-> z = 0.
Proof.
  split; [|intros ->; reflexivity].
  intros H. destruct (Z.lt_trichotomy z 0) as [Hz|[Hz|Hz]]; [|done|].
  - pose proof (round_double_pos (- z) ltac:(lia)) as Hp.
    rewrite round_double_opp in Hp. lia.
  - pose proof (round_double_pos z Hz). lia.
Qed.

(** ** Sums and differences *)

Lemma js_add_exact (a b : Z) : Z.abs (a + b) <= 2 ^ 53 -> js_add a b = a + b.
Proof. intros H. unfold js_add. case_decide; [by apply round_double_exact|done]. Qed.

Lemma js_sub_exact (a b : Z) : Z.abs (a - b) <= 2 ^ 53 -> js_sub a b = a - b.
Proof. intros H. unfold js_sub. case_decide; [by apply round_double_exact|done]. Qed.

Lemma js_add_ge (a b : Z) : 0 <= b -> a <= js_add a b.
Proof.
  intros Hb. unfold js_add. case_decide as Hd; [|lia].
  apply round_double_ge; [tauto|lia].
Qed.

Lemma js_add_le (a b : Z) : b <= 0 -> js_add a b <= a.
Proof.
  intros Hb. unfold js_add. case_decide as Hd; [|lia].
  apply round_double_le; [tauto|lia].
Qed.

Lemma js_sub_le (a b : Z) : 0 <= b -> js_sub a b <= a.
Proof.
  intros Hb. unfold js_sub. case_decide as Hd; [|lia].
  apply round_double_le; [tauto|lia].
Qed.

Lemma js_sub_ge (a b : Z) : b <= 0 -> a <= js_sub a b.
Proof.
  intros Hb. unfold js_sub. case_decide as Hd; [|lia].
  apply round_double_ge; [tauto|lia].
Qed.

Lemma js_add_nonneg (a b : Z) : 0 <= a + b -> 0 <= js_add a b.
Proof.
  intros H. unfold js_add. case_decide; [by apply round_double_nonneg|done].
Qed.

Lemma js_sub_nonneg (a b : Z) : b <= a -> 0 <= js_sub a b.
Proof.
  intros H. unfold js_sub. case_decide; [apply round_double_nonneg|]; lia.
Qed.

Lemma js_sub_zero (a b : Z) : js_sub a b = 0 <-> a = b.
Proof.
  unfold js_sub. case_decide; [rewrite round_double_zero|]; lia.
Qed.

Lemma js_sub_diag (a : Z) : js_sub a a = 0.
Proof. by apply js_sub_zero. Qed.

Lemma js_add_0_r (a : Z) : js_add a 0 = a.
Proof.
  unfold js_add. case_decide as Hd; [|lia].
  rewrite Z.add_0_r. apply Hd.
Qed.

(** ** Loops *)

Section While.
Context {S : Type} (cond : S -> bool) (body : S -> S).

Lemma while_zero (s : S) :
  while cond body 0 s = if cond s then None else Some s.
Proof. reflexivity. Qed.

Lemma while_succ (n : nat) (s : S) :
  while cond body (Datatypes.S n) s = if cond s then while cond body n (body s) else Some s.
Proof. reflexivity. Qed.

Lemma while_more_fuel (n m : nat) (s r : S) :
  while cond body n s = Some r -> (n <= m)%nat -> while cond body m s = Some r.
Proof.
  revert m s. induction n as [|n IH]; intros m s H Hle; simpl in *.
  - destruct m; simpl; destruct (cond s); congruence.
  - destruct (cond s) eqn:Hc.
    + destruct m as [|m]; [lia|]. simpl. rewrite Hc. apply IH; [done|lia].
    + destruct m; simpl; rewrite Hc; done.
Qed.

Lemma while_deterministic (n m : nat) (s r r' : S) :
  while cond body n s = Some r -> while cond body m s = Some r' -> r = r'.
Proof.
  intros H1 H2.
  apply (while_more_fuel n (n `max` m)%nat) in H1; [|lia].
  apply (while_more_fuel m (n `max` m)%nat) in H2; [|lia].
  congruence.
Qed.

Lemma while_passes (n : nat) (s0 s r : S) :
  passes cond body s0 s -> while cond body n s = Some r -> passes cond body s0 r /\ cond r = false.
Proof.
  revert s. induction n as [|n IH]; intros s Hp H; simpl in H.
  - destruct (cond s) eqn:Hc; [done|]. by simplify_eq.
  - destruct (cond s) eqn:Hc.
    + apply (IH (body s)); [by constructor | done].
    + by simplify_eq.
Qed.

Lemma passes_invariant (I : S -> Prop) (s0 s : S) :
  I s0 -> (forall s, I s -> cond s = true -> I (body s)) -> passes cond body s0 s -> I s.
Proof. intros H0 Hstep. induction 1; eauto. Qed.

(** A loop whose body decreases a measure on the states it can be in
    returns within that many iterations. *)
Lemma while_measure (I : S -> Prop) (mu : S -> nat) :
  (forall s, I s -> cond s = true -> I (body s) /\ (mu (body s) < mu s)%nat) ->
  forall s, I s -> exists r, while cond body (mu s) s = Some r.
Proof.
  intros Hstep s. remember (mu s) as k eqn:Hk.
  assert (Hle : (mu s <= k)%nat) by lia. clear Hk.
  revert s Hle. induction k as [|k IH]; intros s Hle Hi; simpl.
  - destruct (cond s) eqn:Hc; [|eauto].
    destruct (Hstep s Hi Hc); lia.
  - destruct (cond s) eqn:Hc; [|eauto].
    destruct (Hstep s Hi Hc). apply IH; [lia|done].
Qed.

End While.

(** ** Sorting *)

Lemma sort_insert_perm {A : Type} (cmp : A -> A -> Z) (x : A) (l : list A) :
  sort_insert cmp x l ≡ₚ x :: l.
Proof.
  induction l as [|y l IH]; simpl; [done|].
  destruct (0 <? cmp x y); [|done].
  rewrite IH. apply Permutation_swap.
Qed.

Lemma Array_sort_perm {A : Type} (cmp : A -> A -> Z) (l : list A) :
  Array_sort cmp l ≡ₚ l.
Proof.
  induction l as [|x l IH]; simpl; [done|].
  by rewrite sort_insert_perm, IH.
Qed.

Lemma fcfs_compare_before (a b : Process) :
  fcfs_compare a b <= 0 <-> fcfs_before a b.
Proof.
  unfold fcfs_compare, fcfs_before.
  destruct (Z.eqb_spec (arrival_time a - arrival_time b) 0); lia.
Qed.

Lemma fcfs_before_trans (a b c : Process) :
  fcfs_before a b -> fcfs_before b c -> fcfs_before a c.
Proof. unfold fcfs_before. lia. Qed.

Lemma fcfs_before_total (a b : Process) : fcfs_before a b \/ fcfs_before b a.
Proof. unfold fcfs_before. lia. Qed.

Lemma sort_insert_fcfs_sorted (x : Process) (l : list Process) :
  StronglySorted fcfs_before l ->
  StronglySorted fcfs_before (sort_insert fcfs_compare x l).
Proof.
  induction 1 as [|y l Hl IH Hy]; simpl.
  - repeat constructor.
  - destruct (Z.ltb_spec 0 (fcfs_compare x y)) as [Hlt|Hge].
    + constructor; [done|].
      rewrite sort_insert_perm. constructor; [|done].
      destruct (fcfs_before_total y x) as [|Hxy]; [done|].
      apply fcfs_compare_before in Hxy. lia.
    + apply fcfs_compare_before in Hge.
      constructor; [by constructor|].
      constructor; [done|].
      eapply Forall_impl; [exact Hy|]. intros z Hz.
      by eapply fcfs_before_trans.
Qed.

Lemma Array_sort_fcfs_sorted (l : list Process) :
  StronglySorted fcfs_before (Array_sort fcfs_compare l).
Proof.
  induction l; simpl; [constructor|]. by apply sort_insert_fcfs_sorted.
Qed.

(** The sort is stable: the processes with a given arrival time and pid
    keep the order they have in the input. *)
Lemma sort_insert_fcfs_stable (a i : Z) (x : Process) (l : list Process) :
  filter (fun p => arrival_time p = a /\ pid p = i) (sort_insert fcfs_compare x l)
  = filter (fun p => arrival_time p = a /\ pid p = i) (x :: l).
Proof.
  induction l as [|y l IH]; simpl; [done|].
  destruct (Z.ltb_spec 0 (fcfs_compare x y)) as [Hlt|Hge]; [|done].
  rewrite filter_cons, IH, !filter_cons.
  destruct (decide (arrival_time y = a /\ pid y = i)) as [[Hy1 Hy2]|Hy]; [|done].
  destruct (decide (arrival_time x = a /\ pid x = i)) as [[Hx1 Hx2]|Hx]; [|done].
  exfalso. unfold fcfs_compare in Hlt.
  destruct (Z.eqb_spec (arrival_time x - arrival_time y) 0); lia.
Qed.

Lemma Array_sort_fcfs_stable (a i : Z) (l : list Process) :
  filter (fun p => arrival_time p = a /\ pid p = i) (Array_sort fcfs_compare l)
  = filter (fun p => arrival_time p = a /\ pid p = i) l.
Proof.
  induction l as [|x l IH]; simpl; [done|].
  by rewrite sort_insert_fcfs_stable, !filter_cons, IH.
Qed.

Lemma StronglySorted_lookup_lt {A : Type} (R : A -> A -> Prop) (l : list A)
    (i j : nat) (x y : A) :
  StronglySorted R l -> (i < j)%nat -> l !! i = Some x -> l !! j = Some y -> R x y.
Proof.
  intros Hs. revert i j. induction Hs as [|a l Hs IH Ha]; intros i j Hij Hi Hj.
  - by rewrite lookup_nil in Hi.
  - destruct j as [|j]; [lia|]. simpl in Hj. destruct i as [|i]; simpl in Hi.
    + simplify_eq. rewrite Forall_forall in Ha. apply Ha.
      by eapply list_elem_of_lookup_2.
    + eapply IH; [|done|done]. lia.
Qed.

(** ** FCFS *)

Lemma fcfs_iter_max (st : fcfs_state) (p : Process) :
  fcfs_iter st p =
  let start := Z.max (f_currentTime st) (arrival_time p) in
  mkFcfs (js_add start (burst_time p))
    (f_timeline st ++ [mkSegment (pid p) start (js_add start (burst_time p)) (burst_time p)])
    (f_done st ++ [set_completion p (js_add start (burst_time p))]).
Proof.
  unfold fcfs_iter. simpl.
  destruct (Z.ltb_spec (f_currentTime st) (arrival_time p)).
  - by rewrite Z.max_r by lia.
  - by rewrite Z.max_l by lia.
Qed.

Lemma fcfs_foldl (l : list Process) (st : fcfs_state) :
  f_timeline (foldl fcfs_iter st l)
    = f_timeline st ++ run_in_order (f_currentTime st) l
  /\ f_done (foldl fcfs_iter st l)
    = f_done st ++ zip_with (fun p seg => set_completion p (seg_end seg)) l
                     (run_in_order (f_currentTime st) l).
Proof.
  revert st. induction l as [|p l IH]; intros st; simpl.
  - by rewrite !app_nil_r.
  - destruct (IH (fcfs_iter st p)) as [-> ->].
    rewrite fcfs_iter_max. simpl. by rewrite <- !app_assoc.
Qed.

Lemma run_in_order_length (l : list Process) (now : Z) :
  length (run_in_order now l) = length l.
Proof. revert now. induction l; intros; simpl; auto. Qed.

Lemma fcfs_schedule_shape (ps : list Process) :
  let sorted := Array_sort fcfs_compare ps in
  let r := fcfsScheduling ps in
  sorted ≡ₚ ps
  /\ timeline r = run_in_order 0 sorted
  /\ processes r
     = zip_with (fun p seg => set_completion p (seg_end seg)) sorted (timeline r).
Proof.
  intros sorted r.
  destruct (fcfs_foldl sorted (mkFcfs 0 [] [])) as [Ht Hd]. simpl in Ht, Hd.
  assert (Htl : timeline r = run_in_order 0 sorted) by exact Ht.
  split; [apply Array_sort_perm|]. split; [done|]. rewrite Htl. exact Hd.
Qed.

(** C1.  FCFS runs the processes in the order obtained by sorting on
    arrival time with the pid as tie-break: the sorted array is a sorted
    rearrangement of the input, the timeline is what running that array one
    process after the other gives (clock advanced to
    max(current time, arrival time) before each run, one segment of length
    burst time per process, no preemption), every process completes at the
    end of its own segment, and of two processes with the same arrival time
    the one that runs (and completes) first has the lower or equal pid. *)
Theorem fcfs_runs_in_sorted_order (ps : list Process) :
  let sorted := Array_sort fcfs_compare ps in
  let r := fcfsScheduling ps in
  sorted ≡ₚ ps
  /\ StronglySorted fcfs_before sorted
  /\ timeline r = run_in_order 0 sorted
  /\ processes r
     = zip_with (fun p seg => set_completion p (seg_end seg)) sorted (timeline r)
  /\ length (timeline r) = length ps
  /\ (forall (i j : nat) (p q : Process),
        (i < j)%nat -> processes r !! i = Some p -> processes r !! j = Some q ->
        arrival_time p = arrival_time q -> pid p <= pid q).
Proof.
  intros sorted r.
  assert (Hsorted : StronglySorted fcfs_before sorted) by apply Array_sort_fcfs_sorted.
  destruct (fcfs_schedule_shape ps) as (Hperm & Htl & Hpr).
  fold sorted in Hperm, Htl, Hpr. fold r in Htl, Hpr.
  repeat split; try done.
  - rewrite Htl, run_in_order_length. by rewrite Hperm.
  - intros i j p q Hij Hp Hq Harr. rewrite Hpr in Hp, Hq.
    apply lookup_zip_with_Some in Hp as (p0 & s1 & -> & Hp0 & _).
    apply lookup_zip_with_Some in Hq as (q0 & s2 & -> & Hq0 & _).
    simpl in *.
    pose proof (StronglySorted_lookup_lt _ _ _ _ _ _ Hsorted Hij Hp0 Hq0) as Hb.
    unfold fcfs_before in Hb. lia.
Qed.

(** ** Minimum and selection *)

Lemma foldl_min_spec (rest : list Z) (x : Z) :
  foldl Z.min x rest ∈ x :: rest /\ (forall y, y ∈ x :: rest -> foldl Z.min x rest <= y).
Proof.
  induction rest as [|z rest IH] using rev_ind.
  - simpl. split; [by left|]. intros y Hy. apply list_elem_of_singleton in Hy. lia.
  - rewrite foldl_snoc. destruct IH as [Hin Hle]. split.
    + rewrite app_comm_cons, elem_of_app.
      destruct (Z.min_spec (foldl Z.min x rest) z) as [[_ ->]|[_ ->]].
      * by left.
      * right. by left.
    + intros y Hy. rewrite app_comm_cons, elem_of_app in Hy.
      destruct Hy as [Hy|Hy].
      * specialize (Hle _ Hy). lia.
      * apply list_elem_of_singleton in Hy. lia.
Qed.

Lemma Math_min_Some (xs : list Z) (m : Z) :
  Math_min xs = Some m -> m ∈ xs /\ (forall y, y ∈ xs -> m <= y).
Proof.
  destruct xs as [|x rest]; simpl; [done|].
  intros [= <-]. apply foldl_min_spec.
Qed.

Lemma Math_min_None (xs : list Z) : Math_min xs = None <-> xs = [].
Proof. destruct xs; simpl; split; congruence. Qed.

Lemma StronglySorted_filter_keep {A : Type} (R : A -> A -> Prop) (Q : A -> Prop)
    `{!forall x, Decision (Q x)} (l : list A) :
  StronglySorted R l -> StronglySorted R (filter Q l).
Proof.
  induction 1 as [|x l Hs IH Hx]; [constructor|].
  rewrite filter_cons. destruct (decide (Q x)); [|done].
  constructor; [done|].
  apply Forall_forall. intros y Hy. apply list_elem_of_filter in Hy as [_ Hy].
  rewrite Forall_forall in Hx. auto.
Qed.

Lemma seq_sorted (j n : nat) : StronglySorted lt (seq j n).
Proof.
  revert j. induction n as [|n IH]; intros j; simpl; constructor; [apply IH|].
  apply Forall_forall. intros k Hk. apply elem_of_seq in Hk. lia.
Qed.

Lemma sorted_split_after (l pre post : list nat) (x j : nat) :
  StronglySorted lt l -> l = pre ++ x :: post -> j ∈ post -> (x < j)%nat.
Proof.
  intros Hs -> Hj. apply StronglySorted_app_1_r in Hs.
  apply StronglySorted_cons in Hs as [Hx _].
  rewrite Forall_forall in Hx. auto.
Qed.

Section Selection.
Variable key : Process -> Z.

(** The [reduce] keeps the earliest element of the array among those with
    the least key: everything before the result has a strictly larger key,
    everything after it a key at least as large. *)
Lemma foldl_pick_first_min (store : list Process) (l : list nat) (x : nat) :
  let sel := foldl (np_pick key store) x l in
  exists pre post, x :: l = pre ++ sel :: post
    /\ (forall j, j ∈ pre -> key (store !!! sel) < key (store !!! j))
    /\ (forall j, j ∈ post -> key (store !!! sel) <= key (store !!! j)).
Proof.
  induction l as [|y l IH] using rev_ind; simpl.
  - exists [], []. split; [done|]. split; intros j Hj; by apply not_elem_of_nil in Hj.
  - rewrite foldl_snoc. destruct IH as (pre & post & Heq & Hpre & Hpost).
    set (sel := foldl (np_pick key store) x l) in *.
    remember (np_pick key store sel y) as s eqn:Hs. unfold np_pick in Hs.
    destruct (Z.ltb_spec (key (store !!! y)) (key (store !!! sel))) as [Hlt|Hge];
      subst s.
    + exists (x :: l), []. split; [by rewrite app_comm_cons|].
      split; [|intros j Hj; by apply not_elem_of_nil in Hj].
      intros j Hj. rewrite Heq in Hj. apply elem_of_app in Hj as [Hj|Hj].
      * specialize (Hpre _ Hj). lia.
      * apply elem_of_cons in Hj as [->|Hj]; [done|]. specialize (Hpost _ Hj). lia.
    + exists pre, (post ++ [y]). split.
      * rewrite app_comm_cons, Heq. by rewrite <- app_assoc.
      * split; [done|]. intros j Hj. apply elem_of_app in Hj as [Hj|Hj]; [auto|].
        apply list_elem_of_singleton in Hj. by subst.
Qed.

Lemma np_available_elem (st : np_state) (i : nat) :
  i ∈ np_available st <->
  (i < length (np_store st))%nat
  /\ arrival_time (np_store st !!! i) <= np_currentTime st
  /\ i ∉ np_completed st.
Proof.
  unfold np_available. rewrite list_elem_of_filter, elem_of_seq. intuition lia.
Qed.

Lemma np_pending_elem (st : np_state) (i : nat) :
  i ∈ np_pending st <->
  (i < length (np_store st))%nat /\ i ∉ np_completed st.
Proof.
  unfold np_pending. rewrite list_elem_of_filter, elem_of_seq. intuition lia.
Qed.

Lemma np_available_sorted (st : np_state) : StronglySorted lt (np_available st).
Proof. apply StronglySorted_filter_keep, seq_sorted. Qed.

(** What the [reduce] over the available processes selects. *)
Lemma np_selected_spec (st : np_state) (sel : nat) :
  Array_reduce (np_pick key (np_store st)) (np_available st) = Some sel ->
  sel ∈ np_available st
  /\ (forall j, j ∈ np_available st ->
        key (np_store st !!! sel) <= key (np_store st !!! j))
  /\ (forall j, j ∈ np_available st ->
        key (np_store st !!! j) = key (np_store st !!! sel) -> (sel <= j)%nat).
Proof.
  pose proof (np_available_sorted st) as Hs.
  destruct (np_available st) as [|x l] eqn:Hav; simpl; [done|].
  intros [= <-].
  destruct (foldl_pick_first_min (np_store st) l x) as (pre & post & Heq & Hpre & Hpost).
  set (sel := foldl (np_pick key (np_store st)) x l) in *.
  assert (Hin : sel ∈ x :: l).
  { rewrite Heq. apply elem_of_app. right. by left. }
  split; [done|]. split.
  - intros j Hj. rewrite Heq in Hj. apply elem_of_app in Hj as [Hj|Hj].
    + specialize (Hpre _ Hj). lia.
    + apply elem_of_cons in Hj as [->|Hj]; [lia|auto].
  - intros j Hj Hk. rewrite Heq in Hj. apply elem_of_app in Hj as [Hj|Hj].
    + specialize (Hpre _ Hj). lia.
    + apply elem_of_cons in Hj as [->|Hj]; [lia|].
      pose proof (sorted_split_after _ _ _ _ _ Hs Heq Hj). lia.
Qed.

(** While the loop condition holds some process is pending. *)
Lemma np_cond_pending (st : np_state) :
  np_cond st = true -> np_pending st <> [].
Proof.
  unfold np_cond. intros Hc Hnil. apply Nat.ltb_lt in Hc.
  assert (Hsub : seq 0 (length (np_store st)) ⊆+ np_completed st).
  { apply NoDup_submseteq; [apply NoDup_seq|]. intros i Hi.
    destruct (decide (i ∈ np_completed st)) as [|Hn]; [done|].
    assert (i ∈ np_pending st) as Hp.
    { apply np_pending_elem. apply elem_of_seq in Hi. split; [lia|done]. }
    rewrite Hnil in Hp. by apply not_elem_of_nil in Hp. }
  apply submseteq_length in Hsub. rewrite length_seq in Hsub. lia.
Qed.

(** The idle jump, when the loop condition holds: the clock goes to the
    least arrival time of a pending process. *)
Lemma np_jump_spec (st : np_state) :
  np_cond st = true ->
  exists m, m ∈ np_pending st
    /\ (forall j, j ∈ np_pending st ->
          arrival_time (np_store st !!! m) <= arrival_time (np_store st !!! j))
    /\ np_jump st = mkNp (np_store st) (np_completed st) (np_timeline st)
                      (arrival_time (np_store st !!! m)).
Proof.
  intros Hc. apply np_cond_pending in Hc. unfold np_jump.
  destruct (Math_min _) as [a|] eqn:Hmin.
  - apply Math_min_Some in Hmin as [Hin Hle].
    apply list_elem_of_fmap in Hin as (m & -> & Hm).
    exists m. split; [done|]. split; [|done].
    intros j Hj. apply Hle. apply list_elem_of_fmap. eauto.
  - apply Math_min_None in Hmin. apply fmap_nil_inv in Hmin. done.
Qed.

End Selection.

(** ** The SJF and priority loops *)

Lemma fmap_lookup_total_seq {A : Type} `{!Inhabited A} (l : list A) :
  (fun i => l !!! i) <$> seq 0 (length l) = l.
Proof.
  apply list_eq. intros i. rewrite list_lookup_fmap.
  destruct (decide (i < length l)%nat) as [Hlt|Hge].
  - rewrite lookup_seq_lt by done. simpl.
    destruct (lookup_lt_is_Some_2 l i Hlt) as [x Hx].
    by rewrite (list_lookup_total_correct _ _ _ Hx).
  - rewrite lookup_seq_ge by lia. rewrite lookup_ge_None_2 by lia. done.
Qed.

Lemma fmap_via_indices {A B : Type} `{!Inhabited A} (f : A -> B) (l : list A) :
  f <$> l = (fun i => f (l !!! i)) <$> seq 0 (length l).
Proof.
  rewrite <- (fmap_lookup_total_seq l) at 1. by rewrite <- list_fmap_compose.
Qed.

Lemma sumZ_app (l k : list Z) : sumZ (l ++ k) = sumZ l + sumZ k.
Proof. unfold sumZ. induction l; simpl; lia. Qed.

Lemma sumZ_cons (x : Z) (l : list Z) : sumZ (x :: l) = x + sumZ l.
Proof. reflexivity. Qed.

Lemma sumZ_fmap_snoc {A : Type} (f : A -> Z) (l : list A) (x : A) :
  sumZ (f <$> l ++ [x]) = sumZ (f <$> l) + f x.
Proof. rewrite fmap_app, sumZ_app. unfold sumZ at 2. simpl. lia. Qed.

Lemma sumZ_perm (l k : list Z) : l ≡ₚ k -> sumZ l = sumZ k.
Proof. unfold sumZ. induction 1; simpl; lia. Qed.

Lemma indices_complete (n : nat) (l : list nat) :
  NoDup l -> (forall i, i ∈ l -> (i < n)%nat) -> (n <= length l)%nat -> l ≡ₚ seq 0 n.
Proof.
  intros Hnd Hlt Hlen. apply submseteq_length_Permutation.
  - apply NoDup_submseteq; [done|]. intros i Hi. apply elem_of_seq. specialize (Hlt i Hi). lia.
  - by rewrite length_seq.
Qed.

Lemma sumZ_nonneg (l : list Z) : Forall (fun z => 0 <= z) l -> 0 <= sumZ l.
Proof. unfold sumZ. induction 1; simpl; lia. Qed.

Lemma sumZ_submseteq (l k : list Z) :
  l ⊆+ k -> Forall (fun z => 0 <= z) k -> sumZ l <= sumZ k.
Proof.
  induction 1 as [|x l k _ IH|x y l|x l k _ IH|l k m H1 IH1 H2 IH2]; intros Hk.
  - done.
  - apply Forall_cons in Hk as [_ Hk]. rewrite !sumZ_cons. specialize (IH Hk). lia.
  - rewrite !sumZ_cons. lia.
  - apply Forall_cons in Hk as [Hx Hk]. rewrite sumZ_cons. specialize (IH Hk). lia.
  - assert (Hk' : Forall (fun z => 0 <= z) k).
    { apply Forall_forall. intros z Hz. rewrite Forall_forall in Hk. apply Hk.
      exact (elem_of_submseteq _ _ _ Hz H2). }
    specialize (IH1 Hk'). specialize (IH2 Hk). lia.
Qed.

(** Part of the processes have no more burst time than all of them. *)
Lemma sumZ_indices_le (ps : list Process) (l : list nat) :
  Forall (fun p => 0 <= burst_time p) ps ->
  NoDup l -> (forall i, i ∈ l -> (i < length ps)%nat) ->
  sumZ ((fun i => burst_time (ps !!! i)) <$> l) <= sumZ (burst_time <$> ps).
Proof.
  intros Hb Hnd Hlt. rewrite (fmap_via_indices burst_time ps).
  apply sumZ_submseteq.
  - apply fmap_submseteq, NoDup_submseteq; [done|].
    intros i Hi. apply elem_of_seq. specialize (Hlt i Hi). lia.
  - apply Forall_fmap, Forall_forall. intros i Hi. simpl.
    apply elem_of_seq in Hi.
    apply (Forall_lookup_total_1 (fun p => 0 <= burst_time p) ps i Hb). lia.
Qed.

Lemma latest_arrival_cons (p : Process) (ps : list Process) :
  latest_arrival (p :: ps) = Z.max (arrival_time p) (latest_arrival ps).
Proof. reflexivity. Qed.

Lemma latest_arrival_nonneg (ps : list Process) : 0 <= latest_arrival ps.
Proof.
  induction ps as [|q ps IH]; [done|]. rewrite latest_arrival_cons. lia.
Qed.

Lemma latest_arrival_ge (ps : list Process) (p : Process) :
  p ∈ ps -> arrival_time p <= latest_arrival ps.
Proof.
  induction ps as [|q ps IH]; intros Hp.
  - by apply not_elem_of_nil in Hp.
  - rewrite latest_arrival_cons.
    apply elem_of_cons in Hp as [->|Hp]; [lia|]. specialize (IH Hp). lia.
Qed.

Lemma latest_arrival_lookup (ps : list Process) (i : nat) :
  (i < length ps)%nat -> arrival_time (ps !!! i) <= latest_arrival ps.
Proof.
  intros Hi. apply latest_arrival_ge. apply list_elem_of_lookup. exists i.
  by apply list_lookup_lookup_total_lt.
Qed.

(** The result fields of a process that finishes at [c], in the exact
    range. *)
Lemma set_completion_ok (p : Process) (c : Z) :
  0 <= arrival_time p -> 0 <= burst_time p ->
  arrival_time p + burst_time p <= c <= 2 ^ 53 ->
  completed_ok (set_completion p c).
Proof.
  intros Ha Hb Hc. unfold completed_ok, set_completion. simpl.
  exists c, (c - arrival_time p), (c - arrival_time p - burst_time p).
  rewrite (js_sub_exact c) by lia. rewrite js_sub_exact by lia.
  repeat split; try done; lia.
Qed.

Section NonPreemptiveFacts.
Variable key : Process -> Z.

Lemma np_body_cases (st : np_state) :
  (exists sel, Array_reduce (np_pick key (np_store st)) (np_available st) = Some sel
               /\ np_available st <> []
               /\ np_body key st = np_run st sel)
  \/ (np_available st = [] /\ np_body key st = np_jump st).
Proof.
  unfold np_body. destruct (np_available st) as [|x l] eqn:Hav; simpl.
  - by right.
  - left. eexists. by split.
Qed.

(** Every iteration brings the loop closer to its end. *)
Lemma np_mu_decreases (st : np_state) :
  np_cond st = true -> (np_mu (np_body key st) < np_mu st)%nat.
Proof.
  intros Hc. destruct (np_body_cases st) as [(sel & Hsel & Hne & ->)|[Hnil ->]].
  - unfold np_mu at 2. destruct (np_available st) as [|x l]; [done|].
    unfold np_mu, np_run. simpl. rewrite length_insert, length_app. simpl.
    unfold np_cond in Hc. apply Nat.ltb_lt in Hc.
    destruct (np_available _); lia.
  - destruct (np_jump_spec st Hc) as (m & Hm & Hle & ->).
    unfold np_mu at 2. rewrite Hnil. unfold np_mu. simpl.
    apply np_pending_elem in Hm as [Hlt Hn].
    match goal with |- context [np_available ?s] => destruct (np_available s) eqn:Hav end;
      [|lia].
    assert (m ∈ np_available
              (mkNp (np_store st) (np_completed st) (np_timeline st)
                 (arrival_time (np_store st !!! m)))) as Hin.
    { apply np_available_elem. simpl. split; [done|]. split; [lia|done]. }
    rewrite Hav in Hin. by apply not_elem_of_nil in Hin.
Qed.

Lemma np_loop_terminates (st : np_state) :
  exists r, while np_cond (np_body key) (np_mu st) st = Some r.
Proof.
  apply (while_measure np_cond (np_body key) (fun _ => True) np_mu); [|done].
  intros s _ Hc. split; [done|]. by apply np_mu_decreases.
Qed.

Lemma np_inv_init (ps : list Process) : np_inv ps (np_init ps).
Proof.
  unfold np_inv, np_init. simpl. split; [done|]. split; [constructor|].
  split; [intros i Hi; by apply not_elem_of_nil in Hi|].
  split; [done|]. split; [intros i Hi; by apply not_elem_of_nil in Hi|].
  done.
Qed.

Lemma np_inv_body (ps : list Process) (st : np_state) :
  np_inv ps st -> np_cond st = true -> np_inv ps (np_body key st).
Proof.
  intros (Hlen & Hnd & Hlt & Hun & Hco & Htl) Hc.
  destruct (np_body_cases st) as [(sel & Hsel & Hne & ->)|[Hnil ->]].
  - apply np_selected_spec in Hsel as (Hin & _ & _).
    apply np_available_elem in Hin as (Hsl & Harr & Hnc).
    rewrite Hlen in Hsl.
    unfold np_inv, np_run. simpl.
    rewrite length_insert. split; [done|].
    split. { apply NoDup_app. split; [done|]. split; [|apply NoDup_singleton].
             intros i Hi Hi'. apply list_elem_of_singleton in Hi'. by subst. }
    split. { intros i Hi. apply elem_of_app in Hi as [Hi|Hi]; [auto|].
             apply list_elem_of_singleton in Hi. by subst. }
    split. { intros i Hi Hni. rewrite elem_of_app, list_elem_of_singleton in Hni.
             rewrite list_lookup_total_insert_ne by naive_solver.
             apply Hun; [done|]. naive_solver. }
    split. { intros i Hi. apply elem_of_app in Hi as [Hi|Hi].
             - rewrite list_lookup_total_insert_ne by (intros ->; done). auto.
             - apply list_elem_of_singleton in Hi. subst i.
               rewrite list_lookup_total_insert_eq by lia.
               rewrite (Hun sel) in * by done.
               by eexists. }
    rewrite !fmap_app, Htl. simpl. by rewrite (Hun sel) by done.
  - destruct (np_jump_spec st Hc) as (m & _ & _ & ->).
    unfold np_inv. simpl. done.
Qed.

Lemma np_passes_inv (ps : list Process) (st : np_state) :
  passes np_cond (np_body key) (np_init ps) st -> np_inv ps st.
Proof.
  apply (passes_invariant np_cond (np_body key) (np_inv ps)).
  - apply np_inv_init.
  - apply np_inv_body.
Qed.

Lemma np_exact_init (ps : list Process) : np_exact ps (np_init ps).
Proof.
  unfold np_exact, np_init. simpl. pose proof (latest_arrival_nonneg ps).
  split; [unfold sumZ; simpl; lia|]. split; [constructor|].
  intros i Hi. by apply not_elem_of_nil in Hi.
Qed.

Lemma np_exact_body (ps : list Process) (st : np_state) :
  Forall (fun p => 0 <= burst_time p) ps -> exact_range ps ->
  np_inv ps st /\ np_exact ps st -> np_cond st = true ->
  np_inv ps (np_body key st) /\ np_exact ps (np_body key st).
Proof.
  intros Hb Hrange [Hinv Hex] Hc.
  pose proof (np_inv_body ps st Hinv Hc) as Hinv'. split; [done|].
  destruct Hinv as (Hlen & Hnd & Hlt & Hun & Hco & Htl).
  destruct Hex as (Hclock & Hcons & Hok).
  destruct (np_body_cases st) as [(sel & Hsel & Hne & Hbody)|[Hnil Hbody]].
  - rewrite Hbody in Hinv' |- *.
    destruct Hinv' as (_ & Hnd' & Hlt' & _).
    apply np_selected_spec in Hsel as (Hin & _ & _).
    apply np_available_elem in Hin as (Hsl & Harr & Hnc).
    rewrite Hlen in Hsl. rewrite (Hun sel) in Harr by done.
    pose proof (sumZ_indices_le ps _ Hb Hnd' Hlt') as Hsum.
    unfold np_run in Hsum. cbn [np_completed] in Hsum.
    rewrite sumZ_fmap_snoc in Hsum.
    pose proof (Forall_lookup_total_1 _ _ sel Hb Hsl) as Hbs. simpl in Hbs.
    unfold exact_range in Hrange.
    assert (Hadd : js_add (np_currentTime st) (burst_time (ps !!! sel))
                   = np_currentTime st + burst_time (ps !!! sel))
      by (apply js_add_exact; lia).
    unfold np_exact, np_run. simpl. rewrite (Hun sel) by done. rewrite Hadd.
    split. { rewrite sumZ_fmap_snoc. lia. }
    split. { apply Forall_app. split; [done|]. constructor; [|constructor].
             unfold seg_consistent. simpl. done. }
    intros i Hi Ha. apply elem_of_app in Hi as [Hi|Hi].
    + rewrite list_lookup_total_insert_ne by (intros ->; done). auto.
    + apply list_elem_of_singleton in Hi. subst i.
      rewrite list_lookup_total_insert_eq by lia.
      apply set_completion_ok; [done|done|lia].
  - rewrite Hbody. destruct (np_jump_spec st Hc) as (m & Hm & _ & ->).
    unfold np_exact. simpl. split; [|done].
    apply np_pending_elem in Hm as [Hml Hmn]. rewrite Hlen in Hml.
    rewrite (Hun m) by done.
    pose proof (latest_arrival_lookup ps m Hml) as Hlate.
    assert (Hnow : np_currentTime st < arrival_time (ps !!! m)).
    { destruct (Z.lt_ge_cases (np_currentTime st) (arrival_time (ps !!! m)));
        [done|].
      assert (m ∈ np_available st) as Hin.
      { apply np_available_elem. rewrite Hlen, (Hun m) by done.
        split; [done|]. split; [lia|done]. }
      rewrite Hnil in Hin. by apply not_elem_of_nil in Hin. }
    assert (0 <= sumZ ((fun i => burst_time (ps !!! i)) <$> np_completed st)).
    { apply sumZ_nonneg, Forall_fmap, Forall_forall. intros i Hi. simpl.
      apply (Forall_lookup_total_1 (fun p => 0 <= burst_time p) ps i Hb). auto. }
    lia.
Qed.

Lemma np_passes_exact (ps : list Process) (st : np_state) :
  Forall (fun p => 0 <= burst_time p) ps -> exact_range ps ->
  passes np_cond (np_body key) (np_init ps) st -> np_inv ps st /\ np_exact ps st.
Proof.
  intros Hb Hrange.
  apply (passes_invariant np_cond (np_body key)
           (fun s => np_inv ps s /\ np_exact ps s)).
  - split; [apply np_inv_init|apply np_exact_init].
  - intros s Hs Hc. by apply np_exact_body.
Qed.

(** In the exact range the non-preemptive loop returns with every process
    completed, with result fields that obey the data-model invariant, and
    with one segment per process that lasts for its burst. *)
Lemma np_scheduling_result (ps : list Process) :
  Forall (fun p => 0 <= burst_time p) ps -> exact_range ps ->
  exists r, returns (fun fuel => np_scheduling key fuel ps) r
    /\ identity_of <$> processes r ≡ₚ identity_of <$> ps
    /\ Forall (fun p => 0 <= arrival_time p -> completed_ok p) (processes r)
    /\ sumZ (seg_duration <$> timeline r) = sumZ (burst_time <$> ps)
    /\ Forall seg_consistent (timeline r)
    /\ length (timeline r) = length ps.
Proof.
  intros Hb Hrange.
  destruct (np_loop_terminates (np_init ps)) as [st Hst].
  exists (np_finish st). split.
  { exists (np_mu (np_init ps)). unfold np_scheduling. by rewrite Hst. }
  apply while_passes with (s0 := np_init ps) in Hst as [Hp Hc]; [|constructor].
  apply (np_passes_exact ps st Hb Hrange) in Hp
    as ((Hlen & Hnd & Hlt & Hun & Hco & Htl) & (_ & Hcons & Hok)).
  unfold np_cond in Hc. apply Nat.ltb_ge in Hc. rewrite Hlen in Hc.
  pose proof (indices_complete _ _ Hnd Hlt Hc) as Hperm.
  assert (Hid : forall i, i ∈ np_completed st ->
            identity_of (np_store st !!! i) = identity_of (ps !!! i)).
  { intros i Hi. destruct (Hco i Hi) as (c & ->). done. }
  unfold np_finish. simpl. split; [|split; [|split; [|split]]].
  - rewrite <- list_fmap_compose, (fmap_via_indices identity_of ps).
    rewrite <- Hperm.
    assert ((identity_of ∘ (fun i => np_store st !!! i)) <$> np_completed st
            = (fun i => identity_of (ps !!! i)) <$> np_completed st) as ->; [|done].
    apply list_fmap_ext. intros k i Hi%list_elem_of_lookup_2. simpl. auto.
  - apply Forall_fmap, Forall_forall. intros i Hi. simpl. intros Ha.
    apply (Hok i Hi). pose proof (Hid i Hi) as Hident.
    unfold identity_of in Hident. injection Hident as _ <- _ _. done.
  - rewrite Htl, (fmap_via_indices burst_time ps).
    apply sumZ_perm. by rewrite Hperm.
  - done.
  - rewrite <- (length_fmap seg_duration), Htl, length_fmap.
    rewrite Hperm. by rewrite length_seq.
Qed.

End NonPreemptiveFacts.

Section DecisionPoints.
Variable key : Process -> Z.
Variable ps : list Process.
Variable st : np_state.
Hypothesis Hpasses : passes np_cond (np_body key) (np_init ps) st.

Lemma np_available_in_iff (i : nat) :
  np_available_in ps st i <-> i ∈ np_available st.
Proof.
  destruct (np_passes_inv key ps st Hpasses) as (Hlen & Hnd & Hlt & Hun & _).
  rewrite np_available_elem, Hlen. unfold np_available_in.
  split; intros (H1 & H2 & H3); (split; [done|split; [|done]]).
  - by rewrite Hun.
  - by rewrite <- Hun.
Qed.

Lemma np_pending_in_iff (i : nat) :
  np_pending_in ps st i <-> i ∈ np_pending st.
Proof.
  destruct (np_passes_inv key ps st Hpasses) as (Hlen & _).
  rewrite np_pending_elem, Hlen. done.
Qed.

(** The selected process is available, has the least key among the
    available ones, and is the first in input order among those with that
    key; the body runs it to completion. *)
Lemma np_selection_rule (sel : nat) :
  np_selected key st = Some sel ->
  np_available_in ps st sel
  /\ (forall j, np_available_in ps st j ->
        key (ps !!! sel) <= key (ps !!! j)
        /\ (key (ps !!! j) = key (ps !!! sel) -> (sel <= j)%nat))
  /\ runs_to_completion ps st sel (np_body key st).
Proof.
  intros Hsel.
  destruct (np_passes_inv key ps st Hpasses) as (Hlen & Hnd & Hlt & Hun & _).
  assert (Hst : forall j, j ∈ np_available st -> np_store st !!! j = ps !!! j).
  { intros j Hj. apply np_available_elem in Hj as (H1 & _ & H3).
    apply Hun; [lia|done]. }
  pose proof Hsel as Hsel'.
  apply np_selected_spec in Hsel' as (Hin & Hmin & Hfirst).
  split; [by apply np_available_in_iff|]. split.
  - intros j Hj%np_available_in_iff.
    rewrite <- (Hst sel Hin), <- (Hst j Hj). split; [auto|]. by apply Hfirst.
  - assert (Hlt' : (sel < length (np_store st))%nat)
      by (by apply np_available_elem in Hin as (? & _)).
    unfold runs_to_completion, np_body. unfold np_selected in Hsel. rewrite Hsel.
    unfold np_run. cbn [np_timeline np_completed np_currentTime np_store].
    rewrite (Hst sel Hin), length_insert.
    rewrite list_lookup_total_insert_eq by done.
    repeat split; try done.
    intros j Hj. by rewrite list_lookup_total_insert_ne.
Qed.

(** With no process available the body is the idle jump to the least
    arrival time of a pending process. *)
Lemma np_idle_rule :
  np_cond st = true -> np_selected key st = None ->
  (forall j, ~ np_available_in ps st j)
  /\ exists m, np_pending_in ps st m
       /\ (forall j, np_pending_in ps st j ->
             arrival_time (ps !!! m) <= arrival_time (ps !!! j))
       /\ idle_jump st (arrival_time (ps !!! m)) (np_body key st).
Proof.
  intros Hc Hsel.
  destruct (np_passes_inv key ps st Hpasses) as (Hlen & Hnd & Hlt & Hun & _).
  assert (Hnil : np_available st = []).
  { unfold np_selected in Hsel. by destruct (np_available st). }
  split.
  { intros j Hj%np_available_in_iff. rewrite Hnil in Hj. by apply not_elem_of_nil in Hj. }
  destruct (np_jump_spec st Hc) as (m & Hm & Hle & Hj).
  assert (Hst : forall j, j ∈ np_pending st -> np_store st !!! j = ps !!! j).
  { intros j Hjp. apply np_pending_elem in Hjp as (H1 & H3). apply Hun; [lia|done]. }
  exists m. split; [by apply np_pending_in_iff|]. split.
  - intros j Hjp%np_pending_in_iff. rewrite <- (Hst m Hm), <- (Hst j Hjp). auto.
  - unfold idle_jump, np_body. unfold np_selected in Hsel. rewrite Hsel, Hj.
    by rewrite <- (Hst m Hm).
Qed.

End DecisionPoints.

(** C2.  [sjfScheduling] returns on every process list [ps]; its result is
    what the loop leaves behind when it comes to its end, with one segment
    per process and every process completed; and at every decision point
    on the way (a state [st] at the top of the loop, with the loop
    condition true): either some process that has arrived and is not
    completed has the least burst time among those, and the body runs it to
    completion from the current time; or no process is available, and the
    body only moves the clock, to the least arrival time among the
    processes not yet completed. *)
Theorem sjf_decision_point (ps : list Process) :
  exists r final,
    returns (fun fuel => sjfScheduling fuel ps) r
    /\ passes np_cond (np_body burst_time) (np_init ps) final
    /\ np_cond final = false
    /\ timeline r = np_timeline final
    /\ processes r = (fun i => np_store final !!! i) <$> np_completed final
    /\ length (timeline r) = length ps
    /\ length (processes r) = length ps
    /\ forall st,
         passes np_cond (np_body burst_time) (np_init ps) st ->
         np_cond st = true ->
         (exists sel, np_available_in ps st sel
            /\ (forall j, np_available_in ps st j ->
                  burst_time (ps !!! sel) <= burst_time (ps !!! j))
            /\ runs_to_completion ps st sel (np_body burst_time st))
         \/ ((forall j, ~ np_available_in ps st j)
             /\ exists m, np_pending_in ps st m
                  /\ (forall j, np_pending_in ps st j ->
                        arrival_time (ps !!! m) <= arrival_time (ps !!! j))
                  /\ idle_jump st (arrival_time (ps !!! m)) (np_body burst_time st)).
Proof.
  destruct (np_loop_terminates burst_time (np_init ps)) as [final Hfinal].
  exists (np_finish final), final.
  split. { exists (np_mu (np_init ps)). unfold sjfScheduling, np_scheduling.
           by rewrite Hfinal. }
  apply while_passes with (s0 := np_init ps) in Hfinal as [Hp Hc]; [|constructor].
  split; [done|]. split; [done|]. split; [done|]. split; [done|].
  pose proof (np_passes_inv burst_time ps final Hp) as (Hlen & Hnd & Hlt & _ & _ & Htl).
  assert (Hall : length (np_completed final) = length ps).
  { unfold np_cond in Hc. apply Nat.ltb_ge in Hc. rewrite Hlen in Hc.
    pose proof (indices_complete _ _ Hnd Hlt Hc) as Hperm.
    by rewrite Hperm, length_seq. }
  split. { unfold np_finish. cbn [timeline].
           by rewrite <- (length_fmap seg_duration), Htl, length_fmap. }
  split. { unfold np_finish. cbn [processes]. by rewrite length_fmap. }
  intros st Hst Hcond. destruct (np_selected burst_time st) as [sel|] eqn:Hsel.
  - left. exists sel.
    destruct (np_selection_rule burst_time ps st Hst sel Hsel) as (Hav & Hmin & Hrun).
    split; [done|]. split; [|done]. intros j Hj. by apply Hmin.
  - right. by apply np_idle_rule.
Qed.

(** C10.  In [sjfScheduling] and in [priorityScheduling] the selected
    process is, among the available processes with the least burst time
    (respectively the least priority value), the one that comes first in
    the input list.  On [tie_example] this is neither the lowest pid nor
    the earliest arrival: the tied processes run in list order, pid 2
    (arrived at 2) before pid 1 (arrived at 1). *)
Theorem selection_tie_break_is_input_order :
  (forall (ps : list Process) (st : np_state) (sel : nat),
     passes np_cond (np_body burst_time) (np_init ps) st ->
     np_selected burst_time st = Some sel ->
     np_available_in ps st sel
     /\ forall j, np_available_in ps st j ->
          burst_time (ps !!! sel) <= burst_time (ps !!! j)
          /\ (burst_time (ps !!! j) = burst_time (ps !!! sel) -> (sel <= j)%nat))
  /\ (forall (ps : list Process) (st : np_state) (sel : nat),
     passes np_cond (np_body priority) (np_init ps) st ->
     np_selected priority st = Some sel ->
     np_available_in ps st sel
     /\ forall j, np_available_in ps st j ->
          priority (ps !!! sel) <= priority (ps !!! j)
          /\ (priority (ps !!! j) = priority (ps !!! sel) -> (sel <= j)%nat))
  /\ (forall key st, np_body key st =
        match np_selected key st with
        | Some sel => np_run st sel
        | None => np_jump st
        end)
  /\ (fun r => seg_pid <$> timeline r) <$> sjfScheduling 3 tie_example
     = Some [3; 2; 1]
  /\ (fun r => seg_pid <$> timeline r) <$> priorityScheduling 3 tie_example
     = Some [3; 2; 1].
Proof.
  split; [|split; [|split; [|split]]].
  - intros ps st sel Hp Hsel.
    destruct (np_selection_rule burst_time ps st Hp sel Hsel) as (Hav & Hmin & _). done.
  - intros ps st sel Hp Hsel.
    destruct (np_selection_rule priority ps st Hp sel Hsel) as (Hav & Hmin & _). done.
  - reflexivity.
  - reflexivity.
  - reflexivity.
Qed.

(** ** The round-robin loop *)

Lemma sumZ_fmap_insert {A : Type} `{!Inhabited A} (f : A -> Z) (l : list A)
    (i : nat) (x : A) :
  (i < length l)%nat ->
  sumZ (f <$> <[i:=x]> l) = sumZ (f <$> l) - f (l !!! i) + f x.
Proof.
  intros Hi. destruct (lookup_lt_is_Some_2 l i Hi) as [y Hy].
  rewrite (list_lookup_total_correct _ _ _ Hy).
  rewrite insert_take_drop by done.
  rewrite <- (take_drop_middle l i y Hy) at 3.
  rewrite !fmap_app, !fmap_cons, !sumZ_app, !sumZ_cons. lia.
Qed.

Lemma positive_part_nonneg (store : list Process) :
  0 <= sumZ ((fun p => Z.max 0 (remaining_time p)) <$> store).
Proof.
  apply sumZ_nonneg, Forall_fmap, Forall_forall. intros p _. simpl. lia.
Qed.

Lemma rr_enqueue_app (queue arrivals : list nat) :
  NoDup arrivals -> (forall i, i ∈ arrivals -> i ∉ queue) ->
  rr_enqueue queue arrivals = queue ++ arrivals.
Proof.
  unfold rr_enqueue. revert queue.
  induction arrivals as [|i l IH]; intros queue Hnd Hdis; simpl.
  - by rewrite app_nil_r.
  - apply NoDup_cons in Hnd as [Hi Hnd].
    destruct (decide (i ∈ queue)) as [Hin|_].
    { exfalso. apply (Hdis i); [by left|done]. }
    rewrite IH; [by rewrite <- app_assoc|done|].
    intros j Hj Hjq. apply elem_of_app in Hjq as [Hjq|Hjq].
    + apply (Hdis j); [by right|done].
    + apply list_elem_of_singleton in Hjq. by subst.
Qed.

Lemma rr_arrivals_elem (st : rr_state) (i : nat) :
  i ∈ rr_arrivals st <->
  (i < length (rr_store st))%nat
  /\ arrival_time (rr_store st !!! i) <= rr_currentTime st
  /\ 0 < remaining_time (rr_store st !!! i)
  /\ i ∉ rr_queue st.
Proof.
  unfold rr_arrivals. rewrite list_elem_of_filter, elem_of_seq. intuition lia.
Qed.

Lemma rr_ready_app (st : rr_state) : rr_ready st = rr_queue st ++ rr_arrivals st.
Proof.
  apply rr_enqueue_app.
  - apply NoDup_filter, NoDup_seq.
  - intros i Hi. by apply rr_arrivals_elem in Hi as (_ & _ & _ & Hi).
Qed.

Lemma rr_ready_NoDup (st : rr_state) : NoDup (rr_queue st) -> NoDup (rr_ready st).
Proof.
  intros Hnd. rewrite rr_ready_app. apply NoDup_app. split; [done|]. split.
  - intros i Hi Hi'. by apply rr_arrivals_elem in Hi' as (_ & _ & _ & Hi').
  - apply NoDup_filter, NoDup_seq.
Qed.

Lemma rr_body_cases (quantum : Z) (st : rr_state) :
  (exists current rest, rr_ready st = current :: rest
      /\ rr_body quantum st = rr_dispatch quantum st current rest)
  \/ (rr_ready st = [] /\ rr_queue st = [] /\ rr_arrivals st = []
      /\ rr_body quantum st = rr_jump st []).
Proof.
  unfold rr_body. fold (rr_ready st).
  destruct (rr_ready st) as [|current rest] eqn:Hr.
  - right. rewrite rr_ready_app in Hr. apply app_eq_nil in Hr as [? ?]. done.
  - left. eauto.
Qed.

Lemma rr_cond_true (st : rr_state) :
  rr_cond st = true <->
  rr_queue st <> [] \/ exists i, (i < length (rr_store st))%nat
                          /\ 0 < remaining_time (rr_store st !!! i).
Proof.
  unfold rr_cond. rewrite bool_decide_eq_true, Exists_exists.
  split; (intros [Hq|Hex]; [by left|right]).
  - destruct Hex as (p & Hp & Hr). apply list_elem_of_lookup in Hp as [i Hi].
    exists i. split; [by eapply lookup_lt_Some|].
    by rewrite (list_lookup_total_correct _ _ _ Hi).
  - destruct Hex as (i & Hi & Hr). exists (rr_store st !!! i). split; [|done].
    apply list_elem_of_lookup. exists i. by apply list_lookup_lookup_total_lt.
Qed.

Lemma rr_cond_false (st : rr_state) :
  rr_cond st = false ->
  rr_queue st = [] /\ forall i, (i < length (rr_store st))%nat ->
                        remaining_time (rr_store st !!! i) <= 0.
Proof.
  intros Hc. split.
  - destruct (rr_queue st) eqn:Hq; [done|].
    assert (rr_cond st = true) as Ht; [|congruence].
    apply rr_cond_true. left. by rewrite Hq.
  - intros i Hi. destruct (Z_le_gt_dec (remaining_time (rr_store st !!! i)) 0); [done|].
    assert (rr_cond st = true) as Ht; [|congruence].
    apply rr_cond_true. right. exists i. split; [done|lia].
Qed.

(** The idle branch, when the loop condition holds: the clock moves
    forward to the arrival of a process that still has to run, and that
    process is picked up by the next iteration. *)
Lemma rr_jump_spec (st : rr_state) :
  rr_cond st = true -> rr_queue st = [] -> rr_arrivals st = [] ->
  exists m, (m < length (rr_store st))%nat
    /\ 0 < remaining_time (rr_store st !!! m)
    /\ rr_currentTime st < arrival_time (rr_store st !!! m)
    /\ rr_jump st [] = mkRr (rr_store st) [] (rr_timeline st)
                         (arrival_time (rr_store st !!! m)).
Proof.
  intros Hc Hq Ha. apply rr_cond_true in Hc as [Hc|(i & Hi & Hr)]; [done|].
  unfold rr_jump.
  set (later := filter _ _).
  assert (i ∈ later) as Hin.
  { unfold later. apply list_elem_of_filter. split; [|apply elem_of_seq; lia].
    split; [|done].
    destruct (Z_lt_le_dec (rr_currentTime st) (arrival_time (rr_store st !!! i)));
      [done|].
    assert (i ∈ rr_arrivals st) as Hia.
    { apply rr_arrivals_elem. rewrite Hq. split; [done|]. split; [done|].
      split; [done|apply not_elem_of_nil]. }
    rewrite Ha in Hia. by apply not_elem_of_nil in Hia. }
  destruct (Math_min _) as [a|] eqn:Hmin.
  - apply Math_min_Some in Hmin as [Hain _].
    apply list_elem_of_fmap in Hain as (m & -> & Hm).
    unfold later in Hm. apply list_elem_of_filter in Hm as [[Hm1 Hm2] Hm3].
    apply elem_of_seq in Hm3. exists m. split; [lia|]. done.
  - apply Math_min_None, fmap_nil_inv in Hmin. rewrite Hmin in Hin.
    by apply not_elem_of_nil in Hin.
Qed.

Lemma filter_none {A : Type} (Q : A -> Prop) `{!forall x, Decision (Q x)} (l : list A) :
  (forall x, x ∈ l -> ~ Q x) -> filter Q l = [].
Proof.
  induction l as [|x l IH]; intros Hall; [done|].
  rewrite filter_cons_False by (apply Hall; by left).
  apply IH. intros y Hy. apply Hall. by right.
Qed.

Lemma filter_agree {A : Type} (Q1 Q2 : A -> Prop) `{!forall x, Decision (Q1 x)}
    `{!forall x, Decision (Q2 x)} (l : list A) :
  (forall x, x ∈ l -> Q1 x <-> Q2 x) -> filter Q1 l = filter Q2 l.
Proof.
  induction l as [|x l IH]; intros Hall; [done|].
  rewrite !filter_cons.
  assert (filter Q1 l = filter Q2 l) as ->.
  { apply IH. intros y Hy. apply Hall. by right. }
  destruct (decide (Q1 x)) as [H1|H1], (decide (Q2 x)) as [H2|H2]; try done.
  - exfalso. apply H2. apply (Hall x); [by left|done].
  - exfalso. apply H1. apply (Hall x); [by left|done].
Qed.

Section RoundRobinFacts.
Variable ps : list Process.
Variable quantum : Z.

Lemma rr_ready_index (st : rr_state) (i : nat) :
  rr_inv ps st -> i ∈ rr_ready st -> (i < length ps)%nat.
Proof.
  intros (Hlen & _ & Hlt & _) Hi. rewrite rr_ready_app in Hi.
  apply elem_of_app in Hi as [Hi|Hi]; [auto|].
  apply rr_arrivals_elem in Hi as (Hi & _). lia.
Qed.

Lemma rr_inv_init : rr_inv ps (rr_init ps).
Proof.
  unfold rr_inv, rr_init. simpl. rewrite length_fmap. split; [done|].
  split; [apply NoDup_filter, NoDup_seq|].
  split.
  { intros i Hi. apply list_elem_of_filter in Hi as [_ Hi].
    apply elem_of_seq in Hi. lia. }
  intros i Hi.
  by rewrite (list_lookup_total_fmap (fun p => set_remaining p (burst_time p)) ps i Hi).
Qed.

Lemma rr_inv_body (st : rr_state) : rr_inv ps st -> rr_inv ps (rr_body quantum st).
Proof.
  intros Hinv. pose proof Hinv as (Hlen & Hnd & Hlt & Hid).
  destruct (rr_body_cases quantum st)
    as [(current & rest & Hr & ->)|(_ & Hq & Ha & ->)].
  - pose proof (rr_ready_NoDup st Hnd) as Hnd1. rewrite Hr in Hnd1.
    apply NoDup_cons in Hnd1 as [Hcur Hnd1].
    assert (Hidx : forall i, i ∈ current :: rest -> (i < length ps)%nat).
    { intros i Hi. apply (rr_ready_index st); [done|by rewrite Hr]. }
    assert (Hc : (current < length ps)%nat) by (apply Hidx; by left).
    unfold rr_dispatch. simpl.
    destruct (_ =? 0); unfold rr_inv; simpl; rewrite length_insert.
    + split; [done|]. split; [done|]. split.
      { intros i Hi. apply Hidx. by right. }
      intros i Hi. destruct (decide (i = current)) as [->|Hne].
      * rewrite list_lookup_total_insert_eq by lia. rewrite <- Hid by done. done.
      * rewrite list_lookup_total_insert_ne by done. auto.
    + split; [done|]. split.
      { apply NoDup_app. split; [done|]. split; [|apply NoDup_singleton].
        intros i Hi Hi'. apply list_elem_of_singleton in Hi'. by subst. }
      split.
      { intros i Hi. apply Hidx. apply elem_of_app in Hi as [Hi|Hi]; [by right|].
        apply list_elem_of_singleton in Hi. subst. by left. }
      intros i Hi. destruct (decide (i = current)) as [->|Hne].
      * rewrite list_lookup_total_insert_eq by lia. rewrite <- Hid by done. done.
      * rewrite list_lookup_total_insert_ne by done. auto.
  - unfold rr_jump. destruct (Math_min _); unfold rr_inv; simpl;
      (split; [done|]; split; [constructor|]; split; [|done]);
      intros i Hi; by apply not_elem_of_nil in Hi.
Qed.

Lemma rr_passes_inv (st : rr_state) :
  passes rr_cond (rr_body quantum) (rr_init ps) st -> rr_inv ps st.
Proof.
  apply (passes_invariant rr_cond (rr_body quantum) (rr_inv ps)).
  - apply rr_inv_init.
  - intros s Hs _. by apply rr_inv_body.
Qed.

(** The number of queued processes with nothing left to run is not
    changed by picking up the arrivals, which all have something left. *)
Lemma rr_spent_ready (st : rr_state) :
  filter (fun i => remaining_time (rr_store st !!! i) <= 0) (rr_queue st)
  = filter (fun i => remaining_time (rr_store st !!! i) <= 0) (rr_ready st).
Proof.
  rewrite rr_ready_app, filter_app.
  rewrite (filter_none _ (rr_arrivals st)); [by rewrite app_nil_r|].
  intros i Hi. apply rr_arrivals_elem in Hi as (_ & _ & Hr & _). lia.
Qed.

(** A remaining time that is no more than the quantum or no more than
    2^53 gets smaller by a slice. *)
Lemma slice_reduces_bounded (p : Process) :
  0 < quantum -> remaining_time p <= Z.max quantum (2 ^ 53) ->
  slice_reduces quantum p.
Proof.
  intros Hq Hle Hpos. destruct (Z.le_gt_cases (remaining_time p) quantum).
  - rewrite Z.min_r by lia. rewrite js_sub_diag. lia.
  - rewrite Z.min_l by lia. rewrite js_sub_exact; lia.
Qed.

(** With a positive quantum, a dispatch reduces the outstanding work. *)
Lemma rr_dispatch_work (st : rr_state) (current : nat) (rest : list nat) :
  rr_inv ps st -> 0 < quantum -> rr_ready st = current :: rest ->
  slice_reduces quantum (rr_store st !!! current) ->
  (rr_work (rr_dispatch quantum st current rest) < rr_work st)%nat.
Proof.
  intros Hinv Hq Hr Hred. pose proof Hinv as (Hlen & Hnd & Hlt & Hid).
  pose proof (rr_ready_NoDup st Hnd) as Hnd1. rewrite Hr in Hnd1.
  apply NoDup_cons in Hnd1 as [Hcur Hnd1].
  assert (Hc : (current < length (rr_store st))%nat).
  { rewrite Hlen. apply (rr_ready_index st); [done|]. rewrite Hr. by left. }
  unfold rr_work at 2. rewrite rr_spent_ready, Hr.
  pose proof (positive_part_nonneg (rr_store st)) as Hnn.
  unfold slice_reduces in Hred.
  set (p := rr_store st !!! current) in *.
  set (exec := Z.min quantum (remaining_time p)) in *.
  assert (Hspent : remaining_time p <= 0 -> js_sub (remaining_time p) exec = 0).
  { intros Hle. unfold exec. rewrite Z.min_r by lia. apply js_sub_diag. }
  assert (Hleft : 0 < remaining_time p -> 0 <= js_sub (remaining_time p) exec).
  { intros Hpos. apply js_sub_nonneg. unfold exec. lia. }
  set (left := js_sub (remaining_time p) exec) in *.
  assert (Hrest : forall (store' : list Process) x,
            store' = <[current := x]> (rr_store st) ->
            filter (fun i => remaining_time (store' !!! i) <= 0) rest
            = filter (fun i => remaining_time (rr_store st !!! i) <= 0) rest).
  { intros store' x ->. apply filter_agree. intros i Hi.
    rewrite list_lookup_total_insert_ne; [done|]. intros ->. done. }
  unfold rr_dispatch. fold p. fold exec. fold left.
  cbn [remaining_time set_remaining].
  destruct (Z.eqb_spec left 0) as [Hz|Hnz]; unfold rr_work;
    cbn [rr_store rr_queue].
  - rewrite (Hrest _ _ eq_refl).
    rewrite (sumZ_fmap_insert (fun p => Z.max 0 (remaining_time p))) by done.
    fold p. cbn [remaining_time set_completion set_remaining].
    pose proof (positive_part_nonneg
      (<[current := set_completion (set_remaining p left)
                      (js_add (rr_currentTime st) exec)]> (rr_store st))) as Hnn'.
    rewrite (sumZ_fmap_insert (fun p => Z.max 0 (remaining_time p))) in Hnn' by done.
    fold p in Hnn'. cbn [remaining_time set_completion set_remaining] in Hnn'.
    rewrite filter_cons. fold p.
    destruct (decide (remaining_time p <= 0)); simpl; lia.
  - rewrite filter_app, (Hrest _ _ eq_refl).
    rewrite (sumZ_fmap_insert (fun p => Z.max 0 (remaining_time p))) by done.
    fold p. cbn [remaining_time set_remaining].
    pose proof (positive_part_nonneg
      (<[current := set_remaining p left]> (rr_store st))) as Hnn'.
    rewrite (sumZ_fmap_insert (fun p => Z.max 0 (remaining_time p))) in Hnn' by done.
    fold p in Hnn'. cbn [remaining_time set_remaining] in Hnn'.
    rewrite !filter_cons, filter_nil. fold p.
    rewrite list_lookup_total_insert_eq by done. cbn [remaining_time set_remaining].
    destruct (decide (left <= 0)),
             (decide (remaining_time p <= 0)); simpl; rewrite ?length_app; simpl; lia.
Qed.

(** An idle jump leaves the outstanding work as it is, and is followed by
    an iteration that dispatches. *)
Lemma rr_jump_work (st : rr_state) :
  rr_cond st = true -> rr_queue st = [] -> rr_arrivals st = [] ->
  rr_work (rr_jump st []) = rr_work st
  /\ rr_cond (rr_jump st []) = true
  /\ rr_ready (rr_jump st []) <> []
  /\ rr_currentTime st < rr_currentTime (rr_jump st []).
Proof.
  intros Hc Hq Ha. destruct (rr_jump_spec st Hc Hq Ha) as (m & Hm & Hr & Harr & ->).
  split; [|split; [|split]].
  - unfold rr_work. simpl. by rewrite Hq.
  - apply rr_cond_true. right. exists m. done.
  - intros Hnil. rewrite rr_ready_app in Hnil. apply app_eq_nil in Hnil as [_ Hnil].
    assert (m ∈ rr_arrivals (mkRr (rr_store st) [] (rr_timeline st)
                               (arrival_time (rr_store st !!! m)))) as Hin.
    { apply rr_arrivals_elem. simpl. split; [done|]. split; [lia|].
      split; [done|apply not_elem_of_nil]. }
    rewrite Hnil in Hin. by apply not_elem_of_nil in Hin.
  - done.
Qed.

Lemma rr_mu_decreases (st : rr_state) :
  0 < quantum -> rr_inv ps st ->
  (forall i, slice_reduces quantum (rr_store st !!! i)) ->
  rr_cond st = true ->
  (rr_mu (rr_body quantum st) < rr_mu st)%nat.
Proof.
  intros Hq Hinv Hred Hc.
  destruct (rr_body_cases quantum st)
    as [(current & rest & Hr & ->)|(Hr & Hqu & Ha & ->)].
  - pose proof (rr_dispatch_work st current rest Hinv Hq Hr (Hred current)).
    unfold rr_mu. rewrite Hr. destruct (rr_ready (rr_dispatch _ _ _ _)); lia.
  - destruct (rr_jump_work st Hc Hqu Ha) as (Hw & _ & Hne & _).
    unfold rr_mu. rewrite Hr, Hw. destruct (rr_ready (rr_jump _ _)); [done|lia].
Qed.

(** No remaining time grows, so a bound on the burst times bounds the
    remaining times for good. *)
Lemma rr_body_remaining_le (st : rr_state) (bound : Z) :
  0 < quantum -> 0 <= bound ->
  (forall i, remaining_time (rr_store st !!! i) <= bound) ->
  forall i, remaining_time (rr_store (rr_body quantum st) !!! i) <= bound.
Proof.
  intros Hq Hb Hle i.
  destruct (rr_body_cases quantum st)
    as [(current & rest & Hr & ->)|(_ & _ & _ & ->)].
  - set (p := rr_store st !!! current).
    assert (Hnew : js_sub (remaining_time p) (Z.min quantum (remaining_time p)) <= bound).
    { destruct (Z.le_gt_cases (remaining_time p) 0).
      - rewrite Z.min_r by lia. rewrite js_sub_diag. done.
      - pose proof (js_sub_le (remaining_time p) (Z.min quantum (remaining_time p))
                      ltac:(lia)).
        specialize (Hle current). fold p in Hle. lia. }
    destruct (decide (i = current)) as [->|Hne];
      [|unfold rr_dispatch; fold p; destruct (_ =? 0); simpl;
        rewrite list_lookup_total_insert_ne by done; apply Hle].
    destruct (decide (current < length (rr_store st))%nat) as [Hlt|Hge].
    + unfold rr_dispatch. fold p. destruct (_ =? 0); simpl;
        rewrite list_lookup_total_insert_eq by done; simpl; exact Hnew.
    + unfold rr_dispatch. fold p. destruct (_ =? 0); simpl;
        rewrite list_insert_ge by lia; apply Hle.
  - unfold rr_jump. destruct (Math_min _); simpl; apply Hle.
Qed.

Lemma rr_loop_terminates :
  0 < quantum ->
  Forall (fun p => burst_time p <= Z.max quantum (2 ^ 53)) ps ->
  exists r, while rr_cond (rr_body quantum) (rr_mu (rr_init ps)) (rr_init ps) = Some r.
Proof.
  intros Hq Hb.
  apply (while_measure rr_cond (rr_body quantum)
           (fun s => rr_inv ps s
              /\ forall i, remaining_time (rr_store s !!! i) <= Z.max quantum (2 ^ 53))
           rr_mu).
  - intros s [Hs Hle] Hc. split.
    + split; [by apply rr_inv_body|]. apply rr_body_remaining_le; [done|lia|done].
    + apply rr_mu_decreases; [done|done| |done].
      intros i. apply slice_reduces_bounded; [done|apply Hle].
  - split; [apply rr_inv_init|]. intros i. unfold rr_init. simpl.
    destruct (decide (i < length ps)%nat) as [Hi|Hi].
    + rewrite (list_lookup_total_fmap (fun p => set_remaining p (burst_time p)) ps i Hi).
      simpl. apply (Forall_lookup_total_1 _ _ i Hb Hi).
    + rewrite list_lookup_total_alt, lookup_ge_None_2 by (rewrite length_fmap; lia).
      simpl. lia.
Qed.

End RoundRobinFacts.

Section RoundRobinOrder.
Variable ps : list Process.
Variable quantum : Z.
Hypothesis Hbursts : Forall (fun p => 0 < burst_time p) ps.
Hypothesis Hquantum : 0 < quantum.

Lemma rr_order_init : rr_order ps (rr_init ps).
Proof.
  unfold rr_order, rr_init. simpl. split; [done|]. intros i Hi.
  rewrite (list_lookup_total_fmap (fun p => set_remaining p (burst_time p)) ps i Hi).
  simpl. pose proof (Forall_lookup_total_1 _ _ i Hbursts Hi) as Hb. simpl in Hb.
  split; [lia|]. intros Hin.
  apply list_elem_of_filter in Hin as [Hin _].
  rewrite (list_lookup_total_fmap (fun p => set_remaining p (burst_time p)) ps i Hi)
    in Hin.
  simpl in Hin. lia.
Qed.

(** A process that is ready has arrived and has time left to run. *)
Lemma rr_ready_order (st : rr_state) (i : nat) :
  rr_inv ps st -> rr_order ps st -> i ∈ rr_ready st ->
  arrival_time (rr_store st !!! i) <= rr_currentTime st
  /\ 0 < remaining_time (rr_store st !!! i).
Proof.
  intros Hinv (_ & Hord) Hi.
  pose proof (rr_ready_index ps st i Hinv Hi) as Hlt.
  destruct (Hord i Hlt) as (_ & Hq). simpl in Hq.
  rewrite rr_ready_app in Hi. apply elem_of_app in Hi as [Hi|Hi]; [by auto|].
  by apply rr_arrivals_elem in Hi as (_ & Harr & Hrem & _).
Qed.

Lemma rr_order_body (st : rr_state) :
  rr_inv ps st -> rr_order ps st -> rr_cond st = true ->
  rr_order ps (rr_body quantum st).
Proof.
  intros Hinv Hord Hc. pose proof Hinv as (Hlen & Hnd & Hlt & Hid).
  pose proof Hord as (Hnow & Hper).
  destruct (rr_body_cases quantum st)
    as [(current & rest & Hr & ->)|(_ & Hq & Ha & ->)].
  - pose proof (rr_ready_NoDup st Hnd) as Hnd1. rewrite Hr in Hnd1.
    apply NoDup_cons in Hnd1 as [Hcur Hnd1].
    assert (Hc' : (current < length ps)%nat).
    { apply (rr_ready_index ps st); [done|]. rewrite Hr. by left. }
    assert (Hready : forall i, i ∈ current :: rest ->
              arrival_time (rr_store st !!! i) <= rr_currentTime st
              /\ 0 < remaining_time (rr_store st !!! i)).
    { intros i Hi. apply (rr_ready_order st i Hinv Hord). by rewrite Hr. }
    destruct (Hready current (list_elem_of_here _ _)) as [Harr Hpos].
    destruct (Hper current Hc') as (Hrange & _). simpl in Hrange.
    unfold rr_dispatch.
    set (p := rr_store st !!! current) in *.
    set (exec := Z.min quantum (remaining_time p)).
    assert (Hexec : 0 < exec <= remaining_time p) by (unfold exec; lia).
    pose proof (js_add_ge (rr_currentTime st) exec ltac:(lia)) as Hclock.
    pose proof (js_sub_nonneg (remaining_time p) exec ltac:(lia)) as Hleft0.
    pose proof (js_sub_le (remaining_time p) exec ltac:(lia)) as Hleft1.
    set (now' := js_add (rr_currentTime st) exec) in *.
    set (left := js_sub (remaining_time p) exec) in *.
    cbn [remaining_time set_remaining].
    destruct (Z.eqb_spec left 0) as [Hz|Hnz]; unfold rr_order;
      cbn [rr_store rr_queue rr_currentTime].
    + split; [lia|]. intros i Hi. destruct (decide (i = current)) as [->|Hne].
      * rewrite list_lookup_total_insert_eq by lia. simpl.
        split; [lia|]. intros Hin. done.
      * rewrite list_lookup_total_insert_ne by done.
        destruct (Hper i Hi) as (H1 & _). split; [done|].
        intros Hin. destruct (Hready i (list_elem_of_further _ _ _ Hin)). lia.
    + split; [lia|]. intros i Hi. destruct (decide (i = current)) as [->|Hne].
      * rewrite list_lookup_total_insert_eq by lia. simpl.
        split; [lia|]. intros _. fold p. lia.
      * rewrite list_lookup_total_insert_ne by done.
        destruct (Hper i Hi) as (H1 & _). split; [done|].
        intros Hin. apply elem_of_app in Hin as [Hin|Hin].
        -- destruct (Hready i (list_elem_of_further _ _ _ Hin)). lia.
        -- apply list_elem_of_singleton in Hin. done.
  - destruct (rr_jump_spec st Hc Hq Ha) as (m & Hm & Hr & Harr & ->).
    unfold rr_order. simpl. split; [lia|].
    intros i Hi. destruct (Hper i Hi) as (H1 & _). split; [done|].
    intros Hin. by apply not_elem_of_nil in Hin.
Qed.

Lemma rr_passes_order (st : rr_state) :
  passes rr_cond (rr_body quantum) (rr_init ps) st ->
  rr_inv ps st /\ rr_order ps st.
Proof.
  apply (passes_invariant rr_cond (rr_body quantum)
           (fun s => rr_inv ps s /\ rr_order ps s)).
  - split; [apply rr_inv_init|apply rr_order_init].
  - intros s [Hi Ha] Hc. split; [by apply rr_inv_body|by apply rr_order_body].
Qed.

End RoundRobinOrder.

Lemma sumZ_lookup_le (l : list Z) (i : nat) :
  Forall (fun z => 0 <= z) l -> (i < length l)%nat -> l !!! i <= sumZ l.
Proof.
  intros Hl. revert i. induction Hl as [|x l Hx Hl IH]; intros i Hi; simpl in Hi.
  - lia.
  - rewrite sumZ_cons. pose proof (sumZ_nonneg l Hl). destruct i as [|i].
    + simpl. lia.
    + change ((x :: l) !!! S i) with (l !!! i). specialize (IH i ltac:(lia)). lia.
Qed.

Section RoundRobinAccounting.
Variable ps : list Process.
Variable quantum : Z.
Hypothesis Hbursts : Forall (fun p => 0 < burst_time p) ps.
Hypothesis Hquantum : 0 < quantum.
Hypothesis Hrange : exact_range ps.

Lemma rr_accounting_init : rr_accounting ps (rr_init ps).
Proof.
  unfold rr_accounting, rr_init. simpl.
  pose proof (latest_arrival_nonneg ps) as Hlate.
  split; [|split; [|split; [constructor|unfold sumZ; simpl; lia]]].
  - intros i Hi.
    rewrite (list_lookup_total_fmap (fun p => set_remaining p (burst_time p)) ps i Hi).
    simpl. pose proof (Forall_lookup_total_1 _ _ i Hbursts Hi) as Hb. simpl in Hb.
    split; [lia|]. split; [|lia].
    intros [Hin|Hlt]; [|lia].
    apply list_elem_of_filter in Hin as [Hin _].
    rewrite (list_lookup_total_fmap (fun p => set_remaining p (burst_time p)) ps i Hi)
      in Hin.
    simpl in Hin. lia.
  - rewrite <- list_fmap_compose. unfold sumZ at 1. simpl. done.
Qed.

(** A process that is ready has arrived, and has run only since. *)
Lemma rr_ready_arrived (st : rr_state) (i : nat) :
  rr_inv ps st -> rr_accounting ps st -> i ∈ rr_ready st ->
  let p := rr_store st !!! i in
  arrival_time p + (burst_time p - remaining_time p) <= rr_currentTime st.
Proof.
  intros Hinv (Hacc & _) Hi. pose proof Hinv as (Hlen & _).
  pose proof (rr_ready_index ps st i Hinv Hi) as Hlt.
  destruct (Hacc i Hlt) as (Hrange' & Hrun & _). simpl in *.
  rewrite rr_ready_app in Hi. apply elem_of_app in Hi as [Hi|Hi]; [by auto|].
  apply rr_arrivals_elem in Hi as (_ & Harr & _ & _).
  destruct (decide (remaining_time (rr_store st !!! i) < burst_time (rr_store st !!! i)));
    [by auto|lia].
Qed.

Lemma rr_accounting_body (st : rr_state) :
  rr_inv ps st -> rr_accounting ps st -> rr_cond st = true ->
  rr_accounting ps (rr_body quantum st).
Proof.
  intros Hinv Hacc Hc. pose proof Hinv as (Hlen & Hnd & Hlt & Hid).
  pose proof Hacc as (Hper & Hsum & Hcons & Hclock & Hdur).
  unfold exact_range in Hrange. pose proof (latest_arrival_nonneg ps) as Hlate.
  destruct (rr_body_cases quantum st)
    as [(current & rest & Hr & ->)|(_ & Hq & Ha & ->)].
  - pose proof (rr_ready_NoDup st Hnd) as Hnd1. rewrite Hr in Hnd1.
    apply NoDup_cons in Hnd1 as [Hcur Hnd1].
    assert (Hc' : (current < length ps)%nat).
    { apply (rr_ready_index ps st); [done|]. rewrite Hr. by left. }
    assert (Harrived : forall i, i ∈ current :: rest ->
              arrival_time (rr_store st !!! i)
              + (burst_time (rr_store st !!! i) - remaining_time (rr_store st !!! i))
              <= rr_currentTime st).
    { intros i Hi. apply (rr_ready_arrived st i Hinv Hacc). by rewrite Hr. }
    pose proof (Harrived current (list_elem_of_here _ _)) as Hcurrent.
    destruct (Hper current Hc') as (Hrange' & _ & _). simpl in Hrange'.
    assert (Hshare : remaining_time (rr_store st !!! current)
                     <= sumZ (remaining_time <$> rr_store st)).
    { rewrite <- (list_lookup_total_fmap remaining_time (rr_store st) current)
        by lia.
      apply sumZ_lookup_le; [|rewrite length_fmap; lia].
      apply Forall_fmap. apply (Forall_lookup_total_2 _ (rr_store st)).
      intros i Hi. rewrite Hlen in Hi. destruct (Hper i Hi) as (H1 & _).
      simpl in H1. simpl. lia. }
    unfold rr_dispatch.
    set (p := rr_store st !!! current) in *.
    set (exec := Z.min quantum (remaining_time p)).
    assert (Hexec : 0 <= exec <= remaining_time p) by (unfold exec; lia).
    rewrite (js_add_exact (rr_currentTime st) exec) by lia.
    rewrite (js_sub_exact (remaining_time p) exec) by lia.
    simpl.
    destruct (Z.eqb_spec (remaining_time p - exec) 0) as [Hz|Hnz];
      unfold rr_accounting; simpl.
    + split; [|split; [|split; [|split]]].
      * intros i Hi. destruct (decide (i = current)) as [->|Hne].
        -- rewrite list_lookup_total_insert_eq by lia. simpl.
           split; [lia|]. split; [lia|]. intros _ Harr0.
           apply (set_completion_ok (set_remaining p (remaining_time p - exec)));
             simpl; lia.
        -- rewrite list_lookup_total_insert_ne by done.
           destruct (Hper i Hi) as (H1 & H2 & H3). simpl in *.
           split; [done|]. split; [|done].
           intros [Hin|Hrun].
           ++ pose proof (Harrived i (list_elem_of_further _ _ _ Hin)). lia.
           ++ specialize (H2 (or_intror Hrun)). lia.
      * rewrite sumZ_fmap_snoc.
        rewrite (sumZ_fmap_insert remaining_time) by lia. fold p. simpl. lia.
      * apply Forall_app. split; [done|]. constructor; [|constructor].
        unfold seg_consistent. simpl. done.
      * rewrite sumZ_fmap_snoc. simpl. lia.
      * rewrite sumZ_fmap_snoc. simpl. lia.
    + split; [|split; [|split; [|split]]].
      * intros i Hi. destruct (decide (i = current)) as [->|Hne].
        -- rewrite list_lookup_total_insert_eq by lia. simpl.
           split; [lia|]. split; [lia|]. intros Hzero. lia.
        -- rewrite list_lookup_total_insert_ne by done.
           destruct (Hper i Hi) as (H1 & H2 & H3). simpl in *.
           split; [done|]. split; [|done].
           intros [Hin|Hrun].
           ++ apply elem_of_app in Hin as [Hin|Hin].
              ** pose proof (Harrived i (list_elem_of_further _ _ _ Hin)). lia.
              ** apply list_elem_of_singleton in Hin. done.
           ++ specialize (H2 (or_intror Hrun)). lia.
      * rewrite sumZ_fmap_snoc.
        rewrite (sumZ_fmap_insert remaining_time) by lia. fold p. simpl. lia.
      * apply Forall_app. split; [done|]. constructor; [|constructor].
        unfold seg_consistent. simpl. done.
      * rewrite sumZ_fmap_snoc. simpl. lia.
      * rewrite sumZ_fmap_snoc. simpl. lia.
  - destruct (rr_jump_spec st Hc Hq Ha) as (m & Hm & Hr & Harr & ->).
    unfold rr_accounting. simpl. split; [|split; [done|split; [done|split; [|done]]]].
    + intros i Hi. destruct (Hper i Hi) as (H1 & H2 & H3). simpl in *.
      split; [done|]. split; [|done].
      intros [Hin|Hrun]; [by apply not_elem_of_nil in Hin|].
      specialize (H2 (or_intror Hrun)). lia.
    + rewrite Hlen in Hm. pose proof (Hid m Hm) as Hident.
      unfold identity_of in Hident. injection Hident as _ Hsame _ _.
      pose proof (latest_arrival_lookup ps m Hm). lia.
Qed.

Lemma rr_passes_accounting (st : rr_state) :
  passes rr_cond (rr_body quantum) (rr_init ps) st ->
  rr_inv ps st /\ rr_accounting ps st.
Proof.
  apply (passes_invariant rr_cond (rr_body quantum)
           (fun s => rr_inv ps s /\ rr_accounting ps s)).
  - split; [apply rr_inv_init|apply rr_accounting_init].
  - intros s [Hi Ha] Hc. split; [by apply rr_inv_body|by apply rr_accounting_body].
Qed.

Lemma exact_range_bursts : Forall (fun p => burst_time p <= Z.max quantum (2 ^ 53)) ps.
Proof.
  apply Forall_forall. intros p Hp. apply list_elem_of_lookup in Hp as [i Hi].
  pose proof (lookup_lt_Some _ _ _ Hi) as Hlt.
  assert (Hnn : Forall (fun z => 0 <= z) (burst_time <$> ps)).
  { apply Forall_fmap. eapply Forall_impl; [exact Hbursts|]. simpl. intros. lia. }
  pose proof (sumZ_lookup_le (burst_time <$> ps) i Hnn) as Hle.
  rewrite length_fmap in Hle. specialize (Hle Hlt).
  rewrite (list_lookup_total_fmap burst_time ps i Hlt) in Hle.
  rewrite (list_lookup_total_correct _ _ _ Hi) in Hle.
  pose proof (latest_arrival_nonneg ps). unfold exact_range in Hrange. lia.
Qed.

(** With positive bursts and a positive quantum, in the exact range, round
    robin returns, every process completed with result fields that obey
    the data-model invariant, and the segments add up to the bursts. *)
Lemma rr_scheduling_result :
  exists r, returns (fun fuel => roundRobinScheduling fuel ps quantum) r
    /\ identity_of <$> processes r = identity_of <$> ps
    /\ Forall (fun p => 0 <= arrival_time p -> completed_ok p) (processes r)
    /\ sumZ (seg_duration <$> timeline r) = sumZ (burst_time <$> ps)
    /\ Forall seg_consistent (timeline r).
Proof.
  destruct (rr_loop_terminates ps quantum Hquantum exact_range_bursts) as [st Hst].
  exists (rr_finish st). split.
  { exists (rr_mu (rr_init ps)). unfold roundRobinScheduling. by rewrite Hst. }
  apply while_passes with (s0 := rr_init ps) in Hst as [Hp Hc]; [|constructor].
  apply rr_passes_accounting in Hp
    as [(Hlen & Hnd & Hlt & Hid) (Hper & Hsum & Hcons & _)].
  apply rr_cond_false in Hc as [Hq Hrem]. rewrite Hlen in Hrem.
  assert (Hzero : forall i, (i < length ps)%nat ->
            remaining_time (rr_store st !!! i) = 0).
  { intros i Hi. destruct (Hper i Hi) as (H1 & _). specialize (Hrem i Hi).
    simpl in H1. lia. }
  unfold rr_finish. simpl. split; [|split; [|split]].
  - rewrite (fmap_via_indices identity_of (rr_store st)),
      (fmap_via_indices identity_of ps), Hlen.
    apply list_fmap_ext. intros k i Hi%list_elem_of_lookup_2.
    apply elem_of_seq in Hi. apply Hid. lia.
  - apply (Forall_lookup_total_2 _ (rr_store st)).
    intros i Hi. rewrite Hlen in Hi.
    destruct (Hper i Hi) as (_ & _ & H3). apply H3. by apply Hzero.
  - rewrite <- Hsum.
    assert (sumZ (remaining_time <$> rr_store st) = 0) as ->; [|lia].
    rewrite (fmap_via_indices remaining_time (rr_store st)), Hlen.
    assert ((fun i => remaining_time (rr_store st !!! i)) <$> seq 0 (length ps)
            = (fun _ => 0) <$> seq 0 (length ps)) as ->.
    { apply list_fmap_ext. intros k i Hi%list_elem_of_lookup_2.
      apply elem_of_seq in Hi. apply Hzero. lia. }
    generalize (seq 0 (length ps)). intros l. induction l; [done|].
    rewrite fmap_cons, sumZ_cons, IHl. done.
  - done.
Qed.

End RoundRobinAccounting.

(** ** FCFS results *)

Lemma run_in_order_durations (l : list Process) (now : Z) :
  seg_duration <$> run_in_order now l = burst_time <$> l.
Proof. revert now. induction l as [|p l IH]; intros now; simpl; [done|]. by rewrite IH. Qed.

(** In the exact range every segment of a run in order ends its duration
    after its start, and every process that did not arrive before time 0
    gets result fields that obey the data-model invariant. *)
Lemma run_in_order_exact (l : list Process) (now latest : Z) :
  0 <= now -> Forall (fun p => 0 <= burst_time p) l ->
  Forall (fun p => arrival_time p <= latest) l ->
  Z.max now latest + sumZ (burst_time <$> l) <= 2 ^ 53 ->
  Forall seg_consistent (run_in_order now l)
  /\ Forall (fun p => 0 <= arrival_time p -> completed_ok p)
       (zip_with (fun p seg => set_completion p (seg_end seg)) l (run_in_order now l)).
Proof.
  revert now. induction l as [|p l IH]; intros now Hnow Hb Ha Hsum.
  { split; constructor. }
  apply Forall_cons in Hb as [Hbp Hb]. apply Forall_cons in Ha as [Hap Ha].
  rewrite fmap_cons, sumZ_cons in Hsum.
  pose proof (sumZ_nonneg (burst_time <$> l)) as Hnn.
  assert (0 <= sumZ (burst_time <$> l)) by (apply Hnn; by apply Forall_fmap).
  simpl.
  assert (Hadd : js_add (Z.max now (arrival_time p)) (burst_time p)
                 = Z.max now (arrival_time p) + burst_time p)
    by (apply js_add_exact; lia).
  rewrite Hadd.
  destruct (IH (Z.max now (arrival_time p) + burst_time p)) as [IH1 IH2];
    [lia|done|done|lia|].
  split; constructor; try done.
  cbn [arrival_time set_completion]. intros Harr. apply set_completion_ok; lia.
Qed.

Lemma run_in_order_identity (l : list Process) (now : Z) :
  identity_of <$> zip_with (fun p seg => set_completion p (seg_end seg)) l
                    (run_in_order now l)
  = identity_of <$> l.
Proof.
  revert now. induction l as [|p l IH]; intros now; simpl; [done|]. by rewrite IH.
Qed.

(** In the exact range FCFS completes every process, with result fields
    that obey the data-model invariant and one segment per process that
    lasts for its burst. *)
Lemma fcfs_scheduling_result (ps : list Process) :
  Forall (fun p => 0 <= burst_time p) ps -> exact_range ps ->
  let r := fcfsScheduling ps in
  identity_of <$> processes r ≡ₚ identity_of <$> ps
  /\ Forall (fun p => 0 <= arrival_time p -> completed_ok p) (processes r)
  /\ sumZ (seg_duration <$> timeline r) = sumZ (burst_time <$> ps)
  /\ Forall seg_consistent (timeline r).
Proof.
  intros Hb Hrange.
  destruct (fcfs_schedule_shape ps) as (Hperm & Htl & Hpr).
  cbv zeta. rewrite Hpr, Htl.
  pose proof (latest_arrival_nonneg ps) as Hlate.
  destruct (run_in_order_exact (Array_sort fcfs_compare ps) 0 (latest_arrival ps))
    as [Hcons Hok].
  { done. }
  { by rewrite Hperm. }
  { apply Forall_forall. intros p Hp. apply latest_arrival_ge. by rewrite <- Hperm. }
  { rewrite Z.max_r by done. unfold exact_range in Hrange.
    by rewrite (sumZ_perm _ (burst_time <$> ps)) by (by rewrite Hperm). }
  split; [|split; [|split]].
  - rewrite run_in_order_identity. by rewrite Hperm.
  - done.
  - rewrite run_in_order_durations. apply sumZ_perm. by rewrite Hperm.
  - done.
Qed.

(** ** The data-model invariant and the busy time, for the four functions *)

Lemma positive_bursts_nonneg (ps : list Process) :
  Forall (fun p => 0 < burst_time p) ps -> Forall (fun p => 0 <= burst_time p) ps.
Proof. intros H. eapply Forall_impl; [exact H|]. intros p Hp. simpl in Hp. lia. Qed.

Lemma completed_ok_all (ps : list Process) (l : list Process) :
  Forall (fun p => 0 <= arrival_time p) ps ->
  identity_of <$> l ≡ₚ identity_of <$> ps ->
  Forall (fun p => 0 <= arrival_time p -> completed_ok p) l ->
  Forall completed_ok l.
Proof.
  intros Ha Hperm Hok. apply Forall_forall. intros p Hp.
  rewrite Forall_forall in Hok. apply (Hok p Hp).
  assert (Hin : identity_of p ∈ identity_of <$> ps).
  { rewrite <- Hperm. apply list_elem_of_fmap. by exists p. }
  apply list_elem_of_fmap in Hin as (q & Hq & Hqin).
  rewrite Forall_forall in Ha. specialize (Ha q Hqin).
  unfold identity_of in Hq. injection Hq as _ -> _ _. done.
Qed.

(** C4, as amended.  When every arrival time is non-negative, every burst
    time is positive, the quantum is positive, and the latest arrival time
    plus the sum of the burst times is at most 2^53, each of the four
    scheduling functions returns, the processes it hands to the statistics are the
    input processes, and every one of them is completed with
    completion_time >= arrival_time + burst_time,
    turnaround_time = completion_time - arrival_time,
    waiting_time = turnaround_time - burst_time and waiting_time >= 0. *)
Theorem completed_processes_obey_invariant (ps : list Process) (quantum : Z) :
  Forall (fun p => 0 <= arrival_time p) ps ->
  Forall (fun p => 0 < burst_time p) ps ->
  0 < quantum ->
  exact_range ps ->
  (identity_of <$> processes (fcfsScheduling ps) ≡ₚ identity_of <$> ps
   /\ Forall completed_ok (processes (fcfsScheduling ps)))
  /\ (exists r, returns (fun fuel => sjfScheduling fuel ps) r
        /\ identity_of <$> processes r ≡ₚ identity_of <$> ps
        /\ Forall completed_ok (processes r))
  /\ (exists r, returns (fun fuel => roundRobinScheduling fuel ps quantum) r
        /\ identity_of <$> processes r ≡ₚ identity_of <$> ps
        /\ Forall completed_ok (processes r))
  /\ (exists r, returns (fun fuel => priorityScheduling fuel ps) r
        /\ identity_of <$> processes r ≡ₚ identity_of <$> ps
        /\ Forall completed_ok (processes r)).
Proof.
  intros Ha Hb Hq Hrange. pose proof (positive_bursts_nonneg ps Hb) as Hnn.
  split; [|split; [|split]].
  - destruct (fcfs_scheduling_result ps Hnn Hrange) as (H1 & H2 & _).
    split; [done|]. by apply (completed_ok_all ps).
  - destruct (np_scheduling_result burst_time ps Hnn Hrange) as (r & Hr & H1 & H2 & _).
    exists r. split; [done|]. split; [done|]. by apply (completed_ok_all ps).
  - destruct (rr_scheduling_result ps quantum Hb Hq Hrange) as (r & Hr & H1 & H2 & _).
    exists r. split; [done|]. split; [by rewrite H1|].
    apply (completed_ok_all ps); [done|by rewrite H1|done].
  - destruct (np_scheduling_result priority ps Hnn Hrange) as (r & Hr & H1 & H2 & _).
    exists r. split; [done|]. split; [done|]. by apply (completed_ok_all ps).
Qed.


(** ** Round robin and the quantum *)

Lemma rr_body_timeline (quantum : Z) (st : rr_state) :
  match rr_ready st with
  | current :: rest =>
      let p := rr_store st !!! current in
      let now := rr_currentTime st in
      let d := Z.min quantum (remaining_time p) in
      rr_timeline (rr_body quantum st)
      = rr_timeline st ++ [mkSegment (pid p) now (js_add now d) d]
  | [] => rr_timeline (rr_body quantum st) = rr_timeline st
  end.
Proof.
  destruct (rr_body_cases quantum st)
    as [(current & rest & Hr & ->)|(Hr & _ & _ & ->)]; rewrite Hr.
  - unfold rr_dispatch. simpl. by destruct (_ =? 0).
  - unfold rr_jump. by destruct (Math_min _).
Qed.

Lemma rr_dispatch_remaining (ps : list Process) (quantum : Z) (st : rr_state)
    (current : nat) (rest : list nat) :
  rr_inv ps st -> rr_ready st = current :: rest ->
  let p := rr_store st !!! current in
  let p' := rr_store (rr_body quantum st) !!! current in
  remaining_time p' = js_sub (remaining_time p) (Z.min quantum (remaining_time p))
  /\ (remaining_time p' = 0 ->
      completion_time p'
      = Some (js_add (rr_currentTime st) (Z.min quantum (remaining_time p)))
      /\ current ∉ rr_queue (rr_body quantum st)).
Proof.
  intros Hinv Hr. pose proof Hinv as (Hlen & Hnd & _).
  assert (Hc : (current < length (rr_store st))%nat).
  { rewrite Hlen. apply (rr_ready_index ps st); [done|]. rewrite Hr. by left. }
  pose proof (rr_ready_NoDup st Hnd) as Hnd1. rewrite Hr in Hnd1.
  apply NoDup_cons in Hnd1 as [Hcur _].
  unfold rr_body. fold (rr_ready st). rewrite Hr. unfold rr_dispatch.
  cbn [remaining_time set_remaining].
  destruct (Z.eqb_spec (js_sub (remaining_time (rr_store st !!! current))
                          (Z.min quantum (remaining_time (rr_store st !!! current)))) 0)
    as [Hz|Hnz]; cbn [rr_store rr_queue];
    rewrite list_lookup_total_insert_eq by done; simpl.
  - done.
  - split; [done|]. intros Hzero. done.
Qed.

Lemma rr_passes_within_quantum (ps : list Process) (quantum : Z) (st : rr_state) :
  passes rr_cond (rr_body quantum) (rr_init ps) st ->
  Forall (fun s => seg_duration s <= quantum) (rr_timeline st).
Proof.
  apply (passes_invariant rr_cond (rr_body quantum)
           (fun s => Forall (fun s => seg_duration s <= quantum) (rr_timeline s))).
  - constructor.
  - intros s Hs _. pose proof (rr_body_timeline quantum s) as Ht.
    destruct (rr_ready s); simpl in Ht; rewrite Ht; [done|].
    apply Forall_app. split; [done|]. constructor; [simpl; lia|constructor].
Qed.

(** C3.  For a positive quantum no segment of a timeline that round robin
    returns lasts longer than the quantum, and round robin does return
    when no burst time exceeds 2^53.  At every dispatch (a state at the
    top of the loop whose queue, after the arrivals were picked up, starts
    with [current]) the segment added lasts min(quantum, remaining time)
    of the dispatched process, that much is taken off its remaining time,
    and a segment shorter than the quantum is the last one of its process:
    the process is completed at the end of the segment and leaves the
    queue. *)
Theorem round_robin_segments_within_quantum (ps : list Process) (quantum : Z) :
  0 < quantum ->
  (forall fuel r, roundRobinScheduling fuel ps quantum = Some r ->
     Forall (fun s => seg_duration s <= quantum) (timeline r))
  /\ (Forall (fun p => burst_time p <= 2 ^ 53) ps ->
      exists r, returns (fun fuel => roundRobinScheduling fuel ps quantum) r
        /\ Forall (fun s => seg_duration s <= quantum) (timeline r))
  /\ (forall (st : rr_state) (current : nat) (rest : list nat),
        passes rr_cond (rr_body quantum) (rr_init ps) st ->
        rr_cond st = true ->
        rr_ready st = current :: rest ->
        let p := rr_store st !!! current in
        let now := rr_currentTime st in
        let d := Z.min quantum (remaining_time p) in
        let st' := rr_body quantum st in
        rr_timeline st' = rr_timeline st ++ [mkSegment (pid p) now (js_add now d) d]
        /\ remaining_time (rr_store st' !!! current) = js_sub (remaining_time p) d
        /\ (d < quantum ->
            remaining_time (rr_store st' !!! current) = 0
            /\ completion_time (rr_store st' !!! current) = Some (js_add now d)
            /\ current ∉ rr_queue st')).
Proof.
  intros Hq.
  assert (Hsafe : forall fuel r, roundRobinScheduling fuel ps quantum = Some r ->
            Forall (fun s => seg_duration s <= quantum) (timeline r)).
  { intros fuel r Hr. unfold roundRobinScheduling in Hr.
    destruct (while _ _ _ _) as [st|] eqn:Hst; [|done]. injection Hr as <-.
    apply while_passes with (s0 := rr_init ps) in Hst as [Hp _]; [|constructor].
    by apply (rr_passes_within_quantum ps). }
  split; [exact Hsafe|]. split.
  - intros Hb.
    destruct (rr_loop_terminates ps quantum Hq) as [st Hst].
    { eapply Forall_impl; [exact Hb|]. intros p Hp. simpl in Hp. lia. }
    exists (rr_finish st).
    assert (Hr : roundRobinScheduling (rr_mu (rr_init ps)) ps quantum
                 = Some (rr_finish st))
      by (unfold roundRobinScheduling; by rewrite Hst).
    split; [by eexists|]. by apply (Hsafe _ _ Hr).
  - intros st current rest Hp Hc Hr.
    pose proof (rr_passes_inv ps quantum st Hp) as Hinv.
    pose proof (rr_body_timeline quantum st) as Ht. rewrite Hr in Ht.
    destruct (rr_dispatch_remaining ps quantum st current rest Hinv Hr) as [Hrem Hfin].
    cbv zeta in *. split; [done|]. split; [done|].
    intros Hshort.
    assert (remaining_time (rr_store (rr_body quantum st) !!! current) = 0) as Hz.
    { rewrite Hrem. rewrite Z.min_r by lia. apply js_sub_diag. }
    split; [done|]. by apply Hfin.
Qed.

Lemma bounded_bursts_tie_example :
  Forall (fun p => burst_time p <= 2 ^ 53) tie_example.
Proof. unfold tie_example. repeat (apply Forall_cons_2; [simpl; lia|]). apply Forall_nil_2. Qed.

Lemma round_robin_segments_within_quantum_witness :
  let ps := tie_example in
  let quantum := 2 in
  0 < quantum
  /\ (exists r, returns (fun fuel => roundRobinScheduling fuel ps quantum) r
        /\ Forall (fun s => seg_duration s <= quantum) (timeline r)).
Proof.
  intros ps quantum.
  assert (Hq : 0 < quantum) by (unfold quantum; lia).
  split; [exact Hq|].
  exact (proj1 (proj2 (round_robin_segments_within_quantum ps quantum Hq))
           bounded_bursts_tie_example).
Defined.

Lemma positive_bursts_tie_example : Forall (fun p => 0 < burst_time p) tie_example.
Proof. unfold tie_example. repeat (apply Forall_cons_2; [simpl; lia|]). apply Forall_nil_2. Qed.

Lemma arrivals_tie_example : Forall (fun p => 0 <= arrival_time p) tie_example.
Proof. unfold tie_example. repeat (apply Forall_cons_2; [simpl; lia|]). apply Forall_nil_2. Qed.

Lemma exact_range_tie_example : exact_range tie_example.
Proof. unfold exact_range. vm_compute. discriminate. Qed.

Lemma completed_processes_obey_invariant_witness :
  let ps := tie_example in
  Forall (fun p => 0 <= arrival_time p) ps
  /\ Forall (fun p => 0 < burst_time p) ps
  /\ 0 < 2
  /\ exact_range ps
  /\ exists r, returns (fun fuel => roundRobinScheduling fuel ps 2) r
       /\ identity_of <$> processes r ≡ₚ identity_of <$> ps
       /\ Forall completed_ok (processes r).
Proof.
  intros ps.
  assert (Hq : 0 < 2) by lia.
  split; [exact arrivals_tie_example|].
  split; [exact positive_bursts_tie_example|].
  split; [exact Hq|].
  split; [exact exact_range_tie_example|].
  exact (proj1 (proj2 (proj2
    (completed_processes_obey_invariant ps 2 arrivals_tie_example
       positive_bursts_tie_example Hq exact_range_tie_example)))).
Defined.


(** ** Termination *)

Lemma np_run_progress (key : Process -> Z) (st : np_state) :
  np_cond st = true -> np_available st <> [] ->
  (np_work (np_body key st) < np_work st)%nat.
Proof.
  intros Hc Hne. destruct (np_body_cases key st) as [(sel & _ & _ & ->)|[Hnil _]]; [|done].
  unfold np_cond in Hc. apply Nat.ltb_lt in Hc.
  unfold np_work, np_run. simpl. rewrite length_insert, length_app. simpl. lia.
Qed.

Lemma np_idle_progress (key : Process -> Z) (st : np_state) :
  np_cond st = true -> np_available st = [] ->
  np_work (np_body key st) = np_work st
  /\ np_completed (np_body key st) = np_completed st
  /\ np_cond (np_body key st) = true
  /\ np_available (np_body key st) <> [].
Proof.
  intros Hc Hnil. destruct (np_body_cases key st) as [(sel & _ & Hne & _)|[_ ->]]; [done|].
  destruct (np_jump_spec st Hc) as (m & Hm & Hle & ->).
  split; [done|]. split; [done|]. split; [done|].
  intros Hav. apply np_pending_elem in Hm as [Hlt Hn].
  assert (m ∈ np_available
            (mkNp (np_store st) (np_completed st) (np_timeline st)
               (arrival_time (np_store st !!! m)))) as Hin.
  { apply np_available_elem. simpl. split; [done|]. split; [lia|done]. }
  rewrite Hav in Hin. by apply not_elem_of_nil in Hin.
Qed.

(** With quantum 0 the only process of [one_unit] is dispatched for no
    time at all, over and over. *)
Lemma rr_zero_quantum_spins (fuel : nat) (tl : list Segment) :
  while rr_cond (rr_body 0) fuel (mkRr one_unit [0%nat] tl 0) = None.
Proof.
  revert tl. induction fuel as [|fuel IH]; intros tl; [reflexivity|].
  rewrite while_succ.
  change (rr_cond (mkRr one_unit [0%nat] tl 0)) with true. cbv iota.
  change (rr_body 0 (mkRr one_unit [0%nat] tl 0))
    with (mkRr one_unit [0%nat] (tl ++ [mkSegment 1 0 0 0]) 0).
  apply IH.
Qed.

(** With quantum -1 every dispatch of that process adds a time unit to its
    remaining time. *)
Lemma rr_negative_quantum_step (r t : Z) (tl : list Segment) :
  1 <= r ->
  rr_body (-1) (mkRr [mkProcess 1 0 1 1 r None None None] [0%nat] tl t)
  = mkRr [mkProcess 1 0 1 1 (js_sub r (-1)) None None None] [0%nat]
      (tl ++ [mkSegment 1 t (js_add t (-1)) (-1)]) (js_add t (-1)).
Proof.
  intros Hr. unfold rr_body.
  assert (rr_arrivals (mkRr [mkProcess 1 0 1 1 r None None None] [0%nat] tl t) = [])
    as ->.
  { apply filter_none. intros i Hi (_ & _ & Hn). simpl in Hn.
    apply elem_of_seq in Hi. simpl in Hi. apply Hn.
    apply list_elem_of_singleton. lia. }
  pose proof (js_sub_ge r (-1) ltac:(lia)) as Hge.
  cbn [rr_enqueue foldl rr_queue]. unfold rr_dispatch.
  cbn [rr_store rr_queue rr_timeline rr_currentTime lookup_total list_lookup_total
       remaining_time set_remaining pid].
  rewrite Z.min_l by lia.
  destruct (Z.eqb_spec (js_sub r (-1)) 0) as [Hz|_]; [lia|].
  reflexivity.
Qed.

Lemma rr_negative_quantum_spins (fuel : nat) (r t : Z) (tl : list Segment) :
  1 <= r ->
  while rr_cond (rr_body (-1)) fuel
    (mkRr [mkProcess 1 0 1 1 r None None None] [0%nat] tl t) = None.
Proof.
  revert r t tl. induction fuel as [|fuel IH]; intros r t tl Hr.
  - rewrite while_zero.
    assert (rr_cond (mkRr [mkProcess 1 0 1 1 r None None None] [0%nat] tl t) = true)
      as ->; [|done].
    apply rr_cond_true. by left.
  - rewrite while_succ.
    assert (rr_cond (mkRr [mkProcess 1 0 1 1 r None None None] [0%nat] tl t) = true)
      as ->.
    { apply rr_cond_true. by left. }
    rewrite rr_negative_quantum_step by done. apply IH.
    pose proof (js_sub_ge r (-1) ltac:(lia)). lia.
Qed.

(** A time unit taken off 2^54 leaves 2^54: the difference is not a
    double, and the nearest double is 2^54 itself. *)
Lemma unit_off_large_burst : js_sub (2 ^ 54) 1 = 2 ^ 54.
Proof. vm_compute. reflexivity. Qed.

(** With quantum 1 a process with 2^54 time units to run is dispatched
    over and over, and its remaining time stays what it is. *)
Lemma rr_large_burst_step (t : Z) (tl : list Segment) :
  rr_body 1 (mkRr large_burst [0%nat] tl t)
  = mkRr large_burst [0%nat] (tl ++ [mkSegment 1 t (js_add t 1) 1]) (js_add t 1).
Proof.
  unfold rr_body.
  assert (rr_arrivals (mkRr large_burst [0%nat] tl t) = []) as ->.
  { apply filter_none. intros i Hi (_ & _ & Hn). simpl in Hn.
    apply elem_of_seq in Hi. simpl in Hi. apply Hn.
    apply list_elem_of_singleton. lia. }
  cbn [rr_enqueue foldl rr_queue]. unfold rr_dispatch, large_burst.
  cbn [rr_store rr_queue rr_timeline rr_currentTime lookup_total list_lookup_total
       remaining_time set_remaining pid].
  rewrite Z.min_l by lia. rewrite unit_off_large_burst.
  reflexivity.
Qed.

Lemma rr_large_burst_spins (fuel : nat) (t : Z) (tl : list Segment) :
  while rr_cond (rr_body 1) fuel (mkRr large_burst [0%nat] tl t) = None.
Proof.
  revert t tl. induction fuel as [|fuel IH]; intros t tl.
  - rewrite while_zero.
    assert (rr_cond (mkRr large_burst [0%nat] tl t) = true) as ->; [|done].
    apply rr_cond_true. by left.
  - rewrite while_succ.
    assert (rr_cond (mkRr large_burst [0%nat] tl t) = true) as ->.
    { apply rr_cond_true. by left. }
    rewrite rr_large_burst_step. apply IH.
Qed.

(** The result of a scheduling function does not depend on the bound on
    the iterations. *)
Lemma np_scheduling_deterministic (key : Process -> Z) (ps : list Process)
    (r r' : Schedule) :
  returns (fun fuel => np_scheduling key fuel ps) r ->
  returns (fun fuel => np_scheduling key fuel ps) r' -> r = r'.
Proof.
  intros [n Hn] [m Hm]. unfold np_scheduling in *.
  destruct (while _ _ n _) as [s|] eqn:Hs; [|done].
  destruct (while _ _ m _) as [s'|] eqn:Hs'; [|done].
  simpl in *. simplify_eq. f_equal. by eapply while_deterministic.
Qed.


Lemma rr_passes_bounded (ps : list Process) (quantum : Z) (st : rr_state) :
  0 < quantum -> Forall (fun p => burst_time p <= 2 ^ 53) ps ->
  passes rr_cond (rr_body quantum) (rr_init ps) st ->
  forall i, remaining_time (rr_store st !!! i) <= Z.max quantum (2 ^ 53).
Proof.
  intros Hq Hb.
  apply (passes_invariant rr_cond (rr_body quantum)
           (fun s => forall i, remaining_time (rr_store s !!! i)
                               <= Z.max quantum (2 ^ 53))).
  - intros i. unfold rr_init. simpl.
    destruct (decide (i < length ps)%nat) as [Hi|Hi].
    + rewrite (list_lookup_total_fmap (fun p => set_remaining p (burst_time p)) ps i Hi).
      simpl. pose proof (Forall_lookup_total_1 _ _ i Hb Hi) as Hle. simpl in Hle. lia.
    + rewrite list_lookup_total_alt, lookup_ge_None_2 by (rewrite length_fmap; lia).
      simpl. lia.
  - intros s Hs _. apply rr_body_remaining_le; [done|lia|done].
Qed.

Lemma bounded_bursts_weaken (ps : list Process) (quantum : Z) :
  Forall (fun p => burst_time p <= 2 ^ 53) ps ->
  Forall (fun p => burst_time p <= Z.max quantum (2 ^ 53)) ps.
Proof. intros H. eapply Forall_impl; [exact H|]. intros p Hp. simpl in Hp. lia. Qed.

(** C8, as amended.  Each of the four scheduling functions terminates,
    round robin for a positive quantum when no burst time exceeds 2^53:
    the FCFS loop runs once per process; the SJF, priority and round-robin
    loops return.  Every iteration of these loops either strictly reduces
    the outstanding work (a process moves to completed, or the time that
    processes still have to run goes down), or is an idle jump of the
    clock, which leaves the work as it is and is followed by an iteration
    that reduces it. *)
Theorem scheduling_functions_terminate (ps : list Process) (quantum : Z) :
  length (processes (fcfsScheduling ps)) = length ps
  /\ (exists r, returns (fun fuel => sjfScheduling fuel ps) r)
  /\ (exists r, returns (fun fuel => priorityScheduling fuel ps) r)
  /\ (0 < quantum -> Forall (fun p => burst_time p <= 2 ^ 53) ps ->
      exists r, returns (fun fuel => roundRobinScheduling fuel ps quantum) r)
  /\ (forall (key : Process -> Z) (st : np_state),
        np_cond st = true ->
        (np_work (np_body key st) < np_work st)%nat
        \/ (np_work (np_body key st) = np_work st
            /\ np_cond (np_body key st) = true
            /\ (np_work (np_body key (np_body key st)) < np_work (np_body key st))%nat))
  /\ (0 < quantum -> Forall (fun p => burst_time p <= 2 ^ 53) ps ->
      forall st : rr_state,
        passes rr_cond (rr_body quantum) (rr_init ps) st ->
        rr_cond st = true ->
        (rr_work (rr_body quantum st) < rr_work st)%nat
        \/ (rr_work (rr_body quantum st) = rr_work st
            /\ rr_cond (rr_body quantum st) = true
            /\ (rr_work (rr_body quantum (rr_body quantum st))
                < rr_work (rr_body quantum st))%nat)).
Proof.
  split; [|split; [|split; [|split; [|split]]]].
  - destruct (fcfs_schedule_shape ps) as (Hperm & Htl & Hpr).
    rewrite Hpr, Htl, length_zip_with, run_in_order_length.
    rewrite Hperm. lia.
  - destruct (np_loop_terminates burst_time (np_init ps)) as [st Hst].
    exists (np_finish st), (np_mu (np_init ps)).
    unfold sjfScheduling, np_scheduling. by rewrite Hst.
  - destruct (np_loop_terminates priority (np_init ps)) as [st Hst].
    exists (np_finish st), (np_mu (np_init ps)).
    unfold priorityScheduling, np_scheduling. by rewrite Hst.
  - intros Hq Hb.
    destruct (rr_loop_terminates ps quantum Hq (bounded_bursts_weaken ps quantum Hb))
      as [st Hst].
    exists (rr_finish st), (rr_mu (rr_init ps)).
    unfold roundRobinScheduling. by rewrite Hst.
  - intros key st Hc. destruct (np_available st) as [|x l] eqn:Hav.
    + right. destruct (np_idle_progress key st Hc Hav) as (Hw & _ & Hc' & Hne).
      split; [done|]. split; [done|]. by apply np_run_progress.
    + left. apply np_run_progress; [done|]. by rewrite Hav.
  - intros Hq Hb st Hp Hc. pose proof (rr_passes_inv ps quantum st Hp) as Hinv.
    pose proof (rr_passes_bounded ps quantum st Hq Hb Hp) as Hle.
    destruct (rr_body_cases quantum st)
      as [(current & rest & Hr & ->)|(Hr & Hqu & Ha & Hbody)].
    + left. apply (rr_dispatch_work ps); [done|done|done|].
      apply slice_reduces_bounded; [done|apply Hle].
    + right. rewrite Hbody.
      destruct (rr_jump_work st Hc Hqu Ha) as (Hw & Hc' & Hne & _).
      split; [done|]. split; [done|].
      assert (Hinv' : rr_inv ps (rr_jump st [])).
      { pose proof (rr_inv_body ps quantum st Hinv) as Hb'. by rewrite Hbody in Hb'. }
      assert (Hle' : forall i, remaining_time (rr_store (rr_jump st []) !!! i)
                               <= Z.max quantum (2 ^ 53)).
      { rewrite <- Hbody. apply rr_body_remaining_le; [done|lia|done]. }
      destruct (rr_body_cases quantum (rr_jump st []))
        as [(current & rest & Hr' & ->)|(Hr' & _)]; [|done].
      apply (rr_dispatch_work ps); [done|done|done|].
      apply slice_reduces_bounded; [done|apply Hle'].
Qed.

(** Round robin with quantum 0 or -1 never returns on [one_unit], and
    with quantum 1 it never returns on [large_burst], whose 2^54 time units
    do not get fewer by taking one off; the first iteration of SJF on
    [late_arrival] only moves the clock. *)
Lemma termination_counterexample :
  ~ (exists r, returns (fun fuel => roundRobinScheduling fuel one_unit 0) r)
  /\ ~ (exists r, returns (fun fuel => roundRobinScheduling fuel one_unit (-1)) r)
  /\ ~ (exists r, returns (fun fuel => roundRobinScheduling fuel large_burst 1) r)
  /\ (np_cond (np_init late_arrival) = true
      /\ np_work (np_body burst_time (np_init late_arrival))
         = np_work (np_init late_arrival)
      /\ np_completed (np_body burst_time (np_init late_arrival)) = []
      /\ np_store (np_body burst_time (np_init late_arrival)) = late_arrival).
Proof.
  split; [|split; [|split]].
  - intros (r & fuel & Hr). unfold roundRobinScheduling in Hr.
    change (rr_init one_unit) with (mkRr one_unit [0%nat] [] 0) in Hr.
    by rewrite rr_zero_quantum_spins in Hr.
  - intros (r & fuel & Hr). unfold roundRobinScheduling in Hr.
    change (rr_init one_unit)
      with (mkRr [mkProcess 1 0 1 1 1 None None None] [0%nat] [] 0) in Hr.
    by rewrite rr_negative_quantum_spins in Hr.
  - intros (r & fuel & Hr). unfold roundRobinScheduling in Hr.
    change (rr_init large_burst) with (mkRr large_burst [0%nat] [] 0) in Hr.
    by rewrite rr_large_burst_spins in Hr.
  - repeat split; reflexivity.
Qed.

(** ** Beyond the exact range *)

(** A process that arrives at time 2^53 and runs for one time unit meets
    the conditions on arrival and burst times, and FCFS completes it at
    2^53, the double nearest to 2^53 + 1: with turnaround time 0 and
    waiting time -1. *)
Lemma invariant_counterexample :
  Forall (fun p => 0 <= arrival_time p) late_start
  /\ Forall (fun p => 0 < burst_time p) late_start
  /\ processes (fcfsScheduling late_start)
     = [mkProcess 1 (2 ^ 53) 1 1 1 (Some (2 ^ 53)) (Some 0) (Some (-1))]
  /\ ~ Forall completed_ok (processes (fcfsScheduling late_start)).
Proof.
  assert (Hp : processes (fcfsScheduling late_start)
               = [mkProcess 1 (2 ^ 53) 1 1 1 (Some (2 ^ 53)) (Some 0) (Some (-1))])
    by (vm_compute; reflexivity).
  split; [repeat constructor; by vm_compute|].
  split; [repeat constructor; by vm_compute|].
  split; [exact Hp|].
  rewrite Hp. intros Hok. apply Forall_cons in Hok as [(c & t & w & H1 & H2 & H3 & H4) _].
  cbn [completion_time turnaround_time waiting_time arrival_time burst_time] in *.
  destruct H4 as (_ & _ & _ & Hw). injection H3 as <-. lia.
Qed.


(** ** Errors *)

Lemma np_scheduling_returns (key : Process -> Z) (ps : list Process) :
  exists fuel r, np_scheduling key fuel ps = Some r.
Proof.
  destruct (np_loop_terminates key (np_init ps)) as [st Hst].
  exists (np_mu (np_init ps)), (np_finish st). unfold np_scheduling. by rewrite Hst.
Qed.

(** C5, as amended.  [simulateScheduling] reports an error for an
    algorithm name other than fcfs, sjf, rr and priority, and for nothing
    else: it does not look at the process set or at the burst times.  With
    one of the four names an empty process set gives an empty timeline and
    empty statistics, and fcfs, sjf and priority return a result for every
    process set whatever the burst times. *)
Theorem simulateScheduling_rejects_only_unknown_algorithm :
  (forall fuel ps algorithm quantum,
     algorithm <> "fcfs" -> algorithm <> "sjf" -> algorithm <> "rr" ->
     algorithm <> "priority" ->
     simulateScheduling fuel ps algorithm quantum = Some (Throws "Unknown algorithm"))
  /\ (forall fuel ps algorithm quantum msg,
     simulateScheduling fuel ps algorithm quantum = Some (Throws msg) ->
     algorithm <> "fcfs" /\ algorithm <> "sjf" /\ algorithm <> "rr"
     /\ algorithm <> "priority")
  /\ (forall fuel algorithm quantum,
     algorithm = "fcfs" \/ algorithm = "sjf" \/ algorithm = "rr"
     \/ algorithm = "priority" ->
     simulateScheduling fuel [] algorithm quantum = Some (Returns (mkResult [] None)))
  /\ (forall ps algorithm quantum,
     algorithm = "fcfs" \/ algorithm = "sjf" \/ algorithm = "priority" ->
     exists fuel r, simulateScheduling fuel ps algorithm quantum = Some (Returns r)).
Proof.
  split; [|split; [|split]].
  - intros fuel ps algorithm quantum H1 H2 H3 H4. unfold simulateScheduling.
    repeat case_decide; done.
  - intros fuel ps algorithm quantum msg. unfold simulateScheduling.
    repeat case_decide; try done.
    + destruct (sjfScheduling _ _); simpl; [unfold to_result|]; done.
    + destruct (roundRobinScheduling _ _ _); simpl; [unfold to_result|]; done.
    + destruct (priorityScheduling _ _); simpl; [unfold to_result|]; done.
  - intros fuel algorithm quantum [-> | [-> | [-> | ->]]]; unfold simulateScheduling;
      repeat case_decide; try done; by destruct fuel.
  - intros ps algorithm quantum [-> | [-> | ->]]; unfold simulateScheduling;
      repeat case_decide; try done.
    + exists 0%nat. eexists. done.
    + destruct (np_scheduling_returns burst_time (processObject <$> ps)) as (fuel & r & Hr).
      exists fuel. eexists. unfold sjfScheduling. rewrite Hr. done.
    + destruct (np_scheduling_returns priority (processObject <$> ps)) as (fuel & r & Hr).
      exists fuel. eexists. unfold priorityScheduling. rewrite Hr. done.
Qed.

(** No error on an empty process set, on a burst time of 0 or -2, or for
    round robin with quantum 0 or -1 (where the call never comes back). *)
Lemma validation_counterexample :
  simulateScheduling 0 [] "fcfs" None = Some (Returns (mkResult [] None))
  /\ simulateScheduling 1 [mkInput 1 0 0 1] "sjf" None
     = Some (Returns (mkResult [mkSegment 1 0 0 0]
          (Some (mkStatistics (Text "0.00") (Text "0.00") (Text "0.00")
                   (Num 0 1) (Text "Infinity")))))
  /\ simulateScheduling 0 [mkInput 1 0 (-2) 1] "fcfs" None
     = Some (Returns (mkResult [mkSegment 1 0 (-2) (-2)]
          (Some (mkStatistics (Text "-2.00") (Text "0.00") (Text "0.00")
                   (Num (-2) 1) (Text "-0.50")))))
  /\ ~ (exists fuel c,
          simulateScheduling fuel [mkInput 1 0 1 1] "rr" (Some 0) = Some c)
  /\ ~ (exists fuel c,
          simulateScheduling fuel [mkInput 1 0 1 1] "rr" (Some (-1)) = Some c).
Proof.
  split; [reflexivity|]. split; [reflexivity|]. split; [reflexivity|]. split.
  - intros (fuel & c & Hc). unfold simulateScheduling in Hc.
    repeat case_decide; try done.
    unfold roundRobinScheduling in Hc. simpl in Hc.
    change (rr_init [processObject (mkInput 1 0 1 1)])
      with (mkRr one_unit [0%nat] [] 0) in Hc.
    by rewrite rr_zero_quantum_spins in Hc.
  - intros (fuel & c & Hc). unfold simulateScheduling in Hc.
    repeat case_decide; try done.
    unfold roundRobinScheduling in Hc. simpl in Hc.
    change (rr_init [processObject (mkInput 1 0 1 1)])
      with (mkRr [mkProcess 1 0 1 1 1 None None None] [0%nat] [] 0) in Hc.
    by rewrite rr_negative_quantum_spins in Hc.
Qed.

(** C6, as amended.  On a non-empty list of processes whose greatest
    completion time is 0, [calculateStatistics] returns statistics, with
    total_time 0 and with the throughput the string "Infinity" (the
    rendering of count / 0); no error is reported. *)
Theorem throughput_is_Infinity_when_total_time_is_zero (ps : list Process) :
  ps <> [] ->
  Math_max (completion_time <$> ps) = of_Z 0 ->
  exists stats, calculateStatistics ps = Some stats
    /\ total_time stats = of_Z 0
    /\ throughput stats = toFixed2 PosInfinity
    /\ throughput stats = Text "Infinity".
Proof.
  intros Hne Hmax. unfold calculateStatistics.
  assert (Hlen : (length ps =? 0)%nat = false) by (by destruct ps).
  assert (Hpos : 0 < Z.of_nat (length ps)) by (destruct ps; [done|simpl; lia]).
  rewrite Hlen. eexists. split; [done|]. cbn [total_time throughput].
  rewrite Hmax. split; [done|].
  assert (number_div (of_Z (Z.of_nat (length ps))) (of_Z 0) = PosInfinity) as ->;
    [|done].
  unfold of_Z, number_div, over_zero. simpl.
  by destruct (Z.ltb_spec 0 (Z.of_nat (length ps))); [|lia].
Qed.

Lemma throughput_is_Infinity_when_total_time_is_zero_witness :
  done_at_zero <> []
  /\ Math_max (completion_time <$> done_at_zero) = of_Z 0
  /\ exists stats, calculateStatistics done_at_zero = Some stats
       /\ total_time stats = of_Z 0
       /\ throughput stats = toFixed2 PosInfinity
       /\ throughput stats = Text "Infinity".
Proof.
  assert (Hne : done_at_zero <> []) by discriminate.
  assert (Hmax : Math_max (completion_time <$> done_at_zero) = of_Z 0) by reflexivity.
  split; [exact Hne|]. split; [exact Hmax|].
  exact (throughput_is_Infinity_when_total_time_is_zero done_at_zero Hne Hmax).
Defined.

(** A process that completes at time 0 gets the throughput "Infinity",
    from [calculateStatistics] and through [simulateScheduling]. *)
Lemma throughput_counterexample :
  calculateStatistics done_at_zero
  = Some (mkStatistics (Text "0.00") (Text "0.00") (Text "0.00")
            (Num 0 1) (Text "Infinity"))
  /\ simulateScheduling 0 [mkInput 1 0 0 1] "fcfs" None
     = Some (Returns (mkResult [mkSegment 1 0 0 0]
          (Some (mkStatistics (Text "0.00") (Text "0.00") (Text "0.00")
                   (Num 0 1) (Text "Infinity"))))).
Proof. split; reflexivity. Qed.

(** * Further properties of the scheduling functions *)

(** ** One segment per process in SJF and priority scheduling *)

Section NonPreemptiveSegments.
Variable key : Process -> Z.
Variable ps : list Process.

Lemma np_passes_segments (st : np_state) :
  passes np_cond (np_body key) (np_init ps) st ->
  Forall2 segment_of ((fun i => np_store st !!! i) <$> np_completed st)
    (np_timeline st).
Proof.
  intros Hp.
  assert (np_inv ps st /\
          Forall2 segment_of ((fun i => np_store st !!! i) <$> np_completed st)
            (np_timeline st)) as [_ H]; [|done].
  revert Hp.
  apply (passes_invariant np_cond (np_body key)
           (fun s => np_inv ps s /\
              Forall2 segment_of ((fun i => np_store s !!! i) <$> np_completed s)
                (np_timeline s))).
  - split; [apply np_inv_init|constructor].
  - intros s [Hinv Hseg] Hc. split; [by apply np_inv_body|].
    destruct Hinv as (Hlen & Hnd & Hlt & Hun & Hco & Htl).
    destruct (np_body_cases key s) as [(sel & Hsel & Hne & ->)|[Hnil ->]].
    + apply np_selected_spec in Hsel as (Hin & _ & _).
      apply np_available_elem in Hin as (Hsl & Harr & Hnc).
      unfold np_run. simpl. rewrite fmap_app. apply Forall2_app.
      * assert ((fun i => <[sel:=set_completion (np_store s !!! sel)
                    (js_add (np_currentTime s) (burst_time (np_store s !!! sel)))]>
                    (np_store s) !!! i) <$> np_completed s
                = (fun i => np_store s !!! i) <$> np_completed s) as ->; [|done].
        apply list_fmap_ext. intros k i Hi%list_elem_of_lookup_2.
        apply list_lookup_total_insert_ne. intros ->. done.
      * simpl. rewrite list_lookup_total_insert_eq by done.
        constructor; [|constructor]. unfold segment_of. simpl.
        repeat split; done.
    + destruct (np_jump_spec s Hc) as (m & _ & _ & ->). done.
Qed.

(** Every returned result of the loop lists as many completed processes
    as the input has processes. *)
Lemma np_result_length (fuel : nat) (r : Schedule) :
  np_scheduling key fuel ps = Some r ->
  length (processes r) = length ps /\ length (timeline r) = length ps.
Proof.
  unfold np_scheduling. destruct (while _ _ _ _) as [st|] eqn:Hst; [|done].
  intros [= <-].
  apply while_passes with (s0 := np_init ps) in Hst as [Hp Hc]; [|constructor].
  pose proof (np_passes_segments st Hp) as Hseg.
  apply np_passes_inv in Hp as (Hlen & Hnd & Hlt & _).
  unfold np_cond in Hc. apply Nat.ltb_ge in Hc. rewrite Hlen in Hc.
  pose proof (indices_complete _ _ Hnd Hlt Hc) as Hperm.
  apply Forall2_length in Hseg. unfold np_finish. simpl.
  rewrite <- Hseg, length_fmap, Hperm, length_seq. done.
Qed.

Lemma np_segments_result :
  exists r, returns (fun fuel => np_scheduling key fuel ps) r
    /\ identity_of <$> processes r ≡ₚ identity_of <$> ps
    /\ Forall2 segment_of (processes r) (timeline r).
Proof.
  destruct (np_loop_terminates key (np_init ps)) as [st Hst].
  exists (np_finish st). split.
  { exists (np_mu (np_init ps)). unfold np_scheduling. by rewrite Hst. }
  apply while_passes with (s0 := np_init ps) in Hst as [Hp Hc]; [|constructor].
  split; [|by apply np_passes_segments].
  apply np_passes_inv in Hp as (Hlen & Hnd & Hlt & Hun & Hco & Htl).
  unfold np_cond in Hc. apply Nat.ltb_ge in Hc. rewrite Hlen in Hc.
  pose proof (indices_complete _ _ Hnd Hlt Hc) as Hperm.
  unfold np_finish. cbn [processes].
  rewrite <- list_fmap_compose, (fmap_via_indices identity_of ps).
  rewrite <- Hperm.
  assert ((identity_of ∘ (fun i => np_store st !!! i)) <$> np_completed st
          = (fun i => identity_of (ps !!! i)) <$> np_completed st) as ->; [|done].
  apply list_fmap_ext. intros k i Hi%list_elem_of_lookup_2. simpl.
  destruct (Hco i Hi) as (c & ->). done.
Qed.

End NonPreemptiveSegments.

Lemma run_in_order_segments (l : list Process) (now : Z) :
  Forall2 segment_of
    (zip_with (fun p seg => set_completion p (seg_end seg)) l (run_in_order now l))
    (run_in_order now l).
Proof.
  revert now. induction l as [|p l IH]; intros now; simpl; constructor; [|apply IH].
  unfold segment_of. simpl. repeat split; try done. lia.
Qed.

(** X1.  [fcfsScheduling], [sjfScheduling] and [priorityScheduling] never
    preempt: on every input they return, the completed processes are the
    input processes, and the k-th segment of the timeline is the one run
    of the k-th completed process: it carries its pid, starts no earlier
    than the process arrives, has its burst time as duration, and ends, at
    the double nearest to start plus burst time, at its completion
    time. *)
Theorem one_segment_per_process (ps : list Process) :
  (identity_of <$> processes (fcfsScheduling ps) ≡ₚ identity_of <$> ps
   /\ Forall2 segment_of (processes (fcfsScheduling ps)) (timeline (fcfsScheduling ps)))
  /\ (exists r, returns (fun fuel => sjfScheduling fuel ps) r
     /\ identity_of <$> processes r ≡ₚ identity_of <$> ps
     /\ Forall2 segment_of (processes r) (timeline r))
  /\ (exists r, returns (fun fuel => priorityScheduling fuel ps) r
     /\ identity_of <$> processes r ≡ₚ identity_of <$> ps
     /\ Forall2 segment_of (processes r) (timeline r)).
Proof.
  split; [|split; apply np_segments_result].
  destruct (fcfs_schedule_shape ps) as (Hperm & Htl & Hpr).
  split.
  - rewrite Hpr, Htl, run_in_order_identity. by rewrite Hperm.
  - rewrite Hpr, Htl. apply run_in_order_segments.
Qed.

(** ** Timelines in time order *)

Lemma last_end_snoc (t : Z) (l : list Segment) (s : Segment) :
  last_end t (l ++ [s]) = seg_end s.
Proof. unfold last_end. by rewrite foldl_snoc. Qed.

Lemma chained_snoc (t : Z) (l : list Segment) (s : Segment) :
  chained t l -> last_end t l <= seg_start s -> seg_start s <= seg_end s ->
  chained t (l ++ [s]).
Proof.
  revert t. induction l as [|x l IH]; intros t Hc Hl Hs; simpl in *.
  - done.
  - destruct Hc as (H1 & H2 & H3). split; [done|]. split; [done|]. by apply IH.
Qed.

Lemma run_in_order_chained (l : list Process) (now : Z) :
  Forall (fun p => 0 <= burst_time p) l -> chained now (run_in_order now l).
Proof.
  intros Hb. revert now. induction Hb as [|p l Hp Hl IH]; intros now; simpl; [done|].
  split; [lia|]. split; [by apply js_add_ge|]. apply IH.
Qed.

Lemma np_passes_chained (key : Process -> Z) (ps : list Process) (st : np_state) :
  Forall (fun p => 0 <= burst_time p) ps ->
  passes np_cond (np_body key) (np_init ps) st ->
  chained 0 (np_timeline st) /\ last_end 0 (np_timeline st) <= np_currentTime st.
Proof.
  intros Hb Hp.
  assert (np_inv ps st /\ chained 0 (np_timeline st)
          /\ last_end 0 (np_timeline st) <= np_currentTime st) as (_ & H); [|done].
  revert Hp.
  apply (passes_invariant np_cond (np_body key)
           (fun s => np_inv ps s /\ chained 0 (np_timeline s)
                     /\ last_end 0 (np_timeline s) <= np_currentTime s)).
  - split; [apply np_inv_init|]. simpl. unfold last_end. simpl. done.
  - intros s (Hinv & Hch & Hle) Hc. split; [by apply np_inv_body|].
    destruct Hinv as (Hlen & Hnd & Hlt & Hun & _).
    destruct (np_body_cases key s) as [(sel & Hsel & Hne & ->)|[Hnil ->]].
    + apply np_selected_spec in Hsel as (Hin & _ & _).
      apply np_available_elem in Hin as (Hsl & Harr & Hnc).
      rewrite Hlen in Hsl.
      pose proof (Forall_lookup_total_1 _ _ sel Hb Hsl) as Hbs. simpl in Hbs.
      rewrite <- (Hun sel Hsl Hnc) in Hbs.
      pose proof (js_add_ge (np_currentTime s) (burst_time (np_store s !!! sel)) Hbs).
      unfold np_run. simpl. rewrite last_end_snoc. simpl. split; [|lia].
      apply chained_snoc; simpl; [done|done|lia].
    + destruct (np_jump_spec s Hc) as (m & Hm & _ & ->). simpl.
      split; [done|].
      apply np_pending_elem in Hm as [Hm1 Hm2].
      destruct (Z_le_gt_dec (arrival_time (np_store s !!! m)) (np_currentTime s))
        as [Hle'|Hgt]; [|lia].
      assert (m ∈ np_available s) as Hin by (by apply np_available_elem).
      rewrite Hnil in Hin. by apply not_elem_of_nil in Hin.
Qed.

Lemma rr_body_clock (quantum : Z) (st : rr_state) :
  match rr_ready st with
  | current :: rest =>
      rr_currentTime (rr_body quantum st)
      = js_add (rr_currentTime st)
          (Z.min quantum (remaining_time (rr_store st !!! current)))
  | [] => rr_cond st = true -> rr_currentTime st < rr_currentTime (rr_body quantum st)
  end.
Proof.
  destruct (rr_body_cases quantum st)
    as [(current & rest & Hr & ->)|(Hr & Hq & Ha & ->)]; rewrite Hr.
  - unfold rr_dispatch. simpl. by destruct (_ =? 0).
  - intros Hc. by destruct (rr_jump_work st Hc Hq Ha) as (_ & _ & _ & Hlt).
Qed.

Lemma rr_passes_chained (ps : list Process) (quantum : Z) (st : rr_state) :
  Forall (fun p => 0 < burst_time p) ps -> 0 < quantum ->
  passes rr_cond (rr_body quantum) (rr_init ps) st ->
  chained 0 (rr_timeline st) /\ last_end 0 (rr_timeline st) <= rr_currentTime st.
Proof.
  intros Hb Hq Hp.
  assert ((rr_inv ps st /\ rr_order ps st) /\ chained 0 (rr_timeline st)
          /\ last_end 0 (rr_timeline st) <= rr_currentTime st) as (_ & H); [|done].
  revert Hp.
  apply (passes_invariant rr_cond (rr_body quantum)
           (fun s => (rr_inv ps s /\ rr_order ps s) /\ chained 0 (rr_timeline s)
                     /\ last_end 0 (rr_timeline s) <= rr_currentTime s)).
  - split; [split; [apply rr_inv_init|by apply rr_order_init]|].
    simpl. unfold last_end. simpl. done.
  - intros s ([Hinv Hord] & Hch & Hle) Hc.
    split; [split; [by apply rr_inv_body|by apply rr_order_body]|].
    pose proof (rr_body_timeline quantum s) as Ht.
    pose proof (rr_body_clock quantum s) as Hk.
    destruct (rr_ready s) as [|current rest] eqn:Hr.
    + rewrite Ht. specialize (Hk Hc). split; [done|lia].
    + cbv zeta in Ht. rewrite Ht, Hk, last_end_snoc. simpl.
      destruct (rr_ready_order ps s current Hinv Hord) as [_ Hpos].
      { rewrite Hr. by left. }
      assert (Hd : 0 <= Z.min quantum (remaining_time (rr_store s !!! current)))
        by lia.
      pose proof (js_add_ge (rr_currentTime s) _ Hd).
      split; [|lia].
      apply chained_snoc; simpl; [done|done|lia].
Qed.

(** X2.  When no burst time is negative the timeline of FCFS, SJF and
    priority scheduling is in time order and free of overlap: from time 0
    on, every segment starts no earlier than the one before it ends, and
    ends no earlier than it starts.  The same holds for every timeline
    that round robin returns when the burst times and the quantum are
    positive, and round robin does return one when no burst time exceeds
    2^53. *)
Theorem timelines_are_chronological (ps : list Process) (quantum : Z) :
  Forall (fun p => 0 <= burst_time p) ps ->
  chained 0 (timeline (fcfsScheduling ps))
  /\ (exists r, returns (fun fuel => sjfScheduling fuel ps) r
        /\ chained 0 (timeline r))
  /\ (exists r, returns (fun fuel => priorityScheduling fuel ps) r
        /\ chained 0 (timeline r))
  /\ (Forall (fun p => 0 < burst_time p) ps -> 0 < quantum ->
      (forall fuel r, roundRobinScheduling fuel ps quantum = Some r ->
         chained 0 (timeline r))
      /\ (Forall (fun p => burst_time p <= 2 ^ 53) ps ->
          exists r, returns (fun fuel => roundRobinScheduling fuel ps quantum) r
            /\ chained 0 (timeline r))).
Proof.
  intros Hb. split; [|split; [|split]].
  - destruct (fcfs_schedule_shape ps) as (Hperm & Htl & _). rewrite Htl.
    apply run_in_order_chained. by rewrite Hperm.
  - destruct (np_loop_terminates burst_time (np_init ps)) as [st Hst].
    exists (np_finish st). split.
    { exists (np_mu (np_init ps)). unfold sjfScheduling, np_scheduling. by rewrite Hst. }
    apply while_passes with (s0 := np_init ps) in Hst as [Hp _]; [|constructor].
    by destruct (np_passes_chained burst_time ps st Hb Hp).
  - destruct (np_loop_terminates priority (np_init ps)) as [st Hst].
    exists (np_finish st). split.
    { exists (np_mu (np_init ps)). unfold priorityScheduling, np_scheduling.
      by rewrite Hst. }
    apply while_passes with (s0 := np_init ps) in Hst as [Hp _]; [|constructor].
    by destruct (np_passes_chained priority ps st Hb Hp).
  - intros Hb' Hq.
    assert (Hsafe : forall fuel r, roundRobinScheduling fuel ps quantum = Some r ->
              chained 0 (timeline r)).
    { intros fuel r Hr. unfold roundRobinScheduling in Hr.
      destruct (while _ _ _ _) as [st|] eqn:Hst; [|done]. injection Hr as <-.
      apply while_passes with (s0 := rr_init ps) in Hst as [Hp _]; [|constructor].
      by destruct (rr_passes_chained ps quantum st Hb' Hq Hp). }
    split; [exact Hsafe|]. intros Hle.
    destruct (rr_loop_terminates ps quantum Hq (bounded_bursts_weaken ps quantum Hle))
      as [st Hst].
    assert (Hr : roundRobinScheduling (rr_mu (rr_init ps)) ps quantum
                 = Some (rr_finish st))
      by (unfold roundRobinScheduling; by rewrite Hst).
    exists (rr_finish st). split; [by eexists|]. by apply (Hsafe _ _ Hr).
Qed.

Lemma nonnegative_bursts_tie_example :
  Forall (fun p => 0 <= burst_time p) tie_example.
Proof. unfold tie_example. repeat (apply Forall_cons_2; [simpl; lia|]). apply Forall_nil_2. Qed.

Lemma timelines_are_chronological_witness :
  Forall (fun p => 0 <= burst_time p) tie_example
  /\ chained 0 (timeline (fcfsScheduling tie_example))
  /\ (exists r, returns (fun fuel => sjfScheduling fuel tie_example) r
        /\ chained 0 (timeline r))
  /\ (exists r, returns (fun fuel => roundRobinScheduling fuel tie_example 2) r
        /\ chained 0 (timeline r)).
Proof.
  assert (Hq : 0 < 2) by lia.
  pose proof (timelines_are_chronological tie_example 2
                nonnegative_bursts_tie_example) as (Hf & Hs & _ & Hrr).
  split; [exact nonnegative_bursts_tie_example|].
  split; [exact Hf|]. split; [exact Hs|].
  exact (proj2 (Hrr positive_bursts_tie_example Hq) bounded_bursts_tie_example).
Defined.

(** ** Simultaneous arrivals *)

Section SimultaneousArrivals.
Variable key : Process -> Z.
Variable ps : list Process.
Hypothesis Harrivals : Forall (fun p => arrival_time p = 0) ps.
Hypothesis Hbursts : Forall (fun p => 0 <= burst_time p) ps.

Lemma np_passes_key_order (st : np_state) :
  passes np_cond (np_body key) (np_init ps) st ->
  np_inv ps st
  /\ StronglySorted Z.le ((fun i => key (ps !!! i)) <$> np_completed st).
Proof.
  intros Hp.
  assert (np_inv ps st /\ 0 <= np_currentTime st
          /\ StronglySorted Z.le ((fun i => key (ps !!! i)) <$> np_completed st)
          /\ (forall i j, i ∈ np_completed st -> (j < length ps)%nat ->
                j ∉ np_completed st -> key (ps !!! i) <= key (ps !!! j)))
    as (H1 & _ & H2 & _); [|done].
  revert Hp.
  apply (passes_invariant np_cond (np_body key)
    (fun s => np_inv ps s /\ 0 <= np_currentTime s
       /\ StronglySorted Z.le ((fun i => key (ps !!! i)) <$> np_completed s)
       /\ (forall i j, i ∈ np_completed s -> (j < length ps)%nat ->
             j ∉ np_completed s -> key (ps !!! i) <= key (ps !!! j)))).
  - split; [apply np_inv_init|]. simpl. split; [done|]. split; [constructor|].
    intros i j Hi. by apply not_elem_of_nil in Hi.
  - intros s (Hinv & Hnow & Hsorted & Hcross) Hc.
    split; [by apply np_inv_body|].
    destruct Hinv as (Hlen & Hnd & Hlt & Hun & _).
    destruct (np_body_cases key s) as [(sel & Hsel & Hne & ->)|[Hnil ->]].
    + apply np_selected_spec in Hsel as (Hin & Hmin & _).
      pose proof Hin as Hin'.
      apply np_available_elem in Hin' as (Hsl & Harr & Hnc). rewrite Hlen in Hsl.
      assert (Hleast : forall j, (j < length ps)%nat -> j ∉ np_completed s ->
                key (ps !!! sel) <= key (ps !!! j)).
      { intros j Hj Hjn. rewrite <- (Hun sel Hsl Hnc), <- (Hun j Hj Hjn).
        apply Hmin. apply np_available_elem. rewrite Hlen. split; [done|].
        split; [|done]. rewrite (Hun j Hj Hjn).
        pose proof (Forall_lookup_total_1 _ _ j Harrivals Hj) as Ha.
        simpl in Ha. lia. }
      unfold np_run. simpl. split.
      { pose proof (Forall_lookup_total_1 _ _ sel Hbursts Hsl) as Hb.
        simpl in Hb. rewrite (Hun sel Hsl Hnc). apply js_add_nonneg. lia. }
      split.
      { rewrite fmap_app. apply StronglySorted_app_2; [|done|].
        - intros x1 x2 Hx1 Hx2. apply list_elem_of_singleton in Hx2. subst x2.
          apply list_elem_of_fmap in Hx1 as (i & -> & Hi). by apply Hcross.
        - repeat constructor. }
      intros i j Hi Hj Hjn. rewrite elem_of_app, list_elem_of_singleton in Hjn.
      apply elem_of_app in Hi as [Hi|Hi].
      * apply Hcross; [done|done|]. naive_solver.
      * apply list_elem_of_singleton in Hi. subst i. apply Hleast; [done|].
        naive_solver.
    + destruct (np_jump_spec s Hc) as (m & Hm & _ & ->). simpl.
      split; [|done].
      apply np_pending_elem in Hm as [Hm1 Hm2]. rewrite Hlen in Hm1.
      rewrite (Hun m Hm1 Hm2).
      pose proof (Forall_lookup_total_1 _ _ m Harrivals Hm1) as Ha. simpl in Ha. lia.
Qed.

Lemma np_key_order_result :
  exists st, returns (fun fuel => np_scheduling key fuel ps) (np_finish st)
    /\ np_inv ps st
    /\ StronglySorted Z.le ((fun i => key (ps !!! i)) <$> np_completed st).
Proof.
  destruct (np_loop_terminates key (np_init ps)) as [st Hst].
  exists st. split.
  { exists (np_mu (np_init ps)). unfold np_scheduling. by rewrite Hst. }
  apply while_passes with (s0 := np_init ps) in Hst as [Hp _]; [|constructor].
  by apply np_passes_key_order.
Qed.

End SimultaneousArrivals.

(** X3.  When all processes arrive at time 0 and no burst time is
    negative, SJF runs the processes shortest first (the durations along
    the timeline never decrease) and priority scheduling runs them most
    urgent first (the priority values along the completed processes never
    decrease). *)
Theorem simultaneous_arrivals_run_in_key_order (ps : list Process) :
  Forall (fun p => arrival_time p = 0) ps ->
  Forall (fun p => 0 <= burst_time p) ps ->
  (exists r, returns (fun fuel => sjfScheduling fuel ps) r
     /\ StronglySorted Z.le (seg_duration <$> timeline r))
  /\ (exists r, returns (fun fuel => priorityScheduling fuel ps) r
     /\ StronglySorted Z.le (priority <$> processes r)).
Proof.
  intros Ha Hb. split.
  - destruct (np_key_order_result burst_time ps Ha Hb) as (st & Hr & Hinv & Hs).
    exists (np_finish st). split; [done|].
    destruct Hinv as (_ & _ & _ & _ & _ & Htl). simpl. by rewrite Htl.
  - destruct (np_key_order_result priority ps Ha Hb) as (st & Hr & Hinv & Hs).
    exists (np_finish st). split; [done|].
    destruct Hinv as (_ & _ & _ & _ & Hco & _). simpl.
    rewrite <- list_fmap_compose.
    assert ((priority ∘ (fun i => np_store st !!! i)) <$> np_completed st
            = (fun i => priority (ps !!! i)) <$> np_completed st) as ->; [|done].
    apply list_fmap_ext. intros k i Hi%list_elem_of_lookup_2. simpl.
    destruct (Hco i Hi) as (c & ->). done.
Qed.

Lemma simultaneous_arrivals_run_in_key_order_witness :
  let ps := [mkProcess 1 0 4 2 4 None None None; mkProcess 2 0 1 1 1 None None None] in
  Forall (fun p => arrival_time p = 0) ps
  /\ Forall (fun p => 0 <= burst_time p) ps
  /\ exists r, returns (fun fuel => sjfScheduling fuel ps) r
       /\ StronglySorted Z.le (seg_duration <$> timeline r).
Proof.
  intros ps.
  assert (Ha : Forall (fun p => arrival_time p = 0) ps).
  { repeat (apply Forall_cons_2; [reflexivity|]). apply Forall_nil_2. }
  assert (Hb : Forall (fun p => 0 <= burst_time p) ps).
  { repeat (apply Forall_cons_2; [simpl; lia|]). apply Forall_nil_2. }
  split; [exact Ha|]. split; [exact Hb|].
  exact (proj1 (simultaneous_arrivals_run_in_key_order ps Ha Hb)).
Defined.

(** ** FCFS and the order of the input *)

Lemma NoDup_fmap_same {A B : Type} (f : A -> B) (l : list A) (x y : A) :
  NoDup (f <$> l) -> x ∈ l -> y ∈ l -> f x = f y -> x = y.
Proof.
  induction l as [|z l IH]; intros Hnd Hx Hy Hf.
  - by apply not_elem_of_nil in Hx.
  - rewrite fmap_cons in Hnd. apply NoDup_cons in Hnd as [Hz Hnd].
    apply elem_of_cons in Hx as [->|Hx]; apply elem_of_cons in Hy as [->|Hy].
    + done.
    + exfalso. apply Hz. rewrite Hf. by apply list_elem_of_fmap_2.
    + exfalso. apply Hz. rewrite <- Hf. by apply list_elem_of_fmap_2.
    + by apply IH.
Qed.

(** X4.  With distinct pids the result of FCFS does not depend on the
    order in which the processes are listed: two inputs that hold the same
    processes give the same timeline, the same completed processes and the
    same statistics. *)
Theorem fcfs_ignores_input_order (ps1 ps2 : list Process) :
  ps1 ≡ₚ ps2 -> NoDup (pid <$> ps1) -> fcfsScheduling ps1 = fcfsScheduling ps2.
Proof.
  intros Hperm Hnd.
  assert (Array_sort fcfs_compare ps1 = Array_sort fcfs_compare ps2) as Hs.
  { apply (StronglySorted_unique_strong fcfs_before).
    - intros x1 x2 Hx1 Hx2 H12 H21.
      rewrite Array_sort_perm in Hx1, Hx2. rewrite <- Hperm in Hx2.
      apply (NoDup_fmap_same pid ps1); [done|done|done|].
      unfold fcfs_before in *. lia.
    - apply Array_sort_fcfs_sorted.
    - apply Array_sort_fcfs_sorted.
    - by rewrite !Array_sort_perm. }
  unfold fcfsScheduling. by rewrite Hs.
Qed.

Lemma fcfs_ignores_input_order_witness :
  let a := mkProcess 1 0 5 1 5 None None None in
  let b := mkProcess 2 1 3 1 3 None None None in
  [a; b] ≡ₚ [b; a] /\ NoDup (pid <$> [a; b])
  /\ fcfsScheduling [a; b] = fcfsScheduling [b; a].
Proof.
  intros a b.
  assert (Hp : [a; b] ≡ₚ [b; a]) by apply Permutation_swap.
  assert (Hn : NoDup (pid <$> [a; b])).
  { simpl. apply NoDup_cons_2; [|apply NoDup_singleton].
    intros H%list_elem_of_singleton. discriminate H. }
  split; [exact Hp|]. split; [exact Hn|].
  exact (fcfs_ignores_input_order [a; b] [b; a] Hp Hn).
Defined.

(** ** Empty input and empty statistics *)

Lemma calculateStatistics_None (l : list Process) :
  calculateStatistics l = None <-> l = [].
Proof. unfold calculateStatistics. destruct l; simpl; split; done. Qed.

Lemma np_scheduling_statistics (key : Process -> Z) (fuel : nat) (ps : list Process)
    (r : Schedule) :
  np_scheduling key fuel ps = Some r ->
  statistics r = calculateStatistics (processes r).
Proof.
  unfold np_scheduling. destruct (while _ _ _ _); [|done]. by intros [= <-].
Qed.

Lemma rr_scheduling_statistics (fuel : nat) (ps : list Process) (quantum : Z)
    (r : Schedule) :
  roundRobinScheduling fuel ps quantum = Some r ->
  statistics r = calculateStatistics (processes r)
  /\ length (processes r) = length ps.
Proof.
  unfold roundRobinScheduling.
  destruct (while _ _ _ _) as [st|] eqn:Hst; [|done]. intros [= <-].
  split; [done|].
  apply while_passes with (s0 := rr_init ps) in Hst as [Hp _]; [|constructor].
  by apply rr_passes_inv in Hp as (Hlen & _).
Qed.

Lemma fcfs_result_length (ps : list Process) :
  length (processes (fcfsScheduling ps)) = length ps
  /\ length (timeline (fcfsScheduling ps)) = length ps.
Proof.
  destruct (fcfs_schedule_shape ps) as (Hperm & Htl & Hpr).
  rewrite Hpr, Htl, length_zip_with, run_in_order_length, Hperm. lia.
Qed.

Lemma simulateScheduling_result_shape (fuel : nat) (ps : list ProcessInput)
    (algorithm : string) (quantum : option Z) (r : Result) :
  simulateScheduling fuel ps algorithm quantum = Some (Returns r) ->
  (r_statistics r = None <-> ps = [])
  /\ (ps = [] -> r_timeline r = [])
  /\ (algorithm <> "rr" -> length (r_timeline r) = length ps).
Proof.
  intros Hr.
  assert (Hnil : forall l : list ProcessInput, length (processObject <$> l) = 0%nat
                   <-> l = []).
  { intros l. rewrite length_fmap. by destruct l. }
  assert (Hstat : forall s : Schedule,
            statistics s = calculateStatistics (processes s) ->
            length (processes s) = length ps ->
            statistics s = None <-> ps = []).
  { intros s -> Hl. rewrite calculateStatistics_None.
    destruct (processes s), ps; simpl in *; split; done. }
  unfold simulateScheduling, to_result in Hr. repeat case_decide; subst.
  - injection Hr as <-. cbn [r_statistics r_timeline].
    destruct (fcfs_result_length (processObject <$> ps)) as [Hl1 Hl2].
    rewrite length_fmap in Hl1, Hl2.
    split; [by apply (Hstat (fcfsScheduling (processObject <$> ps)))|].
    split; [|done].
    intros ->. by destruct (timeline _).
  - destruct (sjfScheduling fuel _) as [s|] eqn:Hs; [|done]. injection Hr as <-.
    cbn [r_statistics r_timeline].
    destruct (np_result_length _ _ _ _ Hs) as [Hl1 Hl2].
    rewrite length_fmap in Hl1, Hl2.
    split; [apply (Hstat s); [by eapply np_scheduling_statistics|done]|].
    split; [|done]. intros ->. by destruct (timeline s).
  - destruct (roundRobinScheduling fuel _ _) as [s|] eqn:Hs; [|done].
    injection Hr as <-. cbn [r_statistics r_timeline].
    destruct (rr_scheduling_statistics _ _ _ _ Hs) as [Hst Hl].
    rewrite length_fmap in Hl.
    split; [by apply (Hstat s)|]. split; [|done].
    intros ->. destruct fuel; simpl in Hs; by injection Hs as <-.
  - destruct (priorityScheduling fuel _) as [s|] eqn:Hs; [|done]. injection Hr as <-.
    cbn [r_statistics r_timeline].
    destruct (np_result_length _ _ _ _ Hs) as [Hl1 Hl2].
    rewrite length_fmap in Hl1, Hl2.
    split; [apply (Hstat s); [by eapply np_scheduling_statistics|done]|].
    split; [|done]. intros ->. by destruct (timeline s).
  - done.
Qed.

(** X5.  Whenever [simulateScheduling] returns a result, the statistics
    are the empty object exactly when the process set is empty, and an
    empty process set gives an empty timeline; under fcfs, sjf and priority
    the timeline has exactly one segment per process. *)
Theorem simulateScheduling_empty_statistics (fuel : nat) (ps : list ProcessInput)
    (algorithm : string) (quantum : option Z) (r : Result) :
  simulateScheduling fuel ps algorithm quantum = Some (Returns r) ->
  (r_statistics r = None <-> ps = [])
  /\ (ps = [] -> r_timeline r = [])
  /\ (algorithm <> "rr" -> length (r_timeline r) = length ps).
Proof. apply simulateScheduling_result_shape. Qed.

Lemma simulateScheduling_empty_statistics_witness :
  simulateScheduling 0 [] "fcfs" None = Some (Returns (mkResult [] None))
  /\ ((r_statistics (mkResult [] None) = None <-> @nil ProcessInput = [])
      /\ (@nil ProcessInput = [] -> r_timeline (mkResult [] None) = [])
      /\ ("fcfs" <> "rr" ->
          length (r_timeline (mkResult [] None)) = length (@nil ProcessInput))).
Proof.
  assert (H : simulateScheduling 0 [] "fcfs" None = Some (Returns (mkResult [] None)))
    by reflexivity.
  split; [exact H|].
  exact (simulateScheduling_empty_statistics 0 [] "fcfs" None (mkResult [] None) H).
Defined.

(** ** Statistics of completed processes *)

Lemma max_defined_all (xs : list (option Z)) :
  Forall is_Some xs -> max_defined xs = Some (default 0 <$> xs).
Proof.
  induction 1 as [|x xs [v ->] Hxs IH]; simpl; [done|]. by rewrite IH.
Qed.

Lemma foldl_max_spec (rest : list Z) (x : Z) :
  foldl Z.max x rest ∈ x :: rest /\ (forall y, y ∈ x :: rest -> y <= foldl Z.max x rest).
Proof.
  induction rest as [|z rest IH] using rev_ind.
  - simpl. split; [by left|]. intros y Hy. apply list_elem_of_singleton in Hy. lia.
  - rewrite foldl_snoc. destruct IH as [Hin Hle]. split.
    + rewrite app_comm_cons, elem_of_app.
      destruct (Z.max_spec (foldl Z.max x rest) z) as [[_ ->]|[_ ->]].
      * right. by left.
      * by left.
    + intros y Hy. rewrite app_comm_cons, elem_of_app in Hy.
      destruct Hy as [Hy|Hy].
      * specialize (Hle _ Hy). lia.
      * apply list_elem_of_singleton in Hy. lia.
Qed.

(** [Math.max] over completion times that are all set is the greatest of
    them. *)
Lemma Math_max_completed (ps : list Process) :
  ps <> [] -> Forall (fun p => is_Some (completion_time p)) ps ->
  exists T, Math_max (completion_time <$> ps) = of_Z T
    /\ (exists p, p ∈ ps /\ completion_time p = Some T)
    /\ (forall p c, p ∈ ps -> completion_time p = Some c -> c <= T).
Proof.
  intros Hne Hc. unfold Math_max.
  rewrite max_defined_all by (by apply Forall_fmap).
  rewrite <- list_fmap_compose.
  destruct ps as [|p0 ps]; [done|]. rewrite fmap_cons.
  match goal with
  | |- context [foldl Z.max ?x ?rest] =>
      destruct (foldl_max_spec rest x) as [Hin Hle]; set (T := foldl Z.max x rest) in *
  end.
  exists T. split; [done|]. rewrite Forall_forall in Hc. split.
  - apply elem_of_cons in Hin as [Heq|Hin].
    + exists p0. split; [by left|]. destruct (Hc p0) as [c Hcp]; [by left|].
      rewrite Heq. simpl. by rewrite Hcp.
    + apply list_elem_of_fmap in Hin as (p & Hp & Hpin). exists p.
      split; [by right|]. destruct (Hc p) as [c Hcp]; [by right|].
      rewrite Hp. simpl. by rewrite Hcp.
  - intros p c Hp Hcp. apply Hle. apply elem_of_cons in Hp as [->|Hp].
    + apply elem_of_cons. left. simpl. by rewrite Hcp.
    + apply elem_of_cons. right. apply list_elem_of_fmap. exists p.
      split; [|done]. simpl. by rewrite Hcp.
Qed.

(** ** Statistics of a valid simulation *)

Lemma valid_through_identity (l1 l2 : list Process) :
  identity_of <$> l1 ≡ₚ identity_of <$> l2 ->
  Forall (fun p => 0 <= arrival_time p /\ 0 < burst_time p) l2 ->
  Forall (fun p => 0 <= arrival_time p /\ 0 < burst_time p) l1.
Proof.
  intros Hperm Hv.
  assert (Hq : forall l : list Process,
            Forall (fun p => 0 <= arrival_time p /\ 0 < burst_time p) l
            <-> Forall (fun x : Z * Z * Z * Z => 0 <= x.1.1.2 /\ 0 < x.1.2)
                  (identity_of <$> l)).
  { intros l. by rewrite Forall_fmap. }
  apply Hq. rewrite Hperm. by apply Hq.
Qed.

(** What a schedule whose processes are the completed input processes
    gives as total time. *)
Lemma valid_schedule_statistics (ps : list Process) (sch : Schedule) :
  ps <> [] ->
  Forall (fun p => 0 <= arrival_time p /\ 0 < burst_time p) ps ->
  identity_of <$> processes sch ≡ₚ identity_of <$> ps ->
  Forall completed_ok (processes sch) ->
  statistics sch = calculateStatistics (processes sch) ->
  exists s T, statistics sch = Some s
    /\ total_time s = of_Z T /\ 0 < T
    /\ (exists p, p ∈ processes sch /\ completion_time p = Some T)
    /\ (forall p, p ∈ ps -> arrival_time p + burst_time p <= T).
Proof.
  intros Hne Hv Hid Hok Hst.
  assert (Hlen : length (processes sch) = length ps).
  { apply Permutation_length in Hid. by rewrite !length_fmap in Hid. }
  assert (Hne' : processes sch <> []).
  { intros Hnil. rewrite Hnil in Hlen. by destruct ps. }
  pose proof (valid_through_identity _ _ Hid Hv) as Hv'.
  assert (Hc : Forall (fun p => is_Some (completion_time p)) (processes sch)).
  { eapply Forall_impl; [exact Hok|]. intros p (c & t & w & -> & _). eauto. }
  destruct (Math_max_completed (processes sch) Hne' Hc)
    as (T & Hmax & (pT & HpT & HcT) & Hle).
  assert (HT : 0 < T).
  { rewrite Forall_forall in Hok, Hv'.
    destruct (Hok pT HpT) as (c & t & w & Hcc & _ & _ & Hge & _).
    destruct (Hv' pT HpT). rewrite HcT in Hcc. injection Hcc as <-. lia. }
  rewrite Hst. unfold calculateStatistics.
  assert ((length (processes sch) =? 0)%nat = false) as ->
    by (by destruct (processes sch)).
  eexists _, T. split; [done|]. cbn [total_time].
  split; [done|]. split; [done|]. split; [eauto|].
  intros p Hp.
  assert (identity_of p ∈ identity_of <$> processes sch) as Hin.
  { rewrite Hid. by apply list_elem_of_fmap_2. }
  apply list_elem_of_fmap in Hin as (p' & Hpp & Hp').
  rewrite Forall_forall in Hok.
  destruct (Hok p' Hp') as (c & t & w & Hcp & _ & _ & Hge & _).
  specialize (Hle p' c Hp' Hcp). unfold identity_of in Hpp.
  injection Hpp as _ Ha Hb _. lia.
Qed.

(** X7.  On a non-empty process set with non-negative arrival times and
    positive burst times whose latest arrival time plus the sum of the
    burst times is at most 2^53, with one of the four algorithm names and
    a positive quantum, [simulateScheduling] returns statistics, and their
    total_time is a positive number that is no smaller than
    arrival_time + burst_time of any process. *)
Theorem simulateScheduling_valid_statistics (ps : list ProcessInput)
    (algorithm : string) (quantum : option Z) :
  ps <> [] ->
  Forall (fun p => 0 <= in_arrival_time p /\ 0 < in_burst_time p) ps ->
  exact_range (processObject <$> ps) ->
  0 < default 3 quantum ->
  algorithm = "fcfs" \/ algorithm = "sjf" \/ algorithm = "rr" \/ algorithm = "priority" ->
  exists fuel r s T,
    simulateScheduling fuel ps algorithm quantum = Some (Returns r)
    /\ r_statistics r = Some s
    /\ total_time s = of_Z T /\ 0 < T
    /\ (forall p, p ∈ ps -> in_arrival_time p + in_burst_time p <= T).
Proof.
  intros Hne Hv Hrange Hq Halg.
  set (objs := processObject <$> ps) in *.
  assert (Hne' : objs <> []) by (unfold objs; by destruct ps).
  assert (Hv' : Forall (fun p => 0 <= arrival_time p /\ 0 < burst_time p) objs).
  { unfold objs. apply Forall_fmap. eapply Forall_impl; [exact Hv|]. done. }
  assert (Ha : Forall (fun p => 0 <= arrival_time p) objs).
  { eapply Forall_impl; [exact Hv'|]. by intros p [? _]. }
  assert (Hb : Forall (fun p => 0 < burst_time p) objs).
  { eapply Forall_impl; [exact Hv'|]. by intros p [_ ?]. }
  pose proof (positive_bursts_nonneg objs Hb) as Hnn.
  assert (Hfinish : forall sch : Schedule,
    identity_of <$> processes sch ≡ₚ identity_of <$> objs ->
    Forall (fun p => 0 <= arrival_time p -> completed_ok p) (processes sch) ->
    statistics sch = calculateStatistics (processes sch) ->
    exists s T, r_statistics (mkResult (timeline sch) (statistics sch)) = Some s
      /\ total_time s = of_Z T /\ 0 < T
      /\ (forall p, p ∈ ps -> in_arrival_time p + in_burst_time p <= T)).
  { intros sch Hid Hok Hst.
    pose proof (completed_ok_all objs (processes sch) Ha Hid Hok) as Hok'.
    destruct (valid_schedule_statistics objs sch Hne' Hv' Hid Hok' Hst)
      as (s & T & Hs & HT & HT0 & _ & Hle).
    exists s, T.
    split; [done|]. split; [done|]. split; [done|].
    intros p Hp. apply (Hle (processObject p)). by apply list_elem_of_fmap_2. }
  unfold simulateScheduling, to_result. fold objs.
  destruct Halg as [-> | [-> | [-> | ->]]]; repeat case_decide; try done.
  - destruct (fcfs_scheduling_result objs Hnn Hrange) as (Hid & Hok & _).
    destruct (Hfinish (fcfsScheduling objs) Hid Hok eq_refl) as (s & T & Hres).
    exists 0%nat. eexists _, s, T. split; [done|]. exact Hres.
  - destruct (np_scheduling_result burst_time objs Hnn Hrange)
      as (sch & [fuel Hr] & Hid & Hok & _).
    destruct (Hfinish sch Hid Hok (np_scheduling_statistics _ _ _ _ Hr)) as (s & T & Hres).
    exists fuel. eexists _, s, T. unfold sjfScheduling. rewrite Hr.
    split; [done|]. exact Hres.
  - destruct (rr_scheduling_result objs _ Hb Hq Hrange)
      as (sch & [fuel Hr] & Hid & Hok & _).
    assert (Hid' : identity_of <$> processes sch ≡ₚ identity_of <$> objs)
      by (by rewrite Hid).
    destruct (Hfinish sch Hid' Hok (proj1 (rr_scheduling_statistics _ _ _ _ Hr)))
      as (s & T & Hres).
    exists fuel. eexists _, s, T. rewrite Hr. split; [done|]. exact Hres.
  - destruct (np_scheduling_result priority objs Hnn Hrange)
      as (sch & [fuel Hr] & Hid & Hok & _).
    destruct (Hfinish sch Hid Hok (np_scheduling_statistics _ _ _ _ Hr)) as (s & T & Hres).
    exists fuel. eexists _, s, T. unfold priorityScheduling. rewrite Hr.
    split; [done|]. exact Hres.
Qed.

Lemma simulateScheduling_valid_statistics_witness :
  let ps := [mkInput 1 0 5 1; mkInput 2 1 3 1] in
  ps <> []
  /\ Forall (fun p => 0 <= in_arrival_time p /\ 0 < in_burst_time p) ps
  /\ exact_range (processObject <$> ps)
  /\ 0 < default 3 (Some 2)
  /\ ("rr" = "fcfs" \/ "rr" = "sjf" \/ "rr" = "rr" \/ "rr" = "priority")
  /\ exists fuel r s T,
       simulateScheduling fuel ps "rr" (Some 2) = Some (Returns r)
       /\ r_statistics r = Some s
       /\ total_time s = of_Z T /\ 0 < T
       /\ (forall p, p ∈ ps -> in_arrival_time p + in_burst_time p <= T).
Proof.
  intros ps.
  assert (Hne : ps <> []) by discriminate.
  assert (Hv : Forall (fun p => 0 <= in_arrival_time p /\ 0 < in_burst_time p) ps).
  { repeat (apply Forall_cons_2; [simpl; lia|]). apply Forall_nil_2. }
  assert (Hr : exact_range (processObject <$> ps)).
  { unfold exact_range. vm_compute. discriminate. }
  assert (Hq : 0 < default 3 (Some 2)) by (simpl; lia).
  assert (Ha : "rr" = "fcfs" \/ "rr" = "sjf" \/ "rr" = "rr" \/ "rr" = "priority")
    by (right; right; left; reflexivity).
  split; [exact Hne|]. split; [exact Hv|]. split; [exact Hr|].
  split; [exact Hq|]. split; [exact Ha|].
  exact (simulateScheduling_valid_statistics ps "rr" (Some 2) Hne Hv Hr Hq Ha).
Defined.

(** * The page around the engine *)

(** ** Colours *)

(** X8.  [getProcessColor] finds no colour exactly for a negative pid
    that is not a multiple of 8; every non-negative pid gets one of the
    eight colours, the same one as the pid 8 higher; and the colour
    "#FF6384" is given to the pids with remainder 0 and to those with
    remainder 6, so that two processes out of eight look alike. *)
Theorem getProcessColor_range (pid : Z) :
  (getProcessColor pid = None <-> pid < 0 /\ Z.rem pid 8 <> 0)
  /\ (0 <= pid -> exists c, getProcessColor pid = Some c /\ c ∈ colors)
  /\ (0 <= pid -> getProcessColor (pid + 8) = getProcessColor pid)
  /\ (getProcessColor pid = Some "#FF6384" <-> Z.rem pid 8 = 0 \/ Z.rem pid 8 = 6).
Proof.
  unfold getProcessColor. change (Z.of_nat (length colors)) with 8.
  assert (Hcases : Z.rem pid 8 < 0 /\ pid < 0
                   \/ Z.rem pid 8 = 0 \/ 0 <= pid /\
                      (Z.rem pid 8 = 1 \/ Z.rem pid 8 = 2 \/ Z.rem pid 8 = 3
                       \/ Z.rem pid 8 = 4 \/ Z.rem pid 8 = 5 \/ Z.rem pid 8 = 6
                       \/ Z.rem pid 8 = 7)).
  { destruct (Z_lt_le_dec pid 0) as [Hneg|Hpos].
    - pose proof (Z.rem_nonpos pid 8 ltac:(lia) ltac:(lia)). lia.
    - pose proof (Z.rem_bound_pos pid 8 Hpos ltac:(lia)). lia. }
  assert (Hperiod : 0 <= pid -> Z.rem (pid + 8) 8 = Z.rem pid 8).
  { intros Hpos. rewrite !Z.rem_mod_nonneg by lia.
    replace (pid + 8) with (pid + 1 * 8) by lia. apply Z_mod_plus_full. }
  split; [|split; [|split]].
  - destruct Hcases as [[Hk Hn]|[Hk|[Hp Hk]]].
    + destruct (Z.ltb_spec (Z.rem pid 8) 0); [|lia]. split; [intros _; lia|done].
    + rewrite Hk. simpl. split; [done|lia].
    + destruct Hk as [Hk|[Hk|[Hk|[Hk|[Hk|[Hk|Hk]]]]]]; rewrite Hk; simpl;
        (split; [done|lia]).
  - intros Hpos. destruct Hcases as [[Hk Hn]|[Hk|[Hp Hk]]]; [lia| |].
    + rewrite Hk. simpl. eexists. split; [done|]. apply elem_of_cons. by left.
    + destruct Hk as [Hk|[Hk|[Hk|[Hk|[Hk|[Hk|Hk]]]]]]; rewrite Hk; simpl;
        (eexists; split; [done|]); unfold colors;
        repeat (first [apply list_elem_of_here | apply list_elem_of_further]).
  - intros Hpos. by rewrite (Hperiod Hpos).
  - destruct Hcases as [[Hk Hn]|[Hk|[Hp Hk]]].
    + destruct (Z.ltb_spec (Z.rem pid 8) 0); [|lia]. split; [done|lia].
    + rewrite Hk. simpl. split; [by left|done].
    + destruct Hk as [Hk|[Hk|[Hk|[Hk|[Hk|[Hk|Hk]]]]]]; rewrite Hk; simpl;
        (split; [intros [=] | lia]) || (split; [intros _; by right|done]).
Qed.

(** ** The chart *)

Lemma distinct_from {A : Type} `{EqDecision A} (xs seen : list A) :
  NoDup seen ->
  let out := foldl (fun seen x => if decide (x ∈ seen) then seen else seen ++ [x])
               seen xs in
  NoDup out /\ (forall x, x ∈ out <-> x ∈ seen \/ x ∈ xs).
Proof.
  revert seen. induction xs as [|y xs IH]; intros seen Hnd; simpl.
  - split; [done|]. intros x. rewrite elem_of_nil. tauto.
  - destruct (decide (y ∈ seen)) as [Hin|Hout].
    + destruct (IH seen Hnd) as [H1 H2]. split; [done|].
      intros x. rewrite H2, elem_of_cons. intuition (subst; auto).
    + assert (Hnd' : NoDup (seen ++ [y])).
      { apply NoDup_app. split; [done|]. split; [|apply NoDup_singleton].
        intros x Hx Hy. apply list_elem_of_singleton in Hy. by subst. }
      destruct (IH (seen ++ [y]) Hnd') as [H1 H2]. split; [done|].
      intros x. rewrite H2, elem_of_app, list_elem_of_singleton, elem_of_cons.
      tauto.
Qed.

Lemma distinct_spec {A : Type} `{EqDecision A} (xs : list A) :
  NoDup (distinct xs) /\ (forall x, x ∈ distinct xs <-> x ∈ xs).
Proof.
  destruct (distinct_from xs [] (NoDup_nil_2)) as [H1 H2]. split; [done|].
  intros x. unfold distinct. rewrite H2, elem_of_nil. tauto.
Qed.

Lemma distinct_fmap_from {A B : Type} `{EqDecision A} `{EqDecision B} (f : A -> B)
    `{!Inj (=) (=) f} (xs seen : list A) :
  foldl (fun seen x => if decide (x ∈ seen) then seen else seen ++ [x])
    (f <$> seen) (f <$> xs)
  = f <$> foldl (fun seen x => if decide (x ∈ seen) then seen else seen ++ [x])
            seen xs.
Proof.
  revert seen. induction xs as [|y xs IH]; intros seen; simpl; [done|].
  destruct (decide (f y ∈ f <$> seen)) as [Hin|Hout],
           (decide (y ∈ seen)) as [Hin'|Hout'].
  - apply IH.
  - exfalso. apply Hout'. by apply (list_elem_of_fmap_inj f) in Hin.
  - exfalso. apply Hout. by apply list_elem_of_fmap_2.
  - rewrite <- IH. by rewrite fmap_app.
Qed.

Lemma distinct_fmap {A B : Type} `{EqDecision A} `{EqDecision B} (f : A -> B)
    `{!Inj (=) (=) f} (xs : list A) :
  distinct (f <$> xs) = f <$> distinct xs.
Proof. unfold distinct. by rewrite <- (distinct_fmap_from f xs []). Qed.

#[local] Instance process_label_inj : Inj (=) (=) process_label.
Proof.
  intros a b Hab. unfold process_label in Hab.
  apply (inj (String.append "P")) in Hab. by apply (inj pretty) in Hab.
Qed.

(** X9.  [updateGanttChart] leaves the chart as it is on an empty
    timeline.  Otherwise the chart gets one dataset per segment, labelled
    and coloured after the pid of the segment, and the labels of the axis
    are the labels of the pids of the timeline, each once, in the order in
    which the processes first run. *)
Theorem updateGanttChart_labels (s : Segment) (timeline : list Segment)
    (view : GanttView) :
  updateGanttChart [] view = view
  /\ let v := updateGanttChart (s :: timeline) view in
     g_labels v = process_label <$> distinct (seg_pid <$> s :: timeline)
     /\ NoDup (g_labels v)
     /\ (forall pid, process_label pid ∈ g_labels v
                     <-> exists x, x ∈ s :: timeline /\ seg_pid x = pid)
     /\ Forall2 (fun x d => ds_label d = process_label (seg_pid x)
                            /\ ds_x d = (seg_start x, seg_end x)
                            /\ ds_backgroundColor d = getProcessColor (seg_pid x))
          (s :: timeline) (g_datasets v)
     /\ g_noSimulation v = "none".
Proof.
  split; [done|]. intros v.
  assert (Hl : g_labels v = process_label <$> distinct (seg_pid <$> s :: timeline)).
  { unfold v, updateGanttChart. cbn [length Nat.eqb g_labels].
    apply (distinct_fmap process_label). }
  destruct (distinct_spec (seg_pid <$> s :: timeline)) as [Hnd Hin].
  split; [done|]. split; [|split; [|split]].
  - rewrite Hl. by apply (NoDup_fmap_2 process_label).
  - intros pid. rewrite Hl, (list_elem_of_fmap_inj process_label).
    rewrite Hin, list_elem_of_fmap.
    split; intros (x & Hx1 & Hx2); exists x; by split.
  - unfold v, updateGanttChart. cbn [length Nat.eqb g_datasets].
    apply Forall2_fmap_r, Forall_Forall2_diag, Forall_forall. done.
  - done.
Qed.

(** ** Running a simulation from the page *)

Lemma append_nonempty_r (s1 s2 : string) : s2 <> "" -> s1 +:+ s2 <> "".
Proof. intros H2. destruct s1; [done|discriminate]. Qed.

(** [toFixed] never gives the empty string, so that a statistic is never
    shown as '-'. *)
Lemma or_dash_toFixed2 (x : number) : or_dash (Some (toFixed2 x)) = Value (toFixed2 x).
Proof.
  destruct x as [n d| | |]; try done.
  unfold toFixed2. destruct (_ <=? _); [done|].
  match goal with
  | |- or_dash (Some (Text ?str)) = _ =>
      assert (Hne : str <> "");
        [|by destruct str]
  end.
  do 2 apply append_nonempty_r. discriminate.
Qed.

Lemma updateStatistics_calculated (l : list Process) (s : Statistics) :
  calculateStatistics l = Some s ->
  updateStatistics (Some s)
  = mkPanel (Value (avg_turnaround_time s)) (Value (avg_waiting_time s))
      (Value (avg_response_time s)) (Value (throughput s)).
Proof.
  unfold calculateStatistics. destruct (length l =? 0)%nat; [done|].
  intros [= <-]. unfold updateStatistics.
  cbn [fmap option_fmap option_map avg_turnaround_time avg_waiting_time
       avg_response_time throughput].
  by rewrite !or_dash_toFixed2.
Qed.

Lemma simulateScheduling_statistics_source (fuel : nat) (ps : list ProcessInput)
    (algorithm : string) (quantum : option Z) (r : Result) :
  simulateScheduling fuel ps algorithm quantum = Some (Returns r) ->
  exists l, r_statistics r = calculateStatistics l.
Proof.
  unfold simulateScheduling, to_result. intros Hr. repeat case_decide; subst.
  - injection Hr as <-. by eexists.
  - destruct (sjfScheduling fuel _) as [s|] eqn:Hs; [|done]. injection Hr as <-.
    eexists. cbn [r_statistics]. by eapply np_scheduling_statistics.
  - destruct (roundRobinScheduling fuel _ _) as [s|] eqn:Hs; [|done].
    injection Hr as <-. eexists. cbn [r_statistics].
    by apply (rr_scheduling_statistics _ _ _ _ Hs).
  - destruct (priorityScheduling fuel _) as [s|] eqn:Hs; [|done]. injection Hr as <-.
    eexists. cbn [r_statistics]. by eapply np_scheduling_statistics.
  - done.
Qed.

Lemma quantum_or_default_positive (field : option Z) :
  (forall q, field = Some q -> 0 <= q) -> 0 < quantum_or_default field.
Proof.
  intros Hq. unfold quantum_or_default. destruct field as [q|]; [|lia].
  specialize (Hq q eq_refl). destruct (Z.eqb_spec q 0); lia.
Qed.

Lemma simulateScheduling_returns (ps : list ProcessInput) (algorithm : string)
    (quantum : Z) :
  0 < quantum ->
  (algorithm = "rr" -> Forall (fun p => in_burst_time p <= 2 ^ 53) ps) ->
  exists fuel c, simulateScheduling fuel ps algorithm (Some quantum) = Some c
    /\ ((exists msg, c = Throws msg) <->
        algorithm <> "fcfs" /\ algorithm <> "sjf" /\ algorithm <> "rr"
        /\ algorithm <> "priority").
Proof.
  intros Hq Hrr. unfold simulateScheduling, to_result. simpl.
  repeat case_decide; subst.
  - exists 0%nat. eexists. split; [done|]. split; [by intros [? [=]]|]. by intros [? _].
  - destruct (np_scheduling_returns burst_time (processObject <$> ps)) as (fuel & r & Hr).
    exists fuel. eexists. unfold sjfScheduling. rewrite Hr. split; [done|].
    split; [by intros [? [=]]|]. by intros (_ & ? & _).
  - destruct (rr_loop_terminates (processObject <$> ps) quantum Hq) as [st Hst].
    { apply Forall_fmap. eapply Forall_impl; [exact (Hrr eq_refl)|].
      intros p Hp. simpl in *. lia. }
    exists (rr_mu (rr_init (processObject <$> ps))). eexists.
    unfold roundRobinScheduling. rewrite Hst. split; [done|].
    split; [by intros [? [=]]|]. by intros (_ & _ & ? & _).
  - destruct (np_scheduling_returns priority (processObject <$> ps)) as (fuel & r & Hr).
    exists fuel. eexists. unfold priorityScheduling. rewrite Hr. split; [done|].
    split; [by intros [? [=]]|]. by intros (_ & _ & _ & ?).
  - exists 0%nat. eexists. split; [done|]. split; [done|]. intros _. by eexists.
Qed.

(** X10.  When the quantum field holds no number or a number that is not
    negative, and for round robin no burst time exceeds 2^53,
    [runSimulation] comes back.  With no process on the page it
    only warns; with an algorithm name other than the four it reports that
    the simulation failed, and leaves chart and statistics as they were;
    otherwise it shows the result of [simulateScheduling] for the quantum
    of the field (3 when the field holds 0 or no number): the chart is
    updated, the panel shows the four statistics, none of them as '-',
    and the alert names the algorithm. *)
Theorem runSimulation_comes_back (ps : list ProcessInput) (algorithm : string)
    (field : option Z) (page : Page) :
  (forall q, field = Some q -> 0 <= q) ->
  (algorithm = "rr" -> Forall (fun p => in_burst_time p <= 2 ^ 53) ps) ->
  exists fuel page',
    runSimulation fuel ps algorithm field page = Some page'
    /\ (ps = [] ->
        page' = mkPage (page_chart page) (page_statistics page)
                  (Some (mkAlert
                     (Some "Please add some processes before running simulation")
                     "warning")))
    /\ (ps <> [] ->
        algorithm <> "fcfs" /\ algorithm <> "sjf" /\ algorithm <> "rr"
        /\ algorithm <> "priority" ->
        page' = mkPage (page_chart page) (page_statistics page)
                  (Some (mkAlert (Some "Simulation failed. Please try again.")
                     "danger")))
    /\ (ps <> [] ->
        algorithm = "fcfs" \/ algorithm = "sjf" \/ algorithm = "rr"
        \/ algorithm = "priority" ->
        exists r s name,
          simulateScheduling fuel ps algorithm (Some (quantum_or_default field))
            = Some (Returns r)
          /\ r_statistics r = Some s
          /\ getAlgorithmName algorithm = Some name
          /\ page' = mkPage (updateGanttChart (r_timeline r) (page_chart page))
                       (mkPanel (Value (avg_turnaround_time s))
                          (Value (avg_waiting_time s))
                          (Value (avg_response_time s)) (Value (throughput s)))
                       (Some (mkAlert (Some (name +:+ " simulation completed!"))
                          "success"))).
Proof.
  intros Hfield Hrr. pose proof (quantum_or_default_positive field Hfield) as Hq.
  destruct ps as [|p ps].
  { exists 0%nat. eexists. split; [done|]. split; [done|]. split; done. }
  destruct (simulateScheduling_returns (p :: ps) algorithm _ Hq Hrr)
    as (fuel & c & Hc & Hthrow).
  exists fuel. unfold runSimulation. cbn [length Nat.eqb]. rewrite Hc.
  destruct c as [r|msg].
  - eexists. split; [done|]. split; [done|]. split.
    { intros _ Hunknown. exfalso. apply Hthrow in Hunknown as [? [=]]. }
    intros _ Hknown.
    destruct (simulateScheduling_statistics_source _ _ _ _ _ Hc) as [l Hl].
    destruct (r_statistics r) as [s|] eqn:Hs.
    + assert (exists name, getAlgorithmName algorithm = Some name) as [name Hname].
      { unfold getAlgorithmName.
        destruct Hknown as [-> | [-> | [-> | ->]]]; repeat case_decide; by eauto. }
      exists r, s, name. split; [done|]. split; [done|]. split; [done|].
      rewrite Hname. simpl. f_equal. by apply (updateStatistics_calculated l).
    + exfalso.
      destruct (simulateScheduling_result_shape _ _ _ _ _ Hc) as ([Hnone _] & _).
      by specialize (Hnone Hs).
  - eexists. split; [done|]. split; [done|]. split; [done|].
    intros _ Hknown. exfalso.
    assert (exists m, @Throws Result msg = Throws m) as Hex by eauto.
    apply Hthrow in Hex as (H1 & H2 & H3 & H4).
    destruct Hknown as [? | [? | [? | ?]]]; done.
Qed.

Lemma runSimulation_comes_back_witness :
  let page := mkPage (mkGantt [] [] "block") (mkPanel Dash Dash Dash Dash) None in
  let ps := [mkInput 1 0 5 1; mkInput 2 1 3 1] in
  (forall q, Some 0 = Some q -> 0 <= q)
  /\ ("rr" = "rr" -> Forall (fun p => in_burst_time p <= 2 ^ 53) ps)
  /\ exists fuel page' r s name,
       runSimulation fuel ps "rr" (Some 0) page = Some page'
       /\ simulateScheduling fuel ps "rr" (Some 3) = Some (Returns r)
       /\ r_statistics r = Some s
       /\ getAlgorithmName "rr" = Some name
       /\ page' = mkPage (updateGanttChart (r_timeline r) (page_chart page))
                    (mkPanel (Value (avg_turnaround_time s))
                       (Value (avg_waiting_time s))
                       (Value (avg_response_time s)) (Value (throughput s)))
                    (Some (mkAlert (Some (name +:+ " simulation completed!"))
                       "success")).
Proof.
  intros page ps.
  assert (Hq : forall q, Some 0 = Some q -> 0 <= q).
  { intros q Heq. injection Heq as <-. lia. }
  assert (Hb : "rr" = "rr" -> Forall (fun p => in_burst_time p <= 2 ^ 53) ps).
  { intros _. repeat (apply Forall_cons_2; [simpl; lia|]). apply Forall_nil_2. }
  split; [exact Hq|]. split; [exact Hb|].
  destruct (runSimulation_comes_back ps "rr" (Some 0) page Hq Hb)
    as (fuel & page' & Hrun & _ & _ & Hshown).
  destruct Hshown as (r & s & name & H1 & H2 & H3 & H4).
  { discriminate. }
  { right. right. left. reflexivity. }
  exists fuel, page', r, s, name.
  split; [exact Hrun|]. split; [exact H1|]. split; [exact H2|].
  split; [exact H3|exact H4].
Defined.

(** ** Validation in the dialogs *)

Lemma checked_Some (x : option Z) (bad : Z -> bool) (z : Z) :
  checked x bad = Some z <-> x = Some z /\ bad z = false.
Proof.
  unfold checked. destruct x as [y|]; [|split; [done|by intros [? _]]].
  destruct (bad y) eqn:Hb; split.
  - done.
  - intros [[= ->] Hz]. congruence.
  - intros [= ->]. done.
  - intros [[= ->] _]. done.
Qed.

(** X11.  [editProcess] sends an update to the server exactly when the
    three prompts are answered with numbers such that the arrival time is
    not negative, the burst time is at least 1 and the priority lies
    between 1 and 10, and it sends these numbers with the id of the
    process; it gives up without a message exactly when a prompt is
    cancelled. *)
Theorem editProcess_submits_valid (processId : Z) (a b p : answer) :
  (forall u, editProcess processId a b p = Submitted u <->
     a = Entered (Some (pu_arrivalTime u)) /\ b = Entered (Some (pu_burstTime u))
     /\ p = Entered (Some (pu_priority u)) /\ pu_processId u = processId
     /\ 0 <= pu_arrivalTime u /\ 1 <= pu_burstTime u
     /\ 1 <= pu_priority u <= 10)
  /\ (editProcess processId a b p = Abandoned <->
      a = Cancelled \/ b = Cancelled \/ p = Cancelled).
Proof.
  split.
  - intros [i ua ub up]. cbn [pu_arrivalTime pu_burstTime pu_priority pu_processId].
    unfold editProcess.
    destruct a as [|a]; [split; [done|by intros [? _]]|].
    destruct b as [|b]; [split; [done|by intros (_ & ? & _)]|].
    destruct p as [|p]; [split; [done|by intros (_ & _ & ? & _)]|].
    destruct (checked a _) as [a'|] eqn:Ha.
    2:{ split; [done|]. intros ([= ->] & _ & _ & _ & H0 & _).
        assert (checked (Some ua) (fun z => z <? 0) = Some ua) as Hc; [|congruence].
        apply checked_Some. split; [done|]. lia. }
    apply checked_Some in Ha as [-> Ha].
    destruct (checked b _) as [b'|] eqn:Hb.
    2:{ split; [done|]. intros (_ & [= ->] & _ & _ & _ & H1 & _).
        assert (checked (Some ub) (fun z => z <? 1) = Some ub) as Hc; [|congruence].
        apply checked_Some. split; [done|]. lia. }
    apply checked_Some in Hb as [-> Hb].
    destruct (checked p _) as [p'|] eqn:Hp.
    2:{ split; [done|]. intros (_ & _ & [= ->] & _ & _ & _ & H1).
        assert (checked (Some up) (fun z => (z <? 1) || (10 <? z)) = Some up) as Hc;
          [|congruence].
        apply checked_Some. split; [done|]. lia. }
    apply checked_Some in Hp as [-> Hp].
    split.
    + intros [= <- <- <- <-]. repeat split; try done; lia.
    + intros ([= <-] & [= <-] & [= <-] & <- & _). done.
  - unfold editProcess.
    destruct a as [|a]; [split; [by left|done]|].
    destruct b as [|b]; [split; [by right; left|done]|].
    destruct p as [|p]; [split; [by right; right|done]|].
    destruct (checked a _); [|split; [done|by intros [?|[?|?]]]].
    destruct (checked b _); [|split; [done|by intros [?|[?|?]]]].
    destruct (checked p _); split; (done || by intros [?|[?|?]]).
Qed.

(** X12.  [editDiskRequest] sends an update to the server exactly when
    both prompts are answered with numbers such that the track lies
    between 0 and 199 and the arrival time is not negative, and it sends
    these numbers with the id of the request. *)
Theorem editDiskRequest_submits_valid (requestId : Z) (t a : answer) (u : DiskUpdate) :
  editDiskRequest requestId t a = Submitted u <->
  t = Entered (Some (du_trackNumber u)) /\ a = Entered (Some (du_arrivalTime u))
  /\ du_requestId u = requestId
  /\ 0 <= du_trackNumber u <= 199 /\ 0 <= du_arrivalTime u.
Proof.
  destruct u as [i ut ua]. cbn [du_trackNumber du_arrivalTime du_requestId].
  unfold editDiskRequest.
  destruct t as [|t]; [split; [done|by intros [? _]]|].
  destruct a as [|a]; [split; [done|by intros (_ & ? & _)]|].
  destruct (checked t _) as [t'|] eqn:Ht.
  2:{ split; [done|]. intros ([= ->] & _ & _ & H0 & _).
      assert (checked (Some ut) (fun z => (z <? 0) || (199 <? z)) = Some ut) as Hc;
        [|congruence].
      apply checked_Some. split; [done|]. lia. }
  apply checked_Some in Ht as [-> Ht].
  destruct (checked a _) as [a'|] eqn:Ha.
  2:{ split; [done|]. intros (_ & [= ->] & _ & _ & H0).
      assert (checked (Some ua) (fun z => z <? 0) = Some ua) as Hc; [|congruence].
      apply checked_Some. split; [done|]. lia. }
  apply checked_Some in Ha as [-> Ha].
  split.
  - intros [= <- <- <-]. repeat split; try done; lia.
  - intros ([= <-] & [= <-] & <- & _). done.
Qed.

(** X13.  [runDiskSimulation] posts a simulation request exactly when
    there is a disk request on the page and the head field holds a number
    between 0 and 199; the request carries the algorithm, the head
    position and the direction of the form and the disk size 200, so that
    the head position lies on the disk. *)
Theorem runDiskSimulation_posts_valid (diskRequests : nat) (algorithm : string)
    (initialHead : option Z) (direction : string) (req : SimulateRequest) :
  runDiskSimulation diskRequests algorithm initialHead direction = Submitted req <->
  diskRequests <> 0%nat
  /\ initialHead = Some (sr_initial_head_position req)
  /\ req = mkSimulateRequest algorithm (sr_initial_head_position req) direction 200
  /\ 0 <= sr_initial_head_position req < sr_disk_size req.
Proof.
  destruct req as [ra rh rd rs]. cbn [sr_initial_head_position sr_disk_size].
  unfold runDiskSimulation.
  destruct diskRequests as [|n]; cbn [Nat.eqb]; [split; [done|by intros [? _]]|].
  destruct (checked initialHead _) as [h|] eqn:Hh.
  - apply checked_Some in Hh as [-> Hh]. split.
    + intros [= <- <- <- <-]. repeat split; try done; lia.
    + intros (_ & [= ->] & [= -> -> ->] & _). done.
  - split; [done|]. intros (_ & -> & [= -> -> ->] & H0).
    assert (checked (Some rh) (fun z => (z <? 0) || (199 <? z)) = Some rh) as Hc;
      [|congruence].
    apply checked_Some. split; [done|]. lia.
Qed.

(** * Further properties of round robin *)

(** ** A process that is never queued *)

Lemma max_defined_undefined (xs : list (option Z)) :
  None ∈ xs -> max_defined xs = None.
Proof.
  induction xs as [|x xs IH]; intros Hin; [by apply not_elem_of_nil in Hin|].
  destruct x as [z|]; simpl; [|done].
  apply elem_of_cons in Hin as [Hin|Hin]; [done|]. by rewrite IH.
Qed.

Lemma sum_field_from_NaN (xs : list (option Z)) :
  foldl (fun sum x => match sum, x with
                      | Some s, Some v => Some (js_add s v)
                      | _, _ => None
                      end) None xs = None.
Proof. induction xs as [|x xs IH]; simpl; [done|]. exact IH. Qed.

Lemma sum_field_undefined (xs : list (option Z)) :
  None ∈ xs -> sum_field xs = None.
Proof.
  unfold sum_field. generalize 0. induction xs as [|x xs IH]; intros a Hin.
  - by apply not_elem_of_nil in Hin.
  - destruct x as [z|]; simpl.
    + apply elem_of_cons in Hin as [Hin|Hin]; [done|]. by apply IH.
    + apply sum_field_from_NaN.
Qed.

(** Statistics of a non-empty list that holds a process without result
    fields. *)
Lemma calculateStatistics_undefined (l : list Process) (p : Process) :
  p ∈ l -> completion_time p = None -> turnaround_time p = None ->
  waiting_time p = None ->
  calculateStatistics l
  = Some (mkStatistics (Text "NaN") (Text "NaN") (Text "NaN") NaN (Text "NaN")).
Proof.
  intros Hp Hc Ht Hw. unfold calculateStatistics.
  assert ((length l =? 0)%nat = false) as ->.
  { destruct l; [by apply not_elem_of_nil in Hp|done]. }
  assert (Math_max (completion_time <$> l) = NaN) as ->.
  { unfold Math_max. rewrite max_defined_undefined; [done|].
    rewrite <- Hc. by apply list_elem_of_fmap_2. }
  rewrite (sum_field_undefined (turnaround_time <$> l))
    by (rewrite <- Ht; by apply list_elem_of_fmap_2).
  rewrite (sum_field_undefined (waiting_time <$> l))
    by (rewrite <- Hw; by apply list_elem_of_fmap_2).
  done.
Qed.

Lemma rr_passes_never_queued (ps : list Process) (quantum : Z) (st : rr_state)
    (i : nat) :
  (i < length ps)%nat -> burst_time (ps !!! i) <= 0 -> arrival_time (ps !!! i) <> 0 ->
  passes rr_cond (rr_body quantum) (rr_init ps) st ->
  (i ∉ rr_queue st)
  /\ rr_store st !!! i = set_remaining (ps !!! i) (burst_time (ps !!! i)).
Proof.
  intros Hi Hb Ha Hp.
  assert (rr_inv ps st /\ (i ∉ rr_queue st)
          /\ rr_store st !!! i = set_remaining (ps !!! i) (burst_time (ps !!! i)))
    as (_ & H); [|done].
  revert Hp.
  apply (passes_invariant rr_cond (rr_body quantum)
    (fun s => rr_inv ps s /\ (i ∉ rr_queue s)
       /\ rr_store s !!! i = set_remaining (ps !!! i) (burst_time (ps !!! i)))).
  - split; [apply rr_inv_init|]. unfold rr_init. simpl.
    rewrite (list_lookup_total_fmap (fun p => set_remaining p (burst_time p)) ps i Hi).
    split; [|done]. intros Hin. apply list_elem_of_filter in Hin as [Hin _].
    rewrite (list_lookup_total_fmap (fun p => set_remaining p (burst_time p)) ps i Hi)
      in Hin.
    simpl in Hin. done.
  - intros s (Hinv & Hq & Hs) _. split; [by apply rr_inv_body|].
    destruct (rr_body_cases quantum s)
      as [(current & rest & Hr & ->)|(_ & Hqu & _ & ->)].
    + assert (Hnot : i ∉ current :: rest).
      { rewrite <- Hr, rr_ready_app. intros Hin.
        apply elem_of_app in Hin as [Hin|Hin]; [done|].
        apply rr_arrivals_elem in Hin as (_ & _ & Hrem & _).
        rewrite Hs in Hrem. simpl in Hrem. lia. }
      rewrite elem_of_cons in Hnot.
      assert (Hne : current <> i) by (intros ->; apply Hnot; by left).
      unfold rr_dispatch. simpl. destruct (_ =? 0); simpl;
        rewrite list_lookup_total_insert_ne by done.
      * split; [|done]. intros Hin. apply Hnot. by right.
      * split; [|done]. rewrite elem_of_app, list_elem_of_singleton.
        intros [Hin| ->]; [|done]. apply Hnot. by right.
    + unfold rr_jump. destruct (Math_min _); simpl; (split; [apply not_elem_of_nil|done]).
Qed.

(** X14.  Round robin never runs a process whose burst time is not
    positive unless it arrives at time 0: such a process is never queued
    and keeps its result fields undefined, so that whenever
    [simulateScheduling] returns for "rr" on a process set that holds one,
    total_time is NaN and the four statistics read "NaN". *)
Theorem round_robin_skips_idle_late_arrival (fuel : nat) (ps : list ProcessInput)
    (quantum : option Z) (r : Result) (p : ProcessInput) :
  p ∈ ps -> in_burst_time p <= 0 -> in_arrival_time p <> 0 ->
  simulateScheduling fuel ps "rr" quantum = Some (Returns r) ->
  r_statistics r
  = Some (mkStatistics (Text "NaN") (Text "NaN") (Text "NaN") NaN (Text "NaN")).
Proof.
  intros Hp Hb Ha Hr. unfold simulateScheduling, to_result in Hr.
  repeat case_decide; try done.
  unfold roundRobinScheduling in Hr.
  destruct (while _ _ _ _) as [st|] eqn:Hst; [|done]. simpl in Hr.
  injection Hr as <-. cbn [r_statistics statistics rr_finish].
  apply while_passes with (s0 := rr_init (processObject <$> ps)) in Hst as [Hpass _];
    [|constructor].
  apply list_elem_of_lookup in Hp as [i Hi].
  assert (Hlt : (i < length (processObject <$> ps))%nat).
  { rewrite length_fmap. by eapply lookup_lt_Some. }
  assert (Hobj : (processObject <$> ps) !!! i = processObject p).
  { apply list_lookup_total_correct. by rewrite list_lookup_fmap, Hi. }
  destruct (rr_passes_never_queued (processObject <$> ps) (default 3 quantum) st i Hlt)
    as [_ Hs]; [by rewrite Hobj|by rewrite Hobj|done|].
  rewrite Hobj in Hs.
  pose proof (rr_passes_inv _ _ _ Hpass) as (Hlen & _).
  apply (calculateStatistics_undefined _ (rr_store st !!! i)).
  - apply list_elem_of_lookup. exists i. apply list_lookup_lookup_total_lt. lia.
  - by rewrite Hs.
  - by rewrite Hs.
  - by rewrite Hs.
Qed.

Lemma round_robin_skips_idle_late_arrival_witness :
  let p := mkInput 1 5 0 1 in
  let r := mkResult []
             (Some (mkStatistics (Text "NaN") (Text "NaN") (Text "NaN") NaN
                      (Text "NaN"))) in
  p ∈ [p] /\ in_burst_time p <= 0 /\ in_arrival_time p <> 0
  /\ simulateScheduling 0 [p] "rr" None = Some (Returns r)
  /\ r_statistics r
     = Some (mkStatistics (Text "NaN") (Text "NaN") (Text "NaN") NaN (Text "NaN")).
Proof.
  intros p r.
  assert (H1 : p ∈ [p]) by apply list_elem_of_here.
  assert (H2 : in_burst_time p <= 0) by (simpl; lia).
  assert (H3 : in_arrival_time p <> 0) by (simpl; lia).
  assert (H4 : simulateScheduling 0 [p] "rr" None = Some (Returns r)) by reflexivity.
  split; [exact H1|]. split; [exact H2|]. split; [exact H3|]. split; [exact H4|].
  exact (round_robin_skips_idle_late_arrival 0 [p] None r p H1 H2 H3 H4).
Defined.

(** ** The order of the ready queue *)

(** The processes picked up at the top of an iteration are exactly those
    that have arrived, have time left to run and are not queued, in the
    order of the input list. *)
Lemma rr_arrivals_spec (ps : list Process) (st : rr_state) :
  rr_inv ps st ->
  StronglySorted lt (rr_arrivals st)
  /\ forall i, i ∈ rr_arrivals st <->
       (i < length ps)%nat
       /\ arrival_time (ps !!! i) <= rr_currentTime st
       /\ 0 < remaining_time (rr_store st !!! i)
       /\ i ∉ rr_queue st.
Proof.
  intros (Hlen & _ & _ & Hid).
  split; [apply StronglySorted_filter_keep, seq_sorted|].
  intros i. rewrite rr_arrivals_elem, Hlen.
  split; intros (Hi & Ha & Hrest); (split; [done|]); (split; [|done]);
    pose proof (Hid i Hi) as Hident; unfold identity_of in Hident;
    injection Hident as _ Harr _ _; lia.
Qed.

(** X15.  At a dispatch of round robin the ready queue is the queue left
    by the last iteration followed by the processes picked up now: exactly
    those that have arrived, still have time to run and are not queued,
    in the order of the input list; its head is dispatched.  A process
    that is not finished by its slice goes to the tail before the next
    arrivals are picked up, so it runs again ahead of the processes that
    arrived during its slice; a finished one leaves the queue. *)
Theorem round_robin_queue_order (ps : list Process) (quantum : Z) (st : rr_state)
    (current : nat) (rest : list nat) :
  passes rr_cond (rr_body quantum) (rr_init ps) st ->
  rr_ready st = current :: rest ->
  let st' := rr_body quantum st in
  (exists arrivals,
     rr_ready st = rr_queue st ++ arrivals
     /\ StronglySorted lt arrivals
     /\ forall i, i ∈ arrivals <->
          (i < length ps)%nat
          /\ arrival_time (ps !!! i) <= rr_currentTime st
          /\ 0 < remaining_time (rr_store st !!! i)
          /\ i ∉ rr_queue st)
  /\ (remaining_time (rr_store st' !!! current) <> 0 ->
      rr_queue st' = rest ++ [current]
      /\ exists arrivals',
           rr_ready st' = rest ++ [current] ++ arrivals'
           /\ StronglySorted lt arrivals'
           /\ forall i, i ∈ arrivals' <->
                (i < length ps)%nat
                /\ arrival_time (ps !!! i) <= rr_currentTime st'
                /\ 0 < remaining_time (rr_store st' !!! i)
                /\ i ∉ rest ++ [current])
  /\ (remaining_time (rr_store st' !!! current) = 0 -> rr_queue st' = rest).
Proof.
  intros Hp Hr st'.
  pose proof (rr_passes_inv ps quantum st Hp) as Hinv.
  pose proof (rr_inv_body ps quantum st Hinv) as Hinv'. fold st' in Hinv'.
  pose proof Hinv as (Hlen & Hnd & Hlt & Hid).
  split.
  { exists (rr_arrivals st). split; [apply rr_ready_app|].
    by apply rr_arrivals_spec. }
  assert (Hc : (current < length (rr_store st))%nat).
  { rewrite Hlen. apply (rr_ready_index ps st); [done|]. rewrite Hr. by left. }
  assert (Hq' : rr_queue st' = if remaining_time (rr_store st' !!! current) =? 0
                               then rest else rest ++ [current]).
  { unfold st', rr_body. fold (rr_ready st). rewrite Hr. unfold rr_dispatch.
    cbn [remaining_time set_remaining].
    destruct (Z.eqb_spec (js_sub (remaining_time (rr_store st !!! current))
                            (Z.min quantum (remaining_time (rr_store st !!! current)))) 0)
      as [Hz|Hnz]; cbn [rr_store rr_queue];
      rewrite list_lookup_total_insert_eq by done; simpl.
    - by rewrite Hz.
    - by destruct (Z.eqb_spec (js_sub (remaining_time (rr_store st !!! current))
                          (Z.min quantum (remaining_time (rr_store st !!! current)))) 0). }
  split.
  - intros Hne. destruct (Z.eqb_spec (remaining_time (rr_store st' !!! current)) 0);
      [done|].
    split; [done|]. exists (rr_arrivals st').
    split; [by rewrite rr_ready_app, Hq', <- app_assoc|].
    destruct (rr_arrivals_spec ps st' Hinv') as [Hsorted Hiff].
    split; [done|]. intros i. rewrite Hiff, Hq'. done.
  - intros Hz. by rewrite Hz in Hq'.
Qed.

Lemma round_robin_queue_order_witness :
  let ps := tie_example in
  let st := rr_init ps in
  passes rr_cond (rr_body 2) (rr_init ps) st
  /\ rr_ready st = [0%nat]
  /\ (remaining_time (rr_store (rr_body 2 st) !!! 0%nat) <> 0 ->
      rr_queue (rr_body 2 st) = [] ++ [0%nat]).
Proof.
  intros ps st.
  assert (Hp : passes rr_cond (rr_body 2) (rr_init ps) st) by apply passes_start.
  assert (Hr : rr_ready st = [0%nat]) by reflexivity.
  split; [exact Hp|]. split; [exact Hr|].
  intros Hne.
  exact (proj1 (proj1 (proj2 (round_robin_queue_order ps 2 st 0%nat [] Hp Hr)) Hne)).
Defined.

(** ** A quantum that covers every burst *)

Section CoveringQuantum.
Variable ps : list Process.
Variable quantum : Z.
Hypothesis Hcover : Forall (fun p => 0 < burst_time p <= quantum) ps.

Lemma rr_passes_single_runs (st : rr_state) :
  passes rr_cond (rr_body quantum) (rr_init ps) st ->
  rr_inv ps st
  /\ (forall i, (i < length ps)%nat ->
        remaining_time (rr_store st !!! i) = 0
        \/ remaining_time (rr_store st !!! i) = burst_time (ps !!! i))
  /\ (forall i, i ∈ rr_queue st -> 0 < remaining_time (rr_store st !!! i))
  /\ exists ran : list nat,
       NoDup ran
       /\ (forall i, i ∈ ran <-> (i < length ps)%nat
                                 /\ remaining_time (rr_store st !!! i) = 0)
       /\ (fun s => (seg_pid s, seg_duration s)) <$> rr_timeline st
          = (fun i => (pid (ps !!! i), burst_time (ps !!! i))) <$> ran.
Proof.
  apply (passes_invariant rr_cond (rr_body quantum)
    (fun s => rr_inv ps s
       /\ (forall i, (i < length ps)%nat ->
             remaining_time (rr_store s !!! i) = 0
             \/ remaining_time (rr_store s !!! i) = burst_time (ps !!! i))
       /\ (forall i, i ∈ rr_queue s -> 0 < remaining_time (rr_store s !!! i))
       /\ exists ran : list nat,
            NoDup ran
            /\ (forall i, i ∈ ran <-> (i < length ps)%nat
                                      /\ remaining_time (rr_store s !!! i) = 0)
            /\ (fun s => (seg_pid s, seg_duration s)) <$> rr_timeline s
               = (fun i => (pid (ps !!! i), burst_time (ps !!! i))) <$> ran)).
  - assert (Hinit : forall i, (i < length ps)%nat ->
              remaining_time (rr_store (rr_init ps) !!! i) = burst_time (ps !!! i)
              /\ 0 < burst_time (ps !!! i)).
    { intros i Hi. unfold rr_init. simpl.
      rewrite (list_lookup_total_fmap (fun p => set_remaining p (burst_time p)) ps i Hi).
      simpl. pose proof (Forall_lookup_total_1 _ _ i Hcover Hi) as Hb. simpl in Hb.
      split; [done|lia]. }
    split; [apply rr_inv_init|]. split; [|split].
    + intros i Hi. right. by apply Hinit.
    + intros i Hi. pose proof (rr_inv_init ps) as (_ & _ & Hlt & _).
      destruct (Hinit i (Hlt i Hi)) as [-> ?]. done.
    + exists []. split; [constructor|]. split; [|done].
      intros i. rewrite elem_of_nil. split; [done|]. intros [Hi Hz].
      destruct (Hinit i Hi). lia.
  - intros s (Hinv & Hrem & Hqpos & ran & Hnd & Hran & Htl) Hc.
    split; [by apply rr_inv_body|].
    pose proof Hinv as (Hlen & Hndq & Hlt & Hid).
    destruct (rr_body_cases quantum s)
      as [(current & rest & Hr & ->)|(_ & Hqu & Ha & ->)].
    + assert (Hcur : (current < length ps)%nat).
      { apply (rr_ready_index ps s); [done|]. rewrite Hr. by left. }
      pose proof (rr_ready_NoDup s Hndq) as Hnd1. rewrite Hr in Hnd1.
      apply NoDup_cons in Hnd1 as [Hnotin _].
      assert (Hpos : forall i, i ∈ current :: rest ->
                0 < remaining_time (rr_store s !!! i)).
      { intros i Hi. rewrite <- Hr, rr_ready_app in Hi.
        apply elem_of_app in Hi as [Hi|Hi]; [by apply Hqpos|].
        by apply rr_arrivals_elem in Hi as (_ & _ & Hi & _). }
      pose proof (Hpos current (list_elem_of_here _ _)) as Hpc.
      destruct (Hrem current Hcur) as [Hz|Hfull]; [lia|].
      pose proof (Forall_lookup_total_1 _ _ current Hcover Hcur) as Hb. simpl in Hb.
      pose proof (Hid current Hcur) as Hident. unfold identity_of in Hident.
      injection Hident as Hpid _ _ _.
      unfold rr_dispatch. simpl. rewrite Hfull, Z.min_r by lia.
      rewrite js_sub_diag. simpl.
      split; [|split].
      * intros i Hi. destruct (decide (i = current)) as [->|Hne].
        -- rewrite list_lookup_total_insert_eq by lia. by left.
        -- rewrite list_lookup_total_insert_ne by done. by apply Hrem.
      * intros i Hi. rewrite list_lookup_total_insert_ne by (intros ->; done).
        apply Hpos. by right.
      * exists (ran ++ [current]). split; [|split].
        -- apply NoDup_app. split; [done|]. split; [|apply NoDup_singleton].
           intros i Hi Hi'. apply list_elem_of_singleton in Hi'. subst i.
           apply Hran in Hi as [_ Hi]. lia.
        -- intros i. rewrite elem_of_app, list_elem_of_singleton.
           destruct (decide (i = current)) as [->|Hne].
           ++ rewrite list_lookup_total_insert_eq by lia. simpl. tauto.
           ++ rewrite list_lookup_total_insert_ne by done. rewrite Hran. tauto.
        -- rewrite !fmap_app, Htl. simpl. by rewrite Hpid.
    + unfold rr_jump. destruct (Math_min _); simpl;
        (split; [done|]; split; [intros i Hi; by apply not_elem_of_nil in Hi|];
         by exists ran).
Qed.

Lemma rr_single_runs_result :
  exists r, returns (fun fuel => roundRobinScheduling fuel ps quantum) r
    /\ (fun s => (seg_pid s, seg_duration s)) <$> timeline r
       ≡ₚ (fun p => (pid p, burst_time p)) <$> ps.
Proof.
  assert (Hq : 0 < quantum \/ ps = []).
  { destruct ps as [|p l]; [by right|]. left.
    apply Forall_cons in Hcover as [Hp _]. lia. }
  destruct Hq as [Hq | ->].
  2:{ exists (rr_finish (rr_init [])). split; [by exists 0%nat|done]. }
  destruct (rr_loop_terminates ps quantum Hq) as [st Hst].
  { eapply Forall_impl; [exact Hcover|]. intros p Hp. simpl in Hp. lia. }
  exists (rr_finish st). split.
  { exists (rr_mu (rr_init ps)). unfold roundRobinScheduling. by rewrite Hst. }
  apply while_passes with (s0 := rr_init ps) in Hst as [Hp Hc]; [|constructor].
  destruct (rr_passes_single_runs st Hp) as (Hinv & Hrem & _ & ran & Hnd & Hran & Htl).
  destruct Hinv as (Hlen & _).
  apply rr_cond_false in Hc as [_ Hle]. rewrite Hlen in Hle.
  assert (Hall : ran ≡ₚ seq 0 (length ps)).
  { apply indices_complete; [done|intros i Hi; by apply Hran in Hi as [? _]|].
    assert (seq 0 (length ps) ⊆+ ran) as Hsub.
    { apply NoDup_submseteq; [apply NoDup_seq|]. intros i Hi%elem_of_seq.
      apply Hran. split; [lia|].
      destruct (Hrem i ltac:(lia)) as [Hz|Hfull]; [done|].
      pose proof (Forall_lookup_total_1 _ _ i Hcover ltac:(lia)) as Hb. simpl in Hb.
      specialize (Hle i ltac:(lia)). lia. }
    apply submseteq_length in Hsub. by rewrite length_seq in Hsub. }
  simpl. rewrite Htl, Hall.
  by rewrite (fmap_via_indices (fun p => (pid p, burst_time p)) ps).
Qed.

End CoveringQuantum.

(** X16.  When every burst time is positive and no greater than the
    quantum, round robin does not preempt: it returns, and its timeline
    has exactly one segment per process, which lasts for the whole burst
    time of the process. *)
Theorem round_robin_covering_quantum (ps : list Process) (quantum : Z) :
  Forall (fun p => 0 < burst_time p <= quantum) ps ->
  exists r, returns (fun fuel => roundRobinScheduling fuel ps quantum) r
    /\ (fun s => (seg_pid s, seg_duration s)) <$> timeline r
       ≡ₚ (fun p => (pid p, burst_time p)) <$> ps.
Proof. apply rr_single_runs_result. Qed.

Lemma round_robin_covering_quantum_witness :
  Forall (fun p => 0 < burst_time p <= 5) tie_example
  /\ exists r, returns (fun fuel => roundRobinScheduling fuel tie_example 5) r
       /\ (fun s => (seg_pid s, seg_duration s)) <$> timeline r
          ≡ₚ (fun p => (pid p, burst_time p)) <$> tie_example.
Proof.
  assert (H : Forall (fun p => 0 < burst_time p <= 5) tie_example).
  { unfold tie_example. repeat (apply Forall_cons_2; [simpl; lia|]). apply Forall_nil_2. }
  split; [exact H|]. exact (round_robin_covering_quantum tie_example 5 H).
Defined.

(** ** No run before arrival, no empty slice *)

(** X17.  With positive burst times and a positive quantum, round robin
    dispatches a process only after it has arrived and only when it has
    time left to run: at every dispatch the current time is no earlier
    than the arrival time of the dispatched process, its remaining time
    is positive and no greater than its burst time, and the segment added
    carries its pid and lasts for at least one time unit. *)
Theorem round_robin_dispatches_arrived (ps : list Process) (quantum : Z)
    (st : rr_state) (current : nat) (rest : list nat) :
  Forall (fun p => 0 < burst_time p) ps -> 0 < quantum ->
  passes rr_cond (rr_body quantum) (rr_init ps) st ->
  rr_ready st = current :: rest ->
  (current < length ps)%nat
  /\ arrival_time (ps !!! current) <= rr_currentTime st
  /\ 0 < remaining_time (rr_store st !!! current) <= burst_time (ps !!! current)
  /\ exists d, 1 <= d
       /\ rr_timeline (rr_body quantum st)
          = rr_timeline st
            ++ [mkSegment (pid (ps !!! current)) (rr_currentTime st)
                  (js_add (rr_currentTime st) d) d].
Proof.
  intros Hb Hq Hp Hr.
  destruct (rr_passes_order ps quantum Hb Hq st Hp) as [Hinv Hord].
  pose proof Hinv as (Hlen & Hnd & Hlt & Hid).
  assert (Hin : current ∈ rr_ready st) by (rewrite Hr; by left).
  pose proof (rr_ready_index ps st current Hinv Hin) as Hcur.
  destruct (rr_ready_order ps st current Hinv Hord Hin) as [Harr Hrem].
  destruct Hord as (_ & Hper). destruct (Hper current Hcur) as (Hrange & _).
  simpl in Hrange.
  pose proof (Hid current Hcur) as Hident. unfold identity_of in Hident.
  injection Hident as Hpid Ha Hbu _.
  split; [done|]. split; [lia|]. split; [lia|].
  exists (Z.min quantum (remaining_time (rr_store st !!! current))).
  split; [lia|].
  pose proof (rr_body_timeline quantum st) as Ht. rewrite Hr in Ht. cbv zeta in Ht.
  by rewrite Ht, Hpid.
Qed.

Lemma round_robin_dispatches_arrived_witness :
  let ps := tie_example in
  let st := rr_init ps in
  Forall (fun p => 0 < burst_time p) ps /\ 0 < 2
  /\ passes rr_cond (rr_body 2) (rr_init ps) st
  /\ rr_ready st = [0%nat]
  /\ (0 < length ps)%nat
  /\ arrival_time (ps !!! 0%nat) <= rr_currentTime st.
Proof.
  intros ps st.
  assert (Hq : 0 < 2) by lia.
  assert (Hp : passes rr_cond (rr_body 2) (rr_init ps) st) by apply passes_start.
  assert (Hr : rr_ready st = [0%nat]) by reflexivity.
  split; [exact positive_bursts_tie_example|]. split; [exact Hq|].
  split; [exact Hp|]. split; [exact Hr|].
  pose proof (round_robin_dispatches_arrived ps 2 st 0%nat []
                positive_bursts_tie_example Hq Hp Hr) as (H1 & H2 & _).
  split; [exact H1|exact H2].
Defined.

(** ** The total time and the end of the timeline *)

Lemma chained_ends_before_last (t : Z) (l : list Segment) (s : Segment) :
  chained t l -> s ∈ l -> seg_end s <= last_end t l.
Proof.
  revert t. induction l as [|x l IH] using rev_ind; intros t Hc Hs.
  - by apply not_elem_of_nil in Hs.
  - rewrite last_end_snoc. apply elem_of_app in Hs as [Hs|Hs].
    + assert (Hpre : chained t l /\ last_end t l <= seg_start x
                     /\ seg_start x <= seg_end x).
      { clear IH Hs. revert t Hc. induction l as [|y l IHl]; intros t Hc; simpl in *.
        - unfold last_end. simpl. tauto.
        - destruct Hc as (H1 & H2 & H3). destruct (IHl _ H3) as (H4 & H5 & H6).
          unfold last_end in *. simpl. tauto. }
      destruct Hpre as (Hcl & Hle & Hx). specialize (IH t Hcl Hs). lia.
    + apply list_elem_of_singleton in Hs. by subst.
Qed.

Lemma last_end_is_an_end (t : Z) (l : list Segment) :
  l <> [] -> exists s, s ∈ l /\ last_end t l = seg_end s.
Proof.
  destruct l as [|x l] using rev_ind; [done|]. intros _. exists x.
  split; [apply elem_of_app; right; by left|apply last_end_snoc].
Qed.

(** The greatest completion time of the processes of a non-preemptive
    schedule in time order is the end of its last segment. *)
Lemma total_time_is_last_end (procs : list Process) (tl : list Segment) :
  procs <> [] -> Forall2 segment_of procs tl -> chained 0 tl ->
  Math_max (completion_time <$> procs) = of_Z (last_end 0 tl).
Proof.
  intros Hne Hseg Hch.
  assert (Hc : Forall (fun p => is_Some (completion_time p)) procs).
  { apply Forall_forall. intros p Hp. apply list_elem_of_lookup in Hp as [i Hi].
    destruct (Forall2_lookup_l _ _ _ _ _ Hseg Hi) as (s & _ & Hs).
    destruct Hs as (_ & _ & _ & _ & ->). eauto. }
  destruct (Math_max_completed procs Hne Hc) as (T & -> & (pT & HpT & HcT) & Hle).
  f_equal. apply Z.le_antisymm.
  - apply list_elem_of_lookup in HpT as [i Hi].
    destruct (Forall2_lookup_l _ _ _ _ _ Hseg Hi) as (s & Hsi & Hs).
    destruct Hs as (_ & _ & _ & _ & Hcs). rewrite HcT in Hcs.
    injection Hcs as ->. apply chained_ends_before_last; [done|].
    by eapply list_elem_of_lookup_2.
  - assert (Htl : tl <> []).
    { intros ->. apply Forall2_nil_inv_r in Hseg. done. }
    destruct (last_end_is_an_end 0 tl Htl) as (s & Hs & ->).
    apply list_elem_of_lookup in Hs as [i Hi].
    destruct (Forall2_lookup_r _ _ _ _ _ Hseg Hi) as (p & Hpi & Hp).
    destruct Hp as (_ & _ & _ & _ & Hcp).
    apply (Hle p); [by eapply list_elem_of_lookup_2|done].
Qed.

Lemma np_total_time (key : Process -> Z) (ps : list Process) :
  ps <> [] -> Forall (fun p => 0 <= burst_time p) ps ->
  exists r s, returns (fun fuel => np_scheduling key fuel ps) r
    /\ statistics r = Some s
    /\ total_time s = of_Z (last_end 0 (timeline r)).
Proof.
  intros Hne Hb.
  destruct (np_loop_terminates key (np_init ps)) as [st Hst].
  assert (Hr : np_scheduling key (np_mu (np_init ps)) ps = Some (np_finish st)).
  { unfold np_scheduling. by rewrite Hst. }
  destruct (np_result_length key ps _ _ Hr) as [Hl _].
  apply while_passes with (s0 := np_init ps) in Hst as [Hp _]; [|constructor].
  pose proof (np_passes_segments key ps st Hp) as Hseg.
  destruct (np_passes_chained key ps st Hb Hp) as [Hch _].
  assert (Hne' : processes (np_finish st) <> []).
  { intros Hnil. rewrite Hnil in Hl. by destruct ps. }
  pose proof (total_time_is_last_end _ _ Hne' Hseg Hch) as Hmax.
  exists (np_finish st).
  change (statistics (np_finish st))
    with (calculateStatistics (processes (np_finish st))).
  unfold calculateStatistics.
  destruct (length _ =? 0)%nat eqn:Hz.
  { apply Nat.eqb_eq in Hz. by destruct (processes (np_finish st)). }
  eexists. split; [by exists (np_mu (np_init ps))|]. split; [done|]. exact Hmax.
Qed.

(** X18.  On a non-empty input without negative burst times, the
    total_time that FCFS, SJF and priority scheduling report is the end of
    the last segment of their timeline. *)
Theorem total_time_is_end_of_timeline (ps : list Process) :
  ps <> [] -> Forall (fun p => 0 <= burst_time p) ps ->
  (exists s, statistics (fcfsScheduling ps) = Some s
     /\ total_time s = of_Z (last_end 0 (timeline (fcfsScheduling ps))))
  /\ (exists r s, returns (fun fuel => sjfScheduling fuel ps) r
        /\ statistics r = Some s
        /\ total_time s = of_Z (last_end 0 (timeline r)))
  /\ (exists r s, returns (fun fuel => priorityScheduling fuel ps) r
        /\ statistics r = Some s
        /\ total_time s = of_Z (last_end 0 (timeline r))).
Proof.
  intros Hne Hb. split; [|split; by apply np_total_time].
  destruct (fcfs_schedule_shape ps) as (Hperm & Htl & Hpr).
  destruct (fcfs_result_length ps) as [Hl _].
  assert (Hne' : processes (fcfsScheduling ps) <> []).
  { intros Hnil. rewrite Hnil in Hl. by destruct ps. }
  assert (Hseg : Forall2 segment_of (processes (fcfsScheduling ps))
                   (timeline (fcfsScheduling ps))).
  { rewrite Hpr, Htl. apply run_in_order_segments. }
  assert (Hch : chained 0 (timeline (fcfsScheduling ps))).
  { rewrite Htl. apply run_in_order_chained. by rewrite Hperm. }
  pose proof (total_time_is_last_end _ _ Hne' Hseg Hch) as Hmax.
  change (statistics (fcfsScheduling ps))
    with (calculateStatistics (processes (fcfsScheduling ps))).
  unfold calculateStatistics.
  destruct (length _ =? 0)%nat eqn:Hz.
  { apply Nat.eqb_eq in Hz. by destruct (processes (fcfsScheduling ps)). }
  eexists. split; [done|]. simpl. exact Hmax.
Qed.

Lemma total_time_is_end_of_timeline_witness :
  tie_example <> [] /\ Forall (fun p => 0 <= burst_time p) tie_example
  /\ exists s, statistics (fcfsScheduling tie_example) = Some s
       /\ total_time s = of_Z (last_end 0 (timeline (fcfsScheduling tie_example))).
Proof.
  assert (Hne : tie_example <> []) by discriminate.
  split; [exact Hne|]. split; [exact nonnegative_bursts_tie_example|].
  exact (proj1 (total_time_is_end_of_timeline tie_example Hne
                  nonnegative_bursts_tie_example)).
Defined.
